(** * codealchemy-postman: the header codec, the workspace store, the request
    executor and the response search engine, embedded from the Go sources.

    Go strings are byte sequences: they are modelled as [list ascii].  Go's
    [int] is modelled as [Z]; a slice expression or an index that Go would
    reject at run time (a panic) makes the model return [None]. *)

From Stdlib Require Import ZArith Ascii String List Lia Bool.
From stdpp Require Import base option list sorting gmap strings.

Local Open Scope Z_scope.

(** ** Byte strings and the functions of Go's [strings] package that the
    program calls *)

Abbreviation bytes := (list ascii).

Definition str (s : string) : bytes := list_ascii_of_string s.
Arguments str s%_string.

Definition len {A} (s : list A) : Z := Z.of_nat (length s).

(** [s[lo:hi]]; Go panics unless [0 <= lo <= hi <= len(s)]. *)
Definition slice {A} (s : list A) (lo hi : Z) : option (list A) :=
  if decide (0 ≤ lo ∧ lo ≤ hi ∧ hi ≤ len s)
  then Some (take (Z.to_nat (hi - lo)) (drop (Z.to_nat lo) s))
  else None.

(** ** UTF-8, as [unicode/utf8] decodes and encodes it *)

Module UTF8.

Definition code (c : ascii) : N := N_of_ascii c.
Definition between (lo hi : N) (c : ascii) : bool :=
  ((lo <=? code c) && (code c <=? hi))%N.

Definition isASCII (c : ascii) : bool := (code c <? 128)%N.
Definition cont (c : ascii) : bool := between 128 191 c.

Definition valid2 (a b : ascii) : bool := between 194 223 a && cont b.

Definition valid3 (a b c : ascii) : bool :=
  ((code a =? 224)%N && between 160 191 b
   || (between 225 236 a || between 238 239 a) && cont b
   || (code a =? 237)%N && between 128 159 b)
  && cont c.

Definition valid4 (a b c d : ascii) : bool :=
  ((code a =? 240)%N && between 144 191 b
   || between 241 243 a && cont b
   || (code a =? 244)%N && between 128 143 b)
  && cont c && cont d.

(** [utf8.DecodeRune]: the number of bytes of the rune at the head of the
    string, 0 when the head is not the encoding of a rune (Go then answers
    [RuneError] with width 1). *)
Definition runeLen (s : bytes) : nat :=
  match s with
  | [] => 0
  | a :: s1 =>
      if isASCII a then 1
      else match s1 with
           | [] => 0
           | b :: s2 =>
               if valid2 a b then 2
               else match s2 with
                    | [] => 0
                    | c :: s3 =>
                        if valid3 a b c then 3
                        else match s3 with
                             | [] => 0
                             | d :: _ => if valid4 a b c d then 4 else 0
                             end
                    end
           end
  end%nat.

(** [utf8.ValidString]; [skip] counts the bytes of the current rune that
    are still to be passed over. *)
Fixpoint validFrom (skip : nat) (s : bytes) : bool :=
  match s with
  | [] => bool_decide (skip = 0%nat)
  | _ :: s' =>
      match skip with
      | S n => validFrom n s'
      | O => match runeLen s with
             | O => false
             | S n => validFrom n s'
             end
      end
  end.

Definition ValidString (s : bytes) : bool := validFrom 0 s.

Definition byte (n : N) : ascii := ascii_of_N n.

(** The bytes of [utf8.RuneError], U+FFFD. *)
Definition replacement : bytes := [byte 239; byte 191; byte 189].

(** [utf8.EncodeRune]. *)
Definition EncodeRune (r : N) : bytes :=
  (if r <? 128 then [byte r]
   else if r <? 2048 then
     [byte (192 + r / 64); byte (128 + r mod 64)]
   else if (55296 <=? r) && (r <=? 57343) then replacement
   else if r <? 65536 then
     [byte (224 + r / 4096); byte (128 + (r / 64) mod 64);
      byte (128 + r mod 64)]
   else if r <=? 1114111 then
     [byte (240 + r / 262144); byte (128 + (r / 4096) mod 64);
      byte (128 + (r / 64) mod 64); byte (128 + r mod 64)]
   else replacement)%N.

Definition RuneError : N := 65533.

(** [utf8.DecodeRuneInString] on a string that is not empty: the rune at
    its head and the width of the rune in bytes, [RuneError] and 1 when
    the head is not the encoding of a rune. *)
Definition DecodeRune (s : bytes) : N * nat :=
  match runeLen s, s with
  | 1%nat, a :: _ => (code a, 1%nat)
  | 2%nat, a :: b :: _ => ((code a - 192) * 64 + (code b - 128), 2%nat)
  | 3%nat, a :: b :: c :: _ =>
      ((code a - 224) * 4096 + (code b - 128) * 64 + (code c - 128),
       3%nat)
  | 4%nat, a :: b :: c :: d :: _ =>
      ((code a - 240) * 262144 + (code b - 128) * 4096
       + (code c - 128) * 64 + (code d - 128), 4%nat)
  | _, _ => (RuneError, 1%nat)
  end%N.

End UTF8.

(** ** The lower case of a rune, as [unicode.ToLower] gives it *)

Module Unicode.

(** The delta of a range of [unicode.CaseRanges] for [LowerCase]: a number
    to add, or [UpperLower] for a range in which upper-case and lower-case
    runes alternate, the upper-case one first. *)
Inductive delta := Delta (d : Z) | UpperLower.

(** The ranges of [unicode.CaseRanges] above ASCII whose runes have a lower
    case of their own, each with its delta for [LowerCase]: the simple
    lower-case mappings of the Unicode Character Database, version
    15.0.0. *)
Definition CaseRanges : list (N * N * delta) :=
  ([
    (192, 214, Delta 32); (216, 222, Delta 32); (256, 303, UpperLower);
    (304, 304, Delta (-199)); (306, 311, UpperLower);
    (313, 328, UpperLower); (330, 375, UpperLower);
    (376, 376, Delta (-121)); (377, 382, UpperLower);
    (385, 385, Delta 210); (386, 389, UpperLower); (390, 390, Delta 206);
    (391, 391, Delta 1); (393, 394, Delta 205); (395, 395, Delta 1);
    (398, 398, Delta 79); (399, 399, Delta 202); (400, 400, Delta 203);
    (401, 401, Delta 1); (403, 403, Delta 205); (404, 404, Delta 207);
    (406, 406, Delta 211); (407, 407, Delta 209); (408, 408, Delta 1);
    (412, 412, Delta 211); (413, 413, Delta 213); (415, 415, Delta 214);
    (416, 421, UpperLower); (422, 422, Delta 218); (423, 423, Delta 1);
    (425, 425, Delta 218); (428, 428, Delta 1); (430, 430, Delta 218);
    (431, 431, Delta 1); (433, 434, Delta 217); (435, 438, UpperLower);
    (439, 439, Delta 219); (440, 440, Delta 1); (444, 444, Delta 1);
    (452, 452, Delta 2); (453, 453, Delta 1); (455, 455, Delta 2);
    (456, 456, Delta 1); (458, 458, Delta 2); (459, 476, UpperLower);
    (478, 495, UpperLower); (497, 497, Delta 2); (498, 501, UpperLower);
    (502, 502, Delta (-97)); (503, 503, Delta (-56));
    (504, 543, UpperLower); (544, 544, Delta (-130));
    (546, 563, UpperLower); (570, 570, Delta 10795); (571, 571, Delta 1);
    (573, 573, Delta (-163)); (574, 574, Delta 10792); (577, 577, Delta 1);
    (579, 579, Delta (-195)); (580, 580, Delta 69); (581, 581, Delta 71);
    (582, 591, UpperLower); (880, 883, UpperLower); (886, 886, Delta 1);
    (895, 895, Delta 116); (902, 902, Delta 38); (904, 906, Delta 37);
    (908, 908, Delta 64); (910, 911, Delta 63); (913, 929, Delta 32);
    (931, 939, Delta 32); (975, 975, Delta 8); (984, 1007, UpperLower);
    (1012, 1012, Delta (-60)); (1015, 1015, Delta 1);
    (1017, 1017, Delta (-7)); (1018, 1018, Delta 1);
    (1021, 1023, Delta (-130)); (1024, 1039, Delta 80);
    (1040, 1071, Delta 32); (1120, 1153, UpperLower);
    (1162, 1215, UpperLower); (1216, 1216, Delta 15);
    (1217, 1230, UpperLower); (1232, 1327, UpperLower);
    (1329, 1366, Delta 48); (4256, 4293, Delta 7264);
    (4295, 4295, Delta 7264); (4301, 4301, Delta 7264);
    (5024, 5103, Delta 38864); (5104, 5109, Delta 8);
    (7312, 7354, Delta (-3008)); (7357, 7359, Delta (-3008));
    (7680, 7829, UpperLower); (7838, 7838, Delta (-7615));
    (7840, 7935, UpperLower); (7944, 7951, Delta (-8));
    (7960, 7965, Delta (-8)); (7976, 7983, Delta (-8));
    (7992, 7999, Delta (-8)); (8008, 8013, Delta (-8));
    (8025, 8025, Delta (-8)); (8027, 8027, Delta (-8));
    (8029, 8029, Delta (-8)); (8031, 8031, Delta (-8));
    (8040, 8047, Delta (-8)); (8072, 8079, Delta (-8));
    (8088, 8095, Delta (-8)); (8104, 8111, Delta (-8));
    (8120, 8121, Delta (-8)); (8122, 8123, Delta (-74));
    (8124, 8124, Delta (-9)); (8136, 8139, Delta (-86));
    (8140, 8140, Delta (-9)); (8152, 8153, Delta (-8));
    (8154, 8155, Delta (-100)); (8168, 8169, Delta (-8));
    (8170, 8171, Delta (-112)); (8172, 8172, Delta (-7));
    (8184, 8185, Delta (-128)); (8186, 8187, Delta (-126));
    (8188, 8188, Delta (-9)); (8486, 8486, Delta (-7517));
    (8490, 8490, Delta (-8383)); (8491, 8491, Delta (-8262));
    (8498, 8498, Delta 28); (8544, 8559, Delta 16); (8579, 8579, Delta 1);
    (9398, 9423, Delta 26); (11264, 11311, Delta 48);
    (11360, 11360, Delta 1); (11362, 11362, Delta (-10743));
    (11363, 11363, Delta (-3814)); (11364, 11364, Delta (-10727));
    (11367, 11372, UpperLower); (11373, 11373, Delta (-10780));
    (11374, 11374, Delta (-10749)); (11375, 11375, Delta (-10783));
    (11376, 11376, Delta (-10782)); (11378, 11378, Delta 1);
    (11381, 11381, Delta 1); (11390, 11391, Delta (-10815));
    (11392, 11491, UpperLower); (11499, 11502, UpperLower);
    (11506, 11506, Delta 1); (42560, 42605, UpperLower);
    (42624, 42651, UpperLower); (42786, 42799, UpperLower);
    (42802, 42863, UpperLower); (42873, 42876, UpperLower);
    (42877, 42877, Delta (-35332)); (42878, 42887, UpperLower);
    (42891, 42891, Delta 1); (42893, 42893, Delta (-42280));
    (42896, 42899, UpperLower); (42902, 42921, UpperLower);
    (42922, 42922, Delta (-42308)); (42923, 42923, Delta (-42319));
    (42924, 42924, Delta (-42315)); (42925, 42925, Delta (-42305));
    (42926, 42926, Delta (-42308)); (42928, 42928, Delta (-42258));
    (42929, 42929, Delta (-42282)); (42930, 42930, Delta (-42261));
    (42931, 42931, Delta 928); (42932, 42947, UpperLower);
    (42948, 42948, Delta (-48)); (42949, 42949, Delta (-42307));
    (42950, 42950, Delta (-35384)); (42951, 42954, UpperLower);
    (42960, 42960, Delta 1); (42966, 42969, UpperLower);
    (42997, 42997, Delta 1); (65313, 65338, Delta 32);
    (66560, 66599, Delta 40); (66736, 66771, Delta 40);
    (66928, 66938, Delta 39); (66940, 66954, Delta 39);
    (66956, 66962, Delta 39); (66964, 66965, Delta 39);
    (68736, 68786, Delta 64); (71840, 71871, Delta 32);
    (93760, 93791, Delta 32); (125184, 125217, Delta 34)
  ])%N.

(** [unicode.to(LowerCase, r, caseRange)].  Go finds the range by
    bisection; the ranges are disjoint and in order, so that the first
    range that holds the rune is the one it finds. *)
Fixpoint to (r : N) (caseRange : list (N * N * delta)) : N :=
  match caseRange with
  | [] => r
  | (lo, hi, d) :: rest =>
      if ((lo <=? r) && (r <=? hi))%N then
        match d with
        | Delta d => Z.to_N (Z.of_N r + d)
        | UpperLower => (lo + N.lor (N.ldiff (r - lo) 1) 1)%N
        end
      else to r rest
  end.

(** [unicode.ToLower]. *)
Definition ToLower (r : N) : N :=
  if (r <=? 127)%N then
    (if ((65 <=? r) && (r <=? 90))%N then r + 32 else r)%N
  else to r CaseRanges.

End Unicode.

Module GoStrings.

Definition isUpper (c : ascii) : bool :=
  let n := N_of_ascii c in (65 <=? n)%N && (n <=? 90)%N.

(** ['A' <= c && c <= 'Z'] then [c += 'a' - 'A']. *)
Definition lowerByte (c : ascii) : ascii :=
  if isUpper c then ascii_of_N (N_of_ascii c + 32) else c.

(** [for _, c := range s]: the runes of [s], one after the other; a byte
    that starts no rune counts as [RuneError], one byte wide.  [skip]
    counts the bytes of the current rune that are still to be passed
    over. *)
Fixpoint runes (skip : nat) (s : bytes) : list N :=
  match s with
  | [] => []
  | _ :: s' =>
      match skip with
      | S n => runes n s'
      | O =>
          let '(c, width) := UTF8.DecodeRune s in
          c :: runes (width - 1) s'
      end
  end.

(** [strings.Map(mapping, s)] for a mapping that drops no rune: the
    encodings of the images of the runes, U+FFFD for a byte that starts no
    rune.  (Go copies the leading part that the mapping leaves as it is
    instead of encoding it again, which gives the same bytes.) *)
Definition Map (mapping : N → N) (s : bytes) : bytes :=
  c ← runes 0 s; UTF8.EncodeRune (mapping c).

(** [strings.ToLower]: byte by byte on a string of ASCII, else
    [Map(unicode.ToLower, s)]. *)
Definition ToLower (s : bytes) : bytes :=
  if forallb UTF8.isASCII s then map lowerByte s
  else Map Unicode.ToLower s.

Fixpoint HasPrefix (s prefix : bytes) : bool :=
  match prefix, s with
  | [], _ => true
  | p :: prefix', c :: s' => bool_decide (p = c) && HasPrefix s' prefix'
  | _ :: _, [] => false
  end.

(** [strings.Index]: the index of the first instance of [substr] in [s],
    or -1. *)
Fixpoint Index (s substr : bytes) : Z :=
  if HasPrefix s substr then 0
  else match s with
       | [] => -1
       | _ :: s' => let i := Index s' substr in
                    if i =? -1 then -1 else 1 + i
       end.

(** [strings.Count(s, "\n")]. *)
Definition CountNewlines (s : bytes) : Z :=
  len (filter (λ c, c = "010"%char) s).

(** The six bytes of Go's [asciiSpace] table: tab, line feed, vertical tab,
    form feed, carriage return, space. *)
Definition asciiSpace (c : ascii) : bool :=
  let n := N_of_ascii c in ((9 <=? n)%N && (n <=? 13)%N) || (n =? 32)%N.

(** UTF-8 encodings of the runes above U+007F for which [unicode.IsSpace]
    holds: U+0085, U+00A0, U+1680, U+2000..U+200A, U+2028, U+2029, U+202F,
    U+205F and U+3000. *)
Definition space2 (a b : ascii) : bool :=
  (N_of_ascii a =? 194)%N
  && ((N_of_ascii b =? 133)%N || (N_of_ascii b =? 160)%N).

Definition space3 (a b c : ascii) : bool :=
  let '(x, y, z) := (N_of_ascii a, N_of_ascii b, N_of_ascii c) in
  ((x =? 225) && (y =? 154) && (z =? 128))%N
  || ((x =? 226) && (y =? 128)
      && (((128 <=? z) && (z <=? 138)) || (z =? 168) || (z =? 169)
          || (z =? 175)))%N
  || ((x =? 226) && (y =? 129) && (z =? 159))%N
  || ((x =? 227) && (y =? 128) && (z =? 128))%N.

(** Drop leading white-space runes: one byte of [asciiSpace], or the two
    or three bytes that [sp2] or [sp3] recognise.  Bytes that are not the
    encoding of a white-space rune stop the scan. *)
Fixpoint trimRunes (sp2 : ascii → ascii → bool)
    (sp3 : ascii → ascii → ascii → bool) (s : bytes) : bytes :=
  match s with
  | [] => []
  | a :: s1 =>
      if asciiSpace a then trimRunes sp2 sp3 s1
      else match s1 with
           | [] => s
           | b :: s2 =>
               if sp2 a b then trimRunes sp2 sp3 s2
               else match s2 with
                    | [] => s
                    | c :: s3 =>
                        if sp3 a b c then trimRunes sp2 sp3 s3 else s
                    end
           end
  end.

(** The string starts with a white-space rune. *)
Definition leadSpace (sp2 : ascii → ascii → bool)
    (sp3 : ascii → ascii → ascii → bool) (s : bytes) : bool :=
  match s with
  | [] => false
  | a :: s1 =>
      asciiSpace a
      || match s1 with
         | [] => false
         | b :: s2 =>
             sp2 a b || match s2 with [] => false | c :: _ => sp3 a b c end
         end
  end.

Definition highByte (c : ascii) : bool := (128 <=? N_of_ascii c)%N.

(** Bytes that can belong to a white-space rune. *)
Definition spaceish (c : ascii) : bool := asciiSpace c || highByte c.

(** [strings.TrimLeftFunc(s, unicode.IsSpace)]: runes are decoded from the
    head of the string. *)
Definition TrimLeft (s : bytes) : bytes := trimRunes space2 space3 s.

(** [strings.TrimRightFunc(s, unicode.IsSpace)] decodes runes from the end
    of the string: the same scan on the reversed bytes. *)
Definition TrimLeftRev (s : bytes) : bytes :=
  trimRunes (λ a b, space2 b a) (λ a b c, space3 c b a) s.

Definition TrimRight (s : bytes) : bytes := rev (TrimLeftRev (rev s)).

(** [strings.TrimSpace]: leading and trailing white space removed. *)
Definition TrimSpace (s : bytes) : bytes := TrimRight (TrimLeft s).

(** [strings.Split(s, sep)] for a separator of one byte: the substrings
    between the separators, a single empty one for the empty string. *)
Fixpoint Split (s : bytes) (sep : ascii) : list bytes :=
  match s with
  | [] => [[]]
  | c :: s' =>
      if decide (c = sep) then [] :: Split s' sep
      else match Split s' sep with
           | [] => [[c]]
           | piece :: pieces => (c :: piece) :: pieces
           end
  end.

(** The text before and after the first [sep], if there is one. *)
Fixpoint cut (s : bytes) (sep : ascii) : option (bytes * bytes) :=
  match s with
  | [] => None
  | c :: s' =>
      if decide (c = sep) then Some ([], s')
      else '(before, after) ← cut s' sep; Some (c :: before, after)
  end.

(** [strings.SplitN(s, sep, 2)] for a separator of one byte. *)
Definition SplitN2 (s : bytes) (sep : ascii) : list bytes :=
  match cut s sep with
  | Some (before, after) => [before; after]
  | None => [s]
  end.

(** [strings.Join(elems, sep)]. *)
Fixpoint Join (elems : list bytes) (sep : bytes) : bytes :=
  match elems with
  | [] => []
  | [e] => e
  | e :: elems' => e ++ sep ++ Join elems' sep
  end.

End GoStrings.

(** ** Response search engine ([highlightText], [navigateToMatch],
    [searchAction] and the button callbacks of [main]) *)

Module Search.
Import GoStrings.

(** The four marker literals, byte for byte as they stand in the source. *)
Definition byteOf (n : N) : ascii := ascii_of_N n.
Definition openCurrent : bytes := map byteOf [195; 163; 226; 130; 172]%N.
Definition closeCurrent : bytes :=
  map byteOf [195; 163; 226; 130; 172; 226; 128; 152]%N.
Definition openOther : bytes :=
  map byteOf [195; 163; 226; 130; 172; 226; 128; 157]%N.
Definition closeOther : bytes :=
  map byteOf [195; 163; 226; 130; 172; 226; 128; 162]%N.

(** First loop of [highlightText]: collect the match offsets.  [None] is
    the panic of the slice expression [lowerText[startPos:]].  [fuel]
    bounds the number of turns: one more than the length of [lowerText]
    is enough, more changes nothing ([scanLoop_fuel]). *)
Fixpoint scanLoop (fuel : nat) (lowerText lowerQuery : bytes) (qlen : Z)
    (startPos : Z) (searchResults : list Z) : option (list Z) :=
  match fuel with
  | O => None
  | S fuel' =>
      rest ← slice lowerText startPos (len lowerText);
      let idx := Index rest lowerQuery in
      if idx =? -1 then Some searchResults
      else
        let absoluteIdx := startPos + idx in
        scanLoop fuel' lowerText lowerQuery qlen (absoluteIdx + qlen)
          (searchResults ++ [absoluteIdx])
  end.

(** Second loop of [highlightText]: wrap every match, left to right. *)
Fixpoint markLoop (query : bytes) (currentIdx : Z) (matches : list Z)
    (i : Z) (result : bytes) (offset : Z) : option bytes :=
  match matches with
  | [] => Some result
  | matchPos :: matches' =>
      let start := matchPos + offset in
      let end_ := start + len query in
      if end_ <=? len result then
        mid ← slice result start end_;
        let highlighted :=
          if i =? currentIdx then openCurrent ++ mid ++ closeCurrent
          else openOther ++ mid ++ closeOther in
        pre ← slice result 0 start;
        post ← slice result end_ (len result);
        markLoop query currentIdx matches' (i + 1)
          (pre ++ highlighted ++ post)
          (offset + (len highlighted - len query))
      else markLoop query currentIdx matches' (i + 1) result offset
  end.

(** [highlightText(text, query, currentIdx)].  The closure assigns the
    captured variable [searchResults]; the model takes its old value and
    returns the new one next to the rendered string. *)
Definition highlightText (searchResults : list Z) (text query : bytes)
    (currentIdx : Z) : option (list Z * bytes) :=
  if decide (query = []) then Some (searchResults, text)
  else
    let lowerText := ToLower text in
    let lowerQuery := ToLower query in
    found ← scanLoop (S (length lowerText)) lowerText lowerQuery
              (len query) 0 [];
    if decide (len found = 0) then Some (found, text)
    else
      result ← markLoop query currentIdx found 0 text 0;
      Some (found, result).

(** The variables of [main] that the search callbacks read and write,
    with the two widget fields they touch. *)
Record State := mkState {
  jsonResponse_Text : bytes;
  jsonResponse_CursorRow : Z;
  searchEntry_Text : bytes;
  currentSearchQuery : bytes;
  searchResults : list Z;
  currentMatchIndex : Z;
  originalText : bytes
}.

Definition initial : State := mkState [] 0 [] [] [] (-1) [].

Definition set_Text (t : bytes) (st : State) : State :=
  mkState t (jsonResponse_CursorRow st) (searchEntry_Text st)
    (currentSearchQuery st) (searchResults st) (currentMatchIndex st)
    (originalText st).
Definition set_CursorRow (r : Z) (st : State) : State :=
  mkState (jsonResponse_Text st) r (searchEntry_Text st)
    (currentSearchQuery st) (searchResults st) (currentMatchIndex st)
    (originalText st).
Definition set_searchEntry (t : bytes) (st : State) : State :=
  mkState (jsonResponse_Text st) (jsonResponse_CursorRow st) t
    (currentSearchQuery st) (searchResults st) (currentMatchIndex st)
    (originalText st).
Definition set_query (q : bytes) (st : State) : State :=
  mkState (jsonResponse_Text st) (jsonResponse_CursorRow st)
    (searchEntry_Text st) q (searchResults st) (currentMatchIndex st)
    (originalText st).
Definition set_results (r : list Z) (st : State) : State :=
  mkState (jsonResponse_Text st) (jsonResponse_CursorRow st)
    (searchEntry_Text st) (currentSearchQuery st) r (currentMatchIndex st)
    (originalText st).
Definition set_index (i : Z) (st : State) : State :=
  mkState (jsonResponse_Text st) (jsonResponse_CursorRow st)
    (searchEntry_Text st) (currentSearchQuery st) (searchResults st) i
    (originalText st).
Definition set_original (t : bytes) (st : State) : State :=
  mkState (jsonResponse_Text st) (jsonResponse_CursorRow st)
    (searchEntry_Text st) (currentSearchQuery st) (searchResults st)
    (currentMatchIndex st) t.

(** [navigateToMatch(matchIndex)]. *)
Definition navigateToMatch (matchIndex : Z) (st : State) : option State :=
  if decide (len (searchResults st) = 0 ∨ matchIndex < 0
             ∨ len (searchResults st) ≤ matchIndex)
  then Some st
  else
    let st := set_index matchIndex st in
    st ← (if decide (originalText st ≠ [] ∧ currentSearchQuery st ≠ [])
          then
            '(found, highlightedText) ←
              highlightText (searchResults st) (originalText st)
                (currentSearchQuery st) (currentMatchIndex st);
            Some (set_Text highlightedText (set_results found st))
          else Some st);
    matchPos ← searchResults st !! Z.to_nat matchIndex;
    let text := if decide (originalText st = [])
                then jsonResponse_Text st else originalText st in
    before ← slice text 0 matchPos;
    Some (set_CursorRow (CountNewlines before) st).

(** The statements shared by the empty-query branch of [searchAction] and
    by [clearIcon.OnTapped]. *)
Definition resetSearch (st : State) : State :=
  let st := if decide (originalText st ≠ [])
            then set_original [] (set_Text (originalText st) st)
            else st in
  set_index (-1) (set_results [] (set_query [] st)).

(** [searchAction()]. *)
Definition searchAction (st : State) : option State :=
  let query := TrimSpace (searchEntry_Text st) in
  if decide (query = []) then Some (resetSearch st)
  else if decide (currentSearchQuery st ≠ query) then
    let st := if decide (originalText st = [])
              then set_original (jsonResponse_Text st) st else st in
    let st := set_query query st in
    '(found, _) ← highlightText (searchResults st) (originalText st) query 0;
    let st := set_results found st in
    if decide (0 < len (searchResults st))
    then navigateToMatch 0 (set_index 0 st)
    else Some (set_index (-1) (set_Text (originalText st) st))
  else if decide (0 < len (searchResults st)) then
    let nextIdx :=
      Z.rem (currentMatchIndex st + 1) (len (searchResults st)) in
    navigateToMatch nextIdx st
  else Some st.

(** [prevIcon.OnTapped]. *)
Definition prevTapped (st : State) : option State :=
  if decide (len (searchResults st) = 0) then Some st
  else
    let prevIdx := currentMatchIndex st - 1 in
    let prevIdx := if decide (prevIdx < 0)
                   then len (searchResults st) - 1 else prevIdx in
    navigateToMatch prevIdx st.

(** [nextIcon.OnTapped]. *)
Definition nextTapped (st : State) : option State :=
  if decide (len (searchResults st) = 0) then Some st
  else
    let nextIdx :=
      Z.rem (currentMatchIndex st + 1) (len (searchResults st)) in
    navigateToMatch nextIdx st.

(** [clearIcon.OnTapped]. *)
Definition clearTapped (st : State) : State :=
  resetSearch (set_searchEntry [] st).

(** What [sendBtn.OnTapped] does to these variables: every branch (the
    three failures and the success) puts a fresh text in the response box
    and resets the search variables. *)
Definition responseArrived (shown : bytes) (st : State) : State :=
  set_index (-1) (set_results [] (set_query []
    (set_original [] (set_Text shown st)))).

(** What [jsonataBtn]'s callback does to these variables.  [evaluated]
    says whether the expression was not empty and both [json.Unmarshal]
    and [jsonpath.Get] succeeded; otherwise the callback returns early. *)
Definition jsonataApplied (evaluated : bool) (st : State) : State :=
  if evaluated then
    set_index (-1) (set_results [] (set_query []
      (set_original (jsonResponse_Text st) st)))
  else st.

(** User actions on the search engine, and a run of them. *)
Inductive action :=
| Search (entry : bytes)
| Next
| Previous
| Clear
| Response (shown : bytes)
| JSONata (evaluated : bool).

Definition step (a : action) (st : State) : option State :=
  match a with
  | Search entry => searchAction (set_searchEntry entry st)
  | Next => nextTapped st
  | Previous => prevTapped st
  | Clear => Some (clearTapped st)
  | Response shown => Some (responseArrived shown st)
  | JSONata evaluated => Some (jsonataApplied evaluated st)
  end.

Fixpoint run (l : list action) (st : State) : option State :=
  match l with
  | [] => Some st
  | a :: l' => st' ← step a st; run l' st'
  end.

End Search.

(** ** The search of section 4.5, as the specification words it *)

Module SearchSpec.
Import GoStrings.

(** The [len query] bytes of [text] at offset [p] are the query, up to the
    case of letters. *)
Definition matchesAt (text query : bytes) (p : Z) : Prop :=
  0 ≤ p ∧ p + len query ≤ len text
  ∧ ToLower (take (length query) (drop (Z.to_nat p) text)) = ToLower query.

(** Left-to-right scan without overlaps: each offset is the leftmost match
    at or after the place where the scan resumed, the scan resumes right
    after the end of that match, and it stops when nothing is left to
    find. *)
Inductive nonOverlappingScan (text query : bytes) : Z → list Z → Prop :=
| scan_done resume :
    (∀ p, resume ≤ p → ¬ matchesAt text query p) →
    nonOverlappingScan text query resume []
| scan_hit resume p offsets :
    resume ≤ p →
    matchesAt text query p →
    (∀ p', resume ≤ p' < p → ¬ matchesAt text query p') →
    nonOverlappingScan text query (p + len query) offsets →
    nonOverlappingScan text query resume (p :: offsets).

(** The text that the last response put in the box. *)
Fixpoint lastResponse (l : list Search.action) (shown : bytes) : bytes :=
  match l with
  | [] => shown
  | Search.Response t :: l' => lastResponse l' t
  | _ :: l' => lastResponse l' shown
  end.

Definition noJSONata (a : Search.action) : Prop :=
  match a with Search.JSONata true => False | _ => True end.

(** What the capture is to the response [body] as long as the JSONata
    callback has not reset the search: the capture, when one is held, is
    the response, and the box shows the response when none is held. *)
Record captured (body : bytes) (st : Search.State) : Prop := {
  shown_when_idle :
    Search.originalText st = [] → Search.jsonResponse_Text st = body;
  capture_is_response :
    Search.originalText st ≠ [] → Search.originalText st = body
}.

(** Two bytes are the same letter in upper or in lower case, or the same
    byte. *)
Definition sameLetter (a b : ascii) : Prop :=
  a = b
  ∨ (isUpper a = true ∧ N_of_ascii b = (N_of_ascii a + 32)%N)
  ∨ (isUpper b = true ∧ N_of_ascii a = (N_of_ascii b + 32)%N).

(** The capital I with a dot above, U+0130: two bytes, whose lower case
    is the one byte i. *)
Definition dottedI : bytes := [UTF8.byte 196; UTF8.byte 176].

(** A response as [sendBtn] shows it: the object with the one member
    a = 1, indented by [json.Indent] with four spaces. *)
Definition indentedResponse : bytes :=
  str "{" ++ ["010"%char] ++ str "    " ++ ["034"%char] ++ str "a"
  ++ ["034"%char] ++ str ": 1" ++ ["010"%char] ++ str "}".

End SearchSpec.

(** ** Header codec ([parseHeaders], and the flattening and the listing of
    headers in [saveReqBtn] and [requestList.OnSelected]) *)

Module HeaderCodec.
Import GoStrings.

Definition colon : ascii := ":"%char.
Definition newline : ascii := "010"%char.

(** [http.Header], a [map[string][]string]. *)
Abbreviation Header := (gmap bytes (list bytes)).

(** The token bytes of RFC 7230, [validHeaderFieldByte] in
    [net/textproto]. *)
Definition validHeaderFieldByte (c : ascii) : bool :=
  let n := N_of_ascii c in
  ((48 <=? n) && (n <=? 57) || (65 <=? n) && (n <=? 90)
   || (97 <=? n) && (n <=? 122)
   || bool_decide (n ∈ [33; 35; 36; 37; 38; 39; 42; 43; 45; 46; 94; 95;
                         96; 124; 126]))%N.

Definition isLower (c : ascii) : bool :=
  let n := N_of_ascii c in (97 <=? n)%N && (n <=? 122)%N.

Definition isLetter (c : ascii) : bool := isUpper c || isLower c.

Definition upperByte (c : ascii) : ascii :=
  if isLower c then ascii_of_N (N_of_ascii c - 32) else c.

(** The loop of [canonicalMIMEHeaderKey]: upper case for the first letter
    and for a letter after a dash, lower case for the others. *)
Fixpoint canonicalCase (upper : bool) (a : bytes) : bytes :=
  match a with
  | [] => []
  | c :: a' =>
      let c := if upper then upperByte c else lowerByte c in
      c :: canonicalCase (bool_decide (c = "-"%char)) a'
  end.

(** [textproto.CanonicalMIMEHeaderKey]: a key with a byte that is not a
    token byte is returned unchanged. *)
Definition CanonicalMIMEHeaderKey (s : bytes) : bytes :=
  if forallb validHeaderFieldByte s then canonicalCase true s else s.

(** [http.Header.Add]: the value is appended to the values of the
    canonical form of the key. *)
Definition Add (h : Header) (key value : bytes) : Header :=
  let key := CanonicalMIMEHeaderKey key in
  <[key := default [] (h !! key) ++ [value]]> h.

(** The body of the loop of [parseHeaders]. *)
Definition parseLine (headers : Header) (line : bytes) : Header :=
  if decide (TrimSpace line = []) then headers
  else match SplitN2 line colon with
       | [key; value] => Add headers (TrimSpace key) (TrimSpace value)
       | _ => headers
       end.

Definition parseHeaders (headerStr : bytes) : Header :=
  foldl parseLine ∅ (Split headerStr newline).

(** The loop of [saveReqBtn] that fills [headersMap]. *)
Definition flattenHeaders (h : Header) : gmap bytes bytes :=
  (λ v, Join v (str ", ")) <$> h.

(** The loop of [requestList.OnSelected] (and of [loadReqBtn]) that lists
    the stored headers in the headers entry.  Go ranges over a map in an
    order of its choosing: [entries] is the map in that order. *)
Definition headersText (entries : list (bytes * bytes)) : bytes :=
  foldl (λ text '(k, v), text ++ k ++ str ": " ++ v ++ [newline]) []
    entries.

Definition rangeOrder (m : gmap bytes bytes)
    (entries : list (bytes * bytes)) : Prop :=
  entries ≡ₚ map_to_list m.

End HeaderCodec.

(** ** The header codec of section 4.1, as the specification words it *)

Module HeaderSpec.
Import GoStrings HeaderCodec.

(** One line of the block: nothing for a blank line or a line without a
    colon, else the text before the first colon and the text after it,
    both trimmed. *)
Definition entryOfLine (line : bytes) : option (bytes * bytes) :=
  if decide (TrimSpace line = []) then None
  else '(key, value) ← cut line colon;
       Some (TrimSpace key, TrimSpace value).

(** The entries of a block, one per line that has one, in line order. *)
Definition entries (text : bytes) : list (bytes * bytes) :=
  omap entryOfLine (Split text newline).

(** The values listed under [key], in line order. *)
Definition valuesOf (key : bytes) (l : list (bytes * bytes)) : list bytes :=
  snd <$> filter (λ e, e.1 = key) l.

(** The multimap of a list of entries: a key is present when a line has
    it, and holds one value per such line. *)
Definition lookupIn (key : bytes) (l : list (bytes * bytes))
    : option (list bytes) :=
  match valuesOf key l with
  | [] => None
  | vs => Some vs
  end.

Definition canonicalEntry (e : bytes * bytes) : bytes * bytes :=
  (CanonicalMIMEHeaderKey e.1, e.2).

Definition addEntry (h : Header) (e : bytes * bytes) : Header :=
  Add h e.1 e.2.

(** What every key of a parsed block is: free of colons and of line
    feeds, trimmed and canonical. *)
Definition keyOK (k : bytes) : Prop :=
  (colon ∉ k) ∧ (newline ∉ k) ∧ TrimSpace k = k
  ∧ CanonicalMIMEHeaderKey k = k.

(** Parse, then flatten. *)
Definition flattened (text : bytes) : gmap bytes bytes :=
  flattenHeaders (parseHeaders text).

(** A block in which the key A has two values, the second one empty. *)
Definition blockWithEmptyLastValue : bytes :=
  str "A: x" ++ [newline] ++ str "A:".

End HeaderSpec.

(** ** The records of the store

    A Go slice or map is [None] when it is [nil]; [encoding/json] writes
    [null] for a nil one and brackets for an empty one. *)

Module APIRequest.
Record t := mk {
  Name : bytes;
  Method : bytes;
  URL : bytes;
  Headers : option (gmap bytes bytes);
  Body : bytes
}.
Definition zero : t := mk [] [] [] None [].
End APIRequest.

Module Collection.
Record t := mk {
  Name : bytes;
  Requests : option (list APIRequest.t)
}.
Definition zero : t := mk [] None.
End Collection.

Module Workspace.
Record t := mk {
  Name : bytes;
  Collections : option (list Collection.t)
}.
Definition zero : t := mk [] None.
End Workspace.

(** The elements of a slice, none for a nil one. *)
Definition elems {A} (s : option (list A)) : list A := default [] s.

(** [append(s, x)]. *)
Definition append {A} (s : option (list A)) (x : A) : option (list A) :=
  Some (elems s ++ [x]).

(** ** JSON text, as [encoding/json] writes and reads it *)

Module JSON.
Import UTF8.

#[local] Unset Elimination Schemes.
Inductive json :=
| JNull
| JBool (b : bool)
| JNumber (literal : bytes)
| JString (s : bytes)
| JArray (elements : list json)
| JObject (members : list (bytes * json)).
#[local] Set Elimination Schemes.

Inductive token :=
| TBeginObject | TEndObject | TBeginArray | TEndArray | TColon | TComma
| TString (s : bytes)
| TNumber (literal : bytes)
| TTrue | TFalse | TNull.

Definition quoteChar : ascii := "034"%char.
Definition backslash : ascii := "\"%char.

(** *** Writing *)

Definition hexDigit (n : N) : ascii :=
  byte (if n <? 10 then 48 + n else 87 + n)%N.

(** [htmlSafeSet]: the ASCII bytes that [appendString] copies. *)
Definition htmlSafe (c : ascii) : bool :=
  (32 <=? code c)%N
  && negb (bool_decide (code c ∈ [34; 92; 60; 62; 38]%N)).

(** The [switch] of [appendString] for an ASCII byte that is not copied. *)
Definition escapeASCII (c : ascii) : bytes :=
  let n := code c in
  if bool_decide (n = 92%N ∨ n = 34%N) then [backslash; c]
  else if (n =? 8)%N then [backslash; "b"%char]
  else if (n =? 12)%N then [backslash; "f"%char]
  else if (n =? 10)%N then [backslash; "n"%char]
  else if (n =? 13)%N then [backslash; "r"%char]
  else if (n =? 9)%N then [backslash; "t"%char]
  else [backslash; "u"%char; "0"%char; "0"%char;
        hexDigit (n / 16); hexDigit (n mod 16)].

Definition lineSeparator : bytes := [byte 226; byte 128; byte 168].
Definition paragraphSeparator : bytes := [byte 226; byte 128; byte 169].

(** What [appendString] writes for the rune that starts at the head of
    [s], and the number of bytes of [s] that the rune takes. *)
Definition quoteRune (s : bytes) : bytes * nat :=
  match s with
  | [] => ([], 0%nat)
  | a :: _ =>
      if isASCII a then
        (if htmlSafe a then [a] else escapeASCII a, 1%nat)
      else match runeLen s with
           | O => (backslash :: str "ufffd", 1%nat)
           | n =>
               let r := take n s in
               if decide (r = lineSeparator)
               then (backslash :: str "u2028", n)
               else if decide (r = paragraphSeparator)
               then (backslash :: str "u2029", n)
               else (r, n)
           end
  end.

(** The loop of [appendString]; [skip] counts the bytes of the current
    rune that are still to be passed over. *)
Fixpoint quoteFrom (skip : nat) (s : bytes) : bytes :=
  match s with
  | [] => []
  | _ :: s' =>
      match skip with
      | S n => quoteFrom n s'
      | O => let '(out, n) := quoteRune s in out ++ quoteFrom (pred n) s'
      end
  end.

Definition quote (s : bytes) : bytes :=
  quoteChar :: quoteFrom 0 s ++ [quoteChar].

Definition tokenText (t : token) : bytes :=
  match t with
  | TBeginObject => str "{" | TEndObject => str "}"
  | TBeginArray => str "[" | TEndArray => str "]"
  | TColon => str ":" | TComma => str ","
  | TString s => quote s
  | TNumber literal => literal
  | TTrue => str "true" | TFalse => str "false" | TNull => str "null"
  end.

(** The tokens of the compact text that [json.Marshal] writes. *)
Fixpoint tokens (j : json) : list token :=
  match j with
  | JNull => [TNull]
  | JBool true => [TTrue]
  | JBool false => [TFalse]
  | JNumber literal => [TNumber literal]
  | JString s => [TString s]
  | JArray elements =>
      TBeginArray
      :: (fix go (first : bool) (l : list json) : list token :=
            match l with
            | [] => [TEndArray]
            | x :: l' =>
                (if first then [] else [TComma]) ++ tokens x ++ go false l'
            end) true elements
  | JObject members =>
      TBeginObject
      :: (fix go (first : bool) (l : list (bytes * json)) : list token :=
            match l with
            | [] => [TEndObject]
            | (k, x) :: l' =>
                (if first then [] else [TComma])
                ++ TString k :: TColon :: tokens x ++ go false l'
            end) true members
  end.

(** [appendNewline] with the empty prefix and an indent of two spaces. *)
Definition newlineIndent (depth : nat) : bytes :=
  "010"%char :: concat (replicate depth (str "  ")).

(** The loop of [json.Indent], token by token. *)
Fixpoint indentLoop (needIndent : bool) (depth : nat) (l : list token)
    : bytes :=
  match l with
  | [] => []
  | t :: l' =>
      let closing :=
        match t with TEndObject | TEndArray => true | _ => false end in
      let opened := needIndent && negb closing in
      let depth := if opened then S depth else depth in
      let needIndent := if opened then false else needIndent in
      (if opened then newlineIndent depth else [])
      ++ match t with
         | TBeginObject | TBeginArray =>
             tokenText t ++ indentLoop true depth l'
         | TComma =>
             tokenText t ++ newlineIndent depth
             ++ indentLoop needIndent depth l'
         | TColon =>
             tokenText t ++ str " " ++ indentLoop needIndent depth l'
         | TEndObject | TEndArray =>
             if needIndent then tokenText t ++ indentLoop false depth l'
             else newlineIndent (pred depth) ++ tokenText t
                  ++ indentLoop false (pred depth) l'
         | _ => tokenText t ++ indentLoop needIndent depth l'
         end
  end.

(** [json.MarshalIndent(v, "", "  ")] on the value whose compact text has
    the tokens of [j]. *)
Definition renderIndent (j : json) : bytes := indentLoop false 0 (tokens j).

(** *** Reading *)

Definition isSpace (c : ascii) : bool :=
  bool_decide (code c ∈ [32; 9; 13; 10]%N).

Definition isDigit (c : ascii) : bool := between 48 57 c.

Definition isHex (c : ascii) : bool :=
  isDigit c || between 97 102 c || between 65 70 c.

Definition hexValue (c : ascii) : N :=
  (if isDigit c then code c - 48
   else if between 97 102 c then code c - 87 else code c - 55)%N.

(** Four hexadecimal digits at the head of [s], as a number. *)
Definition hex4 (s : bytes) : option N :=
  match s with
  | a :: b :: c :: d :: _ =>
      if isHex a && isHex b && isHex c && isHex d
      then Some (4096 * hexValue a + 256 * hexValue b + 16 * hexValue c
                 + hexValue d)%N
      else None
  | _ => None
  end.

(** The scanner in a string literal, on what stands at the head of [s]
    (not the closing quote): the number of bytes of it, 1 for a plain
    byte, 2 or 6 for an escape; none for a control character or a wrong
    escape. *)
Definition scanItem (s : bytes) : option nat :=
  match s with
  | [] => None
  | c :: s' =>
      if decide (c = backslash) then
        match s' with
        | [] => None
        | e :: s'' =>
            if bool_decide (e ∈ quoteChar :: backslash :: str "/bfnrt")
            then Some 2%nat
            else if decide (e = "u"%char) then
              match hex4 s'' with
              | Some _ => Some 6%nat
              | None => None
              end
            else None
        end
      else if (code c <? 32)%N then None
      else Some 1%nat
  end.

(** The scanner in a string literal, after the opening quote: the number
    of bytes before the closing quote; none when the literal is not
    closed.  [skip] counts the bytes of the current escape that are still
    to be passed over. *)
Fixpoint scanString (skip : nat) (s : bytes) : option nat :=
  match s with
  | [] => None
  | c :: s' =>
      match skip with
      | S n => S <$> scanString n s'
      | O =>
          if decide (c = quoteChar) then Some 0%nat
          else n ← scanItem s; S <$> scanString (pred n) s'
      end
  end.

(** [getu4]: the number of the escape [\uXXXX] at the head of [s]. *)
Definition getu4 (s : bytes) : option N :=
  match s with
  | b :: u :: s' =>
      if decide (b = backslash ∧ u = "u"%char) then hex4 s' else None
  | _ => None
  end.

Definition simpleEscape (e : ascii) : ascii :=
  if decide (e = "b"%char) then byte 8
  else if decide (e = "f"%char) then byte 12
  else if decide (e = "n"%char) then byte 10
  else if decide (e = "r"%char) then byte 13
  else if decide (e = "t"%char) then byte 9
  else e.

(** One turn of the loop of [unquoteBytes]: the bytes written for what
    stands at the head of [s], and the number of bytes read. *)
Definition unquoteRune (s : bytes) : bytes * nat :=
  match s with
  | [] => ([], 0%nat)
  | c :: s' =>
      if decide (c = backslash) then
        match s' with
        | [] => ([], 1%nat)
        | e :: s'' =>
            if decide (e = "u"%char) then
              match hex4 s'' with
              | None => ([], 2%nat)
              | Some rr =>
                  if ((55296 <=? rr) && (rr <=? 57343))%N then
                    match getu4 (drop 4 s'') with
                    | Some rr1 =>
                        if ((rr <? 56320) && (56320 <=? rr1)
                            && (rr1 <? 57344))%N
                        then (EncodeRune ((rr - 55296) * 1024
                                          + (rr1 - 56320) + 65536)%N,
                              12%nat)
                        else (replacement, 6%nat)
                    | None => (replacement, 6%nat)
                    end
                  else (EncodeRune rr, 6%nat)
              end
            else ([simpleEscape e], 2%nat)
        end
      else if isASCII c then ([c], 1%nat)
      else match runeLen s with
           | O => (replacement, 1%nat)
           | n => (take n s, n)
           end
  end.

(** [unquoteBytes] on the bytes between the quotes. *)
Fixpoint unquoteFrom (skip : nat) (s : bytes) : bytes :=
  match s with
  | [] => []
  | _ :: s' =>
      match skip with
      | S n => unquoteFrom n s'
      | O => let '(out, n) := unquoteRune s in out ++ unquoteFrom (pred n) s'
      end
  end.

Fixpoint digits (s : bytes) : nat :=
  match s with
  | c :: s' => if isDigit c then S (digits s') else O
  | [] => O
  end.

(** The digits that must follow a point, an exponent mark or its sign:
    their number, with [before] bytes in front of them. *)
Definition someDigits (before : nat) (s : bytes) : option nat :=
  match digits s with O => None | n => Some (before + n)%nat end.

Definition scanFraction (s : bytes) : option nat :=
  match s with
  | c :: s' => if decide (c = "."%char) then someDigits 1 s' else Some O
  | [] => Some O
  end.

Definition scanExponent (s : bytes) : option nat :=
  match s with
  | e :: s' =>
      if decide (e = "e"%char ∨ e = "E"%char) then
        match s' with
        | sign :: s'' =>
            if decide (sign = "+"%char ∨ sign = "-"%char)
            then someDigits 2 s'' else someDigits 1 s'
        | [] => None
        end
      else Some O
  | [] => Some O
  end.

Definition scanInteger (s : bytes) : option nat :=
  match s with
  | c :: s' =>
      if decide (c = "0"%char) then Some 1%nat
      else if between 49 57 c then Some (S (digits s'))
      else None
  | [] => None
  end.

(** The scanner on a number: the length of the literal at the head of
    [s]. *)
Definition scanNumber (s : bytes) : option nat :=
  let sign := match s with
              | c :: _ => if decide (c = "-"%char) then 1%nat else O
              | [] => O
              end in
  i ← scanInteger (drop sign s);
  f ← scanFraction (drop (sign + i) s);
  e ← scanExponent (drop (sign + i + f) s);
  Some (sign + i + f + e)%nat.

Definition punctuation (c : ascii) : option token :=
  if decide (c = "{"%char) then Some TBeginObject
  else if decide (c = "}"%char) then Some TEndObject
  else if decide (c = "["%char) then Some TBeginArray
  else if decide (c = "]"%char) then Some TEndArray
  else if decide (c = ":"%char) then Some TColon
  else if decide (c = ","%char) then Some TComma
  else None.

(** The token at the head of [s], which is not white space, and the
    number of bytes it takes. *)
Definition lexToken (s : bytes) : option (token * nat) :=
  match s with
  | [] => None
  | c :: s' =>
      match punctuation c with
      | Some t => Some (t, 1%nat)
      | None =>
          if decide (c = quoteChar) then
            n ← scanString 0 s';
            Some (TString (unquoteFrom 0 (take n s')), (2 + n)%nat)
          else if decide (take 4 s = str "true") then Some (TTrue, 4%nat)
          else if decide (take 5 s = str "false") then Some (TFalse, 5%nat)
          else if decide (take 4 s = str "null") then Some (TNull, 4%nat)
          else n ← scanNumber s; Some (TNumber (take n s), n)
      end
  end.

(** The tokens of a text; [skip] counts the bytes of the current token
    that are still to be passed over. *)
Fixpoint lex (skip : nat) (s : bytes) : option (list token) :=
  match s with
  | [] => Some []
  | c :: s' =>
      match skip with
      | S n => lex n s'
      | O =>
          if isSpace c then lex 0 s'
          else '(t, n) ← lexToken s; l ← lex (pred n) s'; Some (t :: l)
      end
  end.

(** The states of the parser: the containers that are open, innermost
    first, and what may come next. *)
Inductive frame :=
| InArray (done : list json)
| InObject (done : list (bytes * json)) (key : bytes).

Inductive state :=
| ExpectValue (stack : list frame)
| ArrayStart (stack : list frame)
| ArrayMore (done : list json) (stack : list frame)
| ObjectStart (stack : list frame)
| ObjectKey (done : list (bytes * json)) (stack : list frame)
| ObjectColon (done : list (bytes * json)) (key : bytes)
    (stack : list frame)
| ObjectMore (done : list (bytes * json)) (stack : list frame)
| Done (v : json).

(** [maxNestingDepth] of the scanner. *)
Definition maxNestingDepth : Z := 10000.

(** A value is complete: it goes to the innermost open container. *)
Definition deliver (v : json) (stack : list frame) : state :=
  match stack with
  | [] => Done v
  | InArray done :: stack' => ArrayMore (v :: done) stack'
  | InObject done key :: stack' => ObjectMore ((key, v) :: done) stack'
  end.

(** The first token of a value. *)
Definition beginValue (t : token) (stack : list frame) : option state :=
  match t with
  | TNull => Some (deliver JNull stack)
  | TTrue => Some (deliver (JBool true) stack)
  | TFalse => Some (deliver (JBool false) stack)
  | TNumber literal => Some (deliver (JNumber literal) stack)
  | TString s => Some (deliver (JString s) stack)
  | TBeginArray =>
      if decide (len stack < maxNestingDepth)
      then Some (ArrayStart stack) else None
  | TBeginObject =>
      if decide (len stack < maxNestingDepth)
      then Some (ObjectStart stack) else None
  | _ => None
  end.

Definition step (st : state) (t : token) : option state :=
  match st with
  | ExpectValue stack => beginValue t stack
  | ArrayStart stack =>
      match t with
      | TEndArray => Some (deliver (JArray []) stack)
      | _ => beginValue t (InArray [] :: stack)
      end
  | ArrayMore done stack =>
      match t with
      | TComma => Some (ExpectValue (InArray done :: stack))
      | TEndArray => Some (deliver (JArray (reverse done)) stack)
      | _ => None
      end
  | ObjectStart stack =>
      match t with
      | TEndObject => Some (deliver (JObject []) stack)
      | TString key => Some (ObjectColon [] key stack)
      | _ => None
      end
  | ObjectKey done stack =>
      match t with
      | TString key => Some (ObjectColon done key stack)
      | _ => None
      end
  | ObjectColon done key stack =>
      match t with
      | TColon => Some (ExpectValue (InObject done key :: stack))
      | _ => None
      end
  | ObjectMore done stack =>
      match t with
      | TComma => Some (ObjectKey done stack)
      | TEndObject => Some (deliver (JObject (reverse done)) stack)
      | _ => None
      end
  | Done _ => None
  end.

Fixpoint run (st : state) (l : list token) : option state :=
  match l with
  | [] => Some st
  | t :: l' => st' ← step st t; run st' l'
  end.

(** The value of a text, when the text is one JSON value ([checkValid]
    accepts it). *)
Definition parse (data : bytes) : option json :=
  l ← lex 0 data;
  st ← run (ExpectValue []) l;
  match st with Done v => Some v | _ => None end.

(** The tokens of an array and of an object after the opening bracket,
    from the tokens of the elements. *)
Fixpoint elementTokens (first : bool) (l : list (list token)) : list token :=
  match l with
  | [] => [TEndArray]
  | x :: l' =>
      (if first then [] else [TComma]) ++ x ++ elementTokens false l'
  end.

Fixpoint memberTokens (first : bool) (l : list (bytes * list token))
    : list token :=
  match l with
  | [] => [TEndObject]
  | (k, x) :: l' =>
      (if first then [] else [TComma])
      ++ TString k :: TColon :: x ++ memberTokens false l'
  end.

(** The first token of a value is none of the closing or separating
    ones. *)
Definition opensValue (t : token) : Prop :=
  match t with
  | TEndObject | TEndArray | TColon | TComma => False
  | _ => True
  end.

(** The tokens that the writer produces: no number, and strings of valid
    UTF-8. *)
Definition lexable (t : token) : Prop :=
  match t with
  | TString s => ValidString s = true
  | TNumber _ => False
  | _ => True
  end.

(** The number of containers around the innermost value. *)
Fixpoint depth (j : json) : Z :=
  match j with
  | JArray elements => 1 + foldr (λ x d, Z.max (depth x) d) 0 elements
  | JObject members => 1 + foldr (λ m d, Z.max (depth m.2) d) 0 members
  | _ => 0
  end.

(** A value that the writer produces: its strings and its member names
    are valid UTF-8 and it holds no number. *)
Fixpoint writable (j : json) : Prop :=
  match j with
  | JNumber _ => False
  | JString s => ValidString s = true
  | JArray elements => foldr (λ x P, writable x ∧ P) True elements
  | JObject members =>
      foldr (λ m P, ValidString m.1 = true ∧ writable m.2 ∧ P) True members
  | _ => True
  end.

(** [json.Valid]. *)
Definition Valid (data : bytes) : bool := bool_decide (is_Some (parse data)).

End JSON.

(** ** The store document: [json.MarshalIndent] and [json.Unmarshal] on
    [[]Workspace] *)

Module Codec.
Import UTF8 JSON.

Inductive error := SyntaxError | UnmarshalTypeError | IOError.

(** *** Writing *)

(** Byte order on strings, by which [encoding/json] sorts the keys of a
    map. *)
Fixpoint bytesLe (a b : bytes) : bool :=
  match a, b with
  | [], _ => true
  | _ :: _, [] => false
  | x :: a', y :: b' =>
      (code x <? code y)%N || ((code x =? code y)%N && bytesLe a' b')
  end.

Definition keyLe (a b : bytes * bytes) : Prop := bytesLe a.1 b.1 = true.

#[export] Instance keyLe_dec a b : Decision (keyLe a b).
Proof. unfold keyLe. apply _. Defined.

Definition sortedEntries (m : gmap bytes bytes) : list (bytes * bytes) :=
  merge_sort keyLe (map_to_list m).

Definition encSlice {A} (enc : A → json) (s : option (list A)) : json :=
  match s with
  | None => JNull
  | Some l => JArray (enc <$> l)
  end.

Definition encHeaders (h : option (gmap bytes bytes)) : json :=
  match h with
  | None => JNull
  | Some m => JObject (prod_map id JString <$> sortedEntries m)
  end.

Definition encRequest (r : APIRequest.t) : json :=
  JObject [(str "name", JString (APIRequest.Name r));
           (str "method", JString (APIRequest.Method r));
           (str "url", JString (APIRequest.URL r));
           (str "headers", encHeaders (APIRequest.Headers r));
           (str "body", JString (APIRequest.Body r))].

Definition encCollection (c : Collection.t) : json :=
  JObject [(str "name", JString (Collection.Name c));
           (str "requests", encSlice encRequest (Collection.Requests c))].

Definition encWorkspace (w : Workspace.t) : json :=
  JObject [(str "name", JString (Workspace.Name w));
           (str "collections",
            encSlice encCollection (Workspace.Collections w))].

(** [json.MarshalIndent(workspaces, "", "  ")]; it has no error on these
    types. *)
Definition MarshalIndent (workspaces : option (list Workspace.t)) : bytes :=
  renderIndent (encSlice encWorkspace workspaces).

(** *** Reading

    [Unmarshal] decodes into the value that is there: a [null] leaves a
    string or a struct as it is and makes a slice or a map nil; a value of
    another kind than the target leaves the target as it is and is
    reported, at the end, as an [UnmarshalTypeError] (the first one). *)

Definition firstError (e1 e2 : option error) : option error :=
  match e1 with Some e => Some e | None => e2 end.

Definition decString (cur : bytes) (j : json) : bytes * option error :=
  match j with
  | JString s => (s, None)
  | JNull => (cur, None)
  | _ => (cur, Some UnmarshalTypeError)
  end.

(** [foldName], as far as it decides whether a member name is one of the
    field names: ASCII letters in upper case, U+017F for S, U+212A for
    K. *)
Fixpoint foldName (s : bytes) : bytes :=
  match s with
  | [] => []
  | a :: s1 =>
      if isASCII a then
        (if between 97 122 a then byte (code a - 32) else a) :: foldName s1
      else match s1 with
           | [] => [a]
           | b :: s2 =>
               if decide (a = byte 197 ∧ b = byte 191)
               then "S"%char :: foldName s2
               else match s2 with
                    | [] => a :: foldName s1
                    | c :: s3 =>
                        if decide (a = byte 226 ∧ b = byte 132
                                   ∧ c = byte 170)
                        then "K"%char :: foldName s3
                        else a :: foldName s1
                    end
           end
  end.

(** The member name [key] selects the field with the JSON name [name]. *)
Definition selects (key : bytes) (name : string) : bool :=
  bool_decide (foldName key = foldName (str name)).

Definition decHeaderMember (acc : gmap bytes bytes * option error)
    (member : bytes * json) : gmap bytes bytes * option error :=
  let '(s, e) := decString [] member.2 in
  (<[member.1 := s]> acc.1, firstError acc.2 e).

Definition decHeaders (cur : option (gmap bytes bytes)) (j : json)
    : option (gmap bytes bytes) * option error :=
  match j with
  | JNull => (None, None)
  | JObject members =>
      let '(m, e) := foldl decHeaderMember (default ∅ cur, None) members in
      (Some m, e)
  | _ => (cur, Some UnmarshalTypeError)
  end.

(** The loop of [array]: the element at index [i] is decoded into the
    element that the slice has there, into a zero value beyond. *)
Fixpoint decElements {A} (zero : A) (dec : A → json → A * option error)
    (cur : list A) (elements : list json) : list A * option error :=
  match elements with
  | [] => ([], None)
  | x :: elements' =>
      let '(y, e) := dec (hd zero cur) x in
      let '(l, e') := decElements zero dec (tl cur) elements' in
      (y :: l, firstError e e')
  end.

Definition decSlice {A} (zero : A) (dec : A → json → A * option error)
    (cur : option (list A)) (j : json) : option (list A) * option error :=
  match j with
  | JNull => (None, None)
  | JArray elements =>
      let '(l, e) := decElements zero dec (elems cur) elements in
      (Some l, e)
  | _ => (cur, Some UnmarshalTypeError)
  end.

(** The loop of [object] on a struct: a member sets the field it selects,
    a member that selects none is skipped. *)
Definition decStruct {A} (member : A → bytes → json → A * option error)
    (cur : A) (j : json) : A * option error :=
  match j with
  | JNull => (cur, None)
  | JObject members =>
      foldl (λ acc m, let '(x, e) := member acc.1 m.1 m.2 in
                      (x, firstError acc.2 e))
        (cur, None) members
  | _ => (cur, Some UnmarshalTypeError)
  end.

Definition decRequestMember (r : APIRequest.t) (key : bytes) (v : json)
    : APIRequest.t * option error :=
  let '(APIRequest.mk name method url headers body) := r in
  if selects key "name" then
    let '(s, e) := decString name v in
    (APIRequest.mk s method url headers body, e)
  else if selects key "method" then
    let '(s, e) := decString method v in
    (APIRequest.mk name s url headers body, e)
  else if selects key "url" then
    let '(s, e) := decString url v in
    (APIRequest.mk name method s headers body, e)
  else if selects key "headers" then
    let '(h, e) := decHeaders headers v in
    (APIRequest.mk name method url h body, e)
  else if selects key "body" then
    let '(s, e) := decString body v in
    (APIRequest.mk name method url headers s, e)
  else (r, None).

Definition decRequest : APIRequest.t → json → APIRequest.t * option error :=
  decStruct decRequestMember.

Definition decCollectionMember (c : Collection.t) (key : bytes) (v : json)
    : Collection.t * option error :=
  let '(Collection.mk name requests) := c in
  if selects key "name" then
    let '(s, e) := decString name v in (Collection.mk s requests, e)
  else if selects key "requests" then
    let '(l, e) := decSlice APIRequest.zero decRequest requests v in
    (Collection.mk name l, e)
  else (c, None).

Definition decCollection : Collection.t → json → Collection.t * option error :=
  decStruct decCollectionMember.

Definition decWorkspaceMember (w : Workspace.t) (key : bytes) (v : json)
    : Workspace.t * option error :=
  let '(Workspace.mk name collections) := w in
  if selects key "name" then
    let '(s, e) := decString name v in (Workspace.mk s collections, e)
  else if selects key "collections" then
    let '(l, e) := decSlice Collection.zero decCollection collections v in
    (Workspace.mk name l, e)
  else (w, None).

Definition decWorkspace : Workspace.t → json → Workspace.t * option error :=
  decStruct decWorkspaceMember.

(** [json.Unmarshal(data, &workspaces)] on the nil slice [workspaces]:
    the slice afterwards and the error. *)
Definition Unmarshal (data : bytes)
    : option (list Workspace.t) * option error :=
  match parse data with
  | None => (None, Some SyntaxError)
  | Some j => decSlice Workspace.zero decWorkspace None j
  end.

(** All the strings of a store document are valid UTF-8. *)
Definition validHeaders (h : option (gmap bytes bytes)) : Prop :=
  match h with
  | None => True
  | Some m =>
      map_Forall (λ k v, ValidString k = true ∧ ValidString v = true) m
  end.

Definition validRequest (r : APIRequest.t) : Prop :=
  ValidString (APIRequest.Name r) = true
  ∧ ValidString (APIRequest.Method r) = true
  ∧ ValidString (APIRequest.URL r) = true
  ∧ validHeaders (APIRequest.Headers r)
  ∧ ValidString (APIRequest.Body r) = true.

Definition validCollection (c : Collection.t) : Prop :=
  ValidString (Collection.Name c) = true
  ∧ Forall validRequest (elems (Collection.Requests c)).

Definition validWorkspace (w : Workspace.t) : Prop :=
  ValidString (Workspace.Name w) = true
  ∧ Forall validCollection (elems (Workspace.Collections w)).

Definition validStore (workspaces : option (list Workspace.t)) : Prop :=
  Forall validWorkspace (elems workspaces).

End Codec.

(** ** The documents that fit the store

    The shape of a JSON value that is a list of workspaces: [null] or an
    array of workspaces; a workspace, a collection and a request are [null]
    or an object whose members, where they name a field, hold a value of the
    kind of the field ([null] fits every field); a member that names no
    field holds any value. *)

Module StoreShape.
Import JSON Codec.

Definition stringShape (j : json) : bool :=
  match j with JString _ | JNull => true | _ => false end.

Definition sliceShape (element : json → bool) (j : json) : bool :=
  match j with
  | JNull => true
  | JArray elements => forallb element elements
  | _ => false
  end.

Definition objectShape (member : bytes → json → bool) (j : json) : bool :=
  match j with
  | JNull => true
  | JObject members => forallb (λ m, member m.1 m.2) members
  | _ => false
  end.

Definition headersShape : json → bool := objectShape (λ _, stringShape).

Definition requestMember (key : bytes) (v : json) : bool :=
  if selects key "name" then stringShape v
  else if selects key "method" then stringShape v
  else if selects key "url" then stringShape v
  else if selects key "headers" then headersShape v
  else if selects key "body" then stringShape v
  else true.

Definition requestShape : json → bool := objectShape requestMember.

Definition collectionMember (key : bytes) (v : json) : bool :=
  if selects key "name" then stringShape v
  else if selects key "requests" then sliceShape requestShape v
  else true.

Definition collectionShape : json → bool := objectShape collectionMember.

Definition workspaceMember (key : bytes) (v : json) : bool :=
  if selects key "name" then stringShape v
  else if selects key "collections" then sliceShape collectionShape v
  else true.

Definition workspaceShape : json → bool := objectShape workspaceMember.

Definition fitsStore : json → bool := sliceShape workspaceShape.

(** The error that a value of a shape or of another leaves. *)
Definition mismatch (fits : bool) : option error :=
  if fits then None else Some UnmarshalTypeError.

End StoreShape.

(** ** Workspace store ([loadWorkspaces], [saveWorkspaces] and the callbacks
    of [main] that change [workspaces]) *)

Module Store.
Import Codec.

(** The file at [getStoragePath()]: its content when it exists, and
    whether the operating system refuses to read it or to open it for
    writing. *)
Record Disk := mkDisk {
  file : option bytes;
  readFails : bool;
  writeFails : bool
}.

(** [loadWorkspaces()]. *)
Definition loadWorkspaces (d : Disk)
    : option (list Workspace.t) * option error :=
  match file d with
  | None => (Some [], None)
  | Some data =>
      if readFails d then (None, Some IOError) else Unmarshal data
  end.

(** [saveWorkspaces(workspaces)]. *)
Definition saveWorkspaces (workspaces : option (list Workspace.t))
    (d : Disk) : Disk * option error :=
  let data := MarshalIndent workspaces in
  if writeFails d then (d, Some IOError)
  else (mkDisk (Some data) (readFails d) (writeFails d), None).

(** The variables of [main] and the widget fields that the store
    callbacks read and write. *)
Record App := mkApp {
  workspaces : option (list Workspace.t);
  workspaceSelect_Selected : bytes;
  selectedCollectionIdx : Z;
  disk : Disk;
  methodSelect_Selected : bytes;
  urlEntry_Text : bytes;
  headersEntry_Text : bytes;
  bodyEntry_Text : bytes
}.

Definition set_workspaces (w : option (list Workspace.t)) (a : App) : App :=
  mkApp w (workspaceSelect_Selected a) (selectedCollectionIdx a) (disk a)
    (methodSelect_Selected a) (urlEntry_Text a) (headersEntry_Text a)
    (bodyEntry_Text a).
Definition set_selected (s : bytes) (a : App) : App :=
  mkApp (workspaces a) s (selectedCollectionIdx a) (disk a)
    (methodSelect_Selected a) (urlEntry_Text a) (headersEntry_Text a)
    (bodyEntry_Text a).
Definition set_collectionIdx (i : Z) (a : App) : App :=
  mkApp (workspaces a) (workspaceSelect_Selected a) i (disk a)
    (methodSelect_Selected a) (urlEntry_Text a) (headersEntry_Text a)
    (bodyEntry_Text a).
Definition set_disk (d : Disk) (a : App) : App :=
  mkApp (workspaces a) (workspaceSelect_Selected a)
    (selectedCollectionIdx a) d (methodSelect_Selected a)
    (urlEntry_Text a) (headersEntry_Text a) (bodyEntry_Text a).

Definition newWorkspaceOption : bytes := str "+ New Workspace".
Definition newCollectionOption : bytes := str "+ New Collection".

(** [err := saveWorkspaces(workspaces)] in a callback: the disk afterwards
    and whether [err == nil]. *)
Definition save (a : App) : App * bool :=
  let '(d, err) := saveWorkspaces (workspaces a) (disk a) in
  (set_disk d a, bool_decide (err = None)).

(** The loop with [break] of [saveReqBtn], [editRequestName],
    [deleteRequest]: the index of the first workspace with the name, -1
    when there is none. *)
Fixpoint findWorkspace (name : bytes) (l : list Workspace.t) (i : Z) : Z :=
  match l with
  | [] => -1
  | ws :: l' =>
      if decide (Workspace.Name ws = name) then i
      else findWorkspace name l' (i + 1)
  end.

Definition withCollections (f : list Collection.t → list Collection.t)
    (ws : Workspace.t) : Workspace.t :=
  Workspace.mk (Workspace.Name ws) (Some (f (elems (Workspace.Collections ws)))).

Definition withRequests (f : list APIRequest.t → list APIRequest.t)
    (c : Collection.t) : Collection.t :=
  Collection.mk (Collection.Name c) (Some (f (elems (Collection.Requests c)))).

(** The inner loop of [collectionSelect.OnChanged]: the index of the
    first collection with the name, -1 without one. *)
Fixpoint findCollection (name : bytes) (l : list Collection.t) (i : Z)
    : Z :=
  match l with
  | [] => -1
  | col :: l' =>
      if decide (Collection.Name col = name) then i
      else findCollection name l' (i + 1)
  end.

(** [collectionSelect.OnChanged(selected)]; the first option opens the
    form of [createNewCollection] and changes nothing by itself. *)
Definition collectionChanged (selected : bytes) (a : App) : App :=
  if decide (selected = newCollectionOption) then a
  else
    let wsIdx :=
      findWorkspace (workspaceSelect_Selected a) (elems (workspaces a)) 0 in
    match elems (workspaces a) !! Z.to_nat wsIdx with
    | Some ws =>
        if decide (wsIdx = -1) then set_collectionIdx (-1) a
        else set_collectionIdx
               (findCollection selected
                  (elems (Workspace.Collections ws)) 0) a
    | None => set_collectionIdx (-1) a
    end.

(** The options that [workspaceSelect.OnChanged] gives the collection
    dropdown: the names of the collections of the first workspace with
    the name. *)
Definition collectionOptions (selected : bytes) (l : list Workspace.t)
    : list bytes :=
  newCollectionOption
  :: match l !! Z.to_nat (findWorkspace selected l 0) with
     | Some ws =>
         if decide (findWorkspace selected l 0 = -1) then []
         else Collection.Name <$> elems (Workspace.Collections ws)
     | None => []
     end.

(** [workspaceSelect.OnChanged(selected)], after the widget has stored
    [selected]: the first option opens the form of [createNewWorkspace];
    any other name forgets the selected collection, and the closing
    [collectionSelect.SetSelected("")] selects a collection without a
    name when the dropdown has one. *)
Definition workspaceChanged (selected : bytes) (a : App) : App :=
  let a := set_selected selected a in
  if decide (selected = newWorkspaceOption) then a
  else
    let a := set_collectionIdx (-1) a in
    if decide ([] ∈ collectionOptions selected (elems (workspaces a)))
    then collectionChanged [] a
    else a.

(** [createNewWorkspace]: the callback of its form, with the answer
    ([ok]) and the text of the entry.  After a save without error
    [workspaceSelect.SetSelected] stores the name and runs
    [workspaceSelect.OnChanged]; the statements after it, on a dropdown
    with the one option "+ New Collection", change nothing. *)
Definition createNewWorkspace (ok : bool) (text : bytes) (a : App) : App :=
  if decide (ok = false ∨ text = []) then a
  else
    let a := set_workspaces
               (append (workspaces a) (Workspace.mk text (Some []))) a in
    let '(a, saved) := save a in
    if saved then workspaceChanged text a else a.

(** One turn of the loop of [createNewCollection] and of
    [importPostmanJSON] in which the name matches: the collection is
    appended to [workspaces[i]] and the store is saved. [guarded] says
    whether the selection is updated only after a save without error. *)
Definition appendCollectionAt (i : nat) (col : Collection.t)
    (guarded : bool) (a : App) : App :=
  let a := set_workspaces
             (Some (alter (withCollections (λ l, l ++ [col])) i
                      (elems (workspaces a)))) a in
  let '(a, saved) := save a in
  if saved || negb guarded then
    match elems (workspaces a) !! i with
    | Some ws =>
        set_collectionIdx (len (elems (Workspace.Collections ws)) - 1) a
    | None => a
    end
  else a.

(** The [for i, ws := range workspaces] of [createNewCollection] and of
    [importPostmanJSON]: it has no [break]. *)
Definition forEachNamed (col : Collection.t) (guarded : bool) (a : App)
    : App :=
  foldl (λ a i,
           match elems (workspaces a) !! i with
           | Some ws =>
               if decide (Workspace.Name ws = workspaceSelect_Selected a)
               then appendCollectionAt i col guarded a else a
           | None => a
           end)
    a (seq 0 (length (elems (workspaces a)))).

(** [createNewCollection]: the callback of its form. *)
Definition createNewCollection (ok : bool) (text : bytes) (a : App) : App :=
  if decide (workspaceSelect_Selected a = []
             ∨ workspaceSelect_Selected a = newWorkspaceOption) then a
  else if decide (ok = false ∨ text = []) then a
  else forEachNamed (Collection.mk text None) true a.

(** The payload of a Postman collection as [json.Unmarshal] hands it to
    [importPostmanJSON]: the [url] member is a string, an object (with or
    without a string under [raw]) or something else. *)
Inductive PostmanURL :=
| URLString (s : bytes)
| URLObject (raw : option bytes)
| URLOther.

Record PostmanItem := mkItem {
  item_Name : bytes;
  item_Method : bytes;
  item_URL : PostmanURL;
  item_Header : list (bytes * bytes);
  item_Raw : bytes
}.

Record Postman := mkPostman {
  info_Name : bytes;
  items : list PostmanItem
}.

Definition importRequest (item : PostmanItem) : APIRequest.t :=
  let headers :=
    foldl (λ (m : gmap bytes bytes) h, <[h.1 := h.2]> m) ∅
      (item_Header item) in
  let urlStr := match item_URL item with
                | URLString v => v
                | URLObject (Some raw) => raw
                | _ => []
                end in
  APIRequest.mk (item_Name item) (item_Method item) urlStr (Some headers)
    (item_Raw item).

Definition importCollection (p : Postman) : Collection.t :=
  Collection.mk (info_Name p)
    (foldl (λ reqs item, append reqs (importRequest item)) None (items p)).

(** [importPostmanJSON]: the callback of the file dialog; [payload] is
    what was decoded, nothing when the dialog was cancelled or the file is
    not JSON of that shape. *)
Definition importPostmanJSON (payload : option Postman) (a : App) : App :=
  match payload with
  | None => a
  | Some p =>
      if decide (workspaceSelect_Selected a = []) then a
      else forEachNamed (importCollection p) false a
  end.

(** The guards shared by [editRequestName] and [deleteRequest]: the
    selected workspace and collection, when there are such. *)
Definition selectedCollection (a : App) : option (nat * nat) :=
  if decide (workspaceSelect_Selected a = []
             ∨ workspaceSelect_Selected a = newWorkspaceOption
             ∨ selectedCollectionIdx a < 0) then None
  else
    let wsIdx :=
      findWorkspace (workspaceSelect_Selected a) (elems (workspaces a)) 0 in
    match elems (workspaces a) !! Z.to_nat wsIdx with
    | Some ws =>
        if decide (wsIdx = -1
                   ∨ len (elems (Workspace.Collections ws))
                     ≤ selectedCollectionIdx a)
        then None
        else Some (Z.to_nat wsIdx, Z.to_nat (selectedCollectionIdx a))
    | None => None
    end.

Definition requestsAt (wsIdx colIdx : nat) (a : App) : list APIRequest.t :=
  match elems (workspaces a) !! wsIdx with
  | Some ws =>
      match elems (Workspace.Collections ws) !! colIdx with
      | Some c => elems (Collection.Requests c)
      | None => []
      end
  | None => []
  end.

Definition updateRequests (wsIdx colIdx : nat)
    (f : list APIRequest.t → list APIRequest.t) (a : App) : App :=
  set_workspaces
    (Some (alter (withCollections (alter (withRequests f) colIdx)) wsIdx
             (elems (workspaces a)))) a.

Definition rename (name : bytes) (r : APIRequest.t) : APIRequest.t :=
  APIRequest.mk name (APIRequest.Method r) (APIRequest.URL r)
    (APIRequest.Headers r) (APIRequest.Body r).

(** [l[i]], a panic when the index is out of range. *)
Definition index {A} (l : list A) (i : Z) : option A :=
  if decide (0 ≤ i) then l !! Z.to_nat i else None.

(** [editRequestName(reqIdx)] with the answer to its form.  [None] is a
    panic. *)
Definition editRequestName (reqIdx : Z) (ok : bool) (text : bytes)
    (a : App) : option App :=
  match selectedCollection a with
  | None => Some a
  | Some (wsIdx, colIdx) =>
      let requests := requestsAt wsIdx colIdx a in
      if decide (len requests ≤ reqIdx) then Some a
      else
        _ ← index requests reqIdx;
        if decide (ok = false ∨ text = []) then Some a
        else
          let a := updateRequests wsIdx colIdx
                     (alter (rename text) (Z.to_nat reqIdx)) a in
          Some (save a).1
  end.

(** [deleteRequest(reqIdx)] with the answer to its confirmation. *)
Definition deleteRequest (reqIdx : Z) (confirmed : bool) (a : App)
    : option App :=
  match selectedCollection a with
  | None => Some a
  | Some (wsIdx, colIdx) =>
      let requests := requestsAt wsIdx colIdx a in
      if decide (len requests ≤ reqIdx) then Some a
      else
        _ ← index requests reqIdx;
        if confirmed then
          before ← slice requests 0 reqIdx;
          after ← slice requests (reqIdx + 1) (len requests);
          let a := updateRequests wsIdx colIdx (λ _, before ++ after) a in
          Some (save a).1
        else Some a
  end.

(** The request that [saveReqBtn] builds from the form. *)
Definition composedRequest (a : App) : APIRequest.t :=
  APIRequest.mk (urlEntry_Text a) (methodSelect_Selected a)
    (urlEntry_Text a)
    (Some (HeaderCodec.flattenHeaders
             (HeaderCodec.parseHeaders (headersEntry_Text a))))
    (bodyEntry_Text a).

(** [saveReqBtn]'s callback. *)
Definition saveRequest (a : App) : App :=
  if decide (workspaceSelect_Selected a = []
             ∨ workspaceSelect_Selected a = newWorkspaceOption) then a
  else if decide (selectedCollectionIdx a < 0) then a
  else
    let wsIdx :=
      findWorkspace (workspaceSelect_Selected a) (elems (workspaces a)) 0 in
    if decide (wsIdx = -1) then a
    else
      match elems (workspaces a) !! Z.to_nat wsIdx with
      | Some ws =>
          if decide (len (elems (Workspace.Collections ws))
                     ≤ selectedCollectionIdx a) then a
          else
            let a := updateRequests (Z.to_nat wsIdx)
                       (Z.to_nat (selectedCollectionIdx a))
                       (λ l, l ++ [composedRequest a]) a in
            (save a).1
      | None => a
      end.

(** The requests of the selected collection, none without a selection. *)
Definition selectedRequests (a : App) : list APIRequest.t :=
  match selectedCollection a with
  | Some (wsIdx, colIdx) => requestsAt wsIdx colIdx a
  | None => []
  end.

(** The state at start-up when no file is stored, and a state with two
    workspaces of the same name W, made from it with the form of
    [createNewWorkspace]. *)
Definition startup : App :=
  mkApp (loadWorkspaces (mkDisk None false false)).1 [] (-1)
    (mkDisk None false false) (str "GET") [] [] [].

Definition twoNamesakes : App :=
  createNewWorkspace true (str "W")
    (createNewWorkspace true (str "W") startup).

(** A state with one workspace W, its collection c selected, and one
    request stored from the form. *)
Definition withOneRequest : App :=
  let a := createNewCollection true (str "c")
             (createNewWorkspace true (str "W") startup) in
  saveRequest
    (mkApp (workspaces a) (workspaceSelect_Selected a)
       (selectedCollectionIdx a) (disk a) (str "POST") (str "http://h")
       (str "a: b") (str "{}")).

(** The same form in the state with two workspaces W, the collection c
    made by [createNewCollection] selected. *)
Definition namesakesWithForm : App :=
  let a := createNewCollection true (str "c") twoNamesakes in
  mkApp (workspaces a) (workspaceSelect_Selected a)
    (selectedCollectionIdx a) (disk a) (str "POST") (str "http://h")
    (str "a: b") (str "{}").

Definition collectionNames (a : App) : list (bytes * list bytes) :=
  (λ ws, (Workspace.Name ws,
          Collection.Name <$> elems (Workspace.Collections ws)))
    <$> elems (workspaces a).

Definition requestNames (a : App) : list (list (list bytes)) :=
  (λ ws, (λ c, APIRequest.Name <$> elems (Collection.Requests c))
           <$> elems (Workspace.Collections ws))
    <$> elems (workspaces a).

(** A store to save: a request with the characters that the writer
    escapes (a quote, a backslash, a line feed, [<] and [&]), with two
    bytes of UTF-8 and with a header map; a collection without requests,
    a workspace with an empty list and one with none. *)
Definition noFile : Disk := mkDisk None false false.

Definition sampleRequest : APIRequest.t :=
  APIRequest.mk (str "http://h/?a=1&b=<2>") (str "POST")
    (str "http://h/?a=1&b=<2>")
    (Some {[ str "Accept" := str "*/*" ]})
    (str "{" ++ ["034"%char; "092"%char; "010"%char; UTF8.byte 195;
                 UTF8.byte 169] ++ str "}").

Definition sampleStore : option (list Workspace.t) :=
  Some [ Workspace.mk (str "W")
           (Some [ Collection.mk (str "c") (Some [sampleRequest]);
                   Collection.mk (str "d") None ]);
         Workspace.mk (str "V") (Some []);
         Workspace.mk [] None ].

(** A workspace whose name is the byte FF, not UTF-8. *)
Definition notUTF8 : option (list Workspace.t) :=
  Some [ Workspace.mk [UTF8.byte 255] None ].

End Store.

(** ** Request executor (the head of [sendBtn.OnTapped]) *)

Module Executor.

(** The arguments of the call of [http.NewRequest]: the body is [None]
    when the call passes [nil]. *)
Record NewRequest := mkNewRequest {
  method : bytes;
  url : bytes;
  body : option bytes
}.

Definition bodyless (method : bytes) : bool :=
  bool_decide (method = str "GET" ∨ method = str "DELETE"
               ∨ method = str "HEAD" ∨ method = str "OPTIONS").

(** The request that [sendBtn.OnTapped] builds and [reqSize]. *)
Definition buildRequest (method url body : bytes) : NewRequest * Z :=
  if bodyless method then (mkNewRequest method url None, 0)
  else
    let bodyBytes := body in
    (mkNewRequest method url (Some bodyBytes), len bodyBytes).

End Executor.

(** ** The search engine: the clipboard button, and what a run keeps *)

Module SearchMore.
Import GoStrings Search.


(** The markers of the match number [i] when the current match is number
    [currentIdx]. *)
Definition openMark (i currentIdx : Z) : bytes :=
  if i =? currentIdx then openCurrent else openOther.
Definition closeMark (i currentIdx : Z) : bytes :=
  if i =? currentIdx then closeCurrent else closeOther.

(** The text from offset [pos] on, with the [qlen] bytes at each of the
    offsets between their markers; the offsets are numbered from [i]. *)
Fixpoint wrapped (text : bytes) (qlen currentIdx : Z) (offsets : list Z)
    (i pos : Z) : bytes :=
  match offsets with
  | [] => drop (Z.to_nat pos) text
  | p :: offsets' =>
      take (Z.to_nat (p - pos)) (drop (Z.to_nat pos) text)
      ++ openMark i currentIdx
      ++ take (Z.to_nat qlen) (drop (Z.to_nat p) text)
      ++ closeMark i currentIdx
      ++ wrapped text qlen currentIdx offsets' (i + 1) (p + qlen)
  end.

(** Text of ASCII, on which [strings.ToLower] works byte by byte. *)
Definition plain (s : bytes) : Prop := forallb UTF8.isASCII s = true.

(** A user action on ASCII text that is not a JSONata expression that
    evaluates. *)
Definition plainAction (a : action) : Prop :=
  match a with
  | Search entry => plain entry
  | Response shown => plain shown
  | JSONata evaluated => evaluated = false
  | _ => True
  end.

(** What the search variables are to the response [body] of ASCII that
    the box was given last: with a query, of ASCII too, the capture is the
    response, without one nothing is stored; the offsets are those of the
    scan of the response, and the current match is one of them. *)
Record coherent (body : bytes) (st : State) : Prop := {
  coherent_response : SearchSpec.captured body st;
  coherent_idle : currentSearchQuery st = [] → searchResults st = [];
  coherent_scan :
    currentSearchQuery st ≠ [] →
    SearchSpec.nonOverlappingScan body (currentSearchQuery st) 0
      (searchResults st);
  coherent_capture :
    currentSearchQuery st ≠ [] → originalText st = body;
  coherent_index :
    (searchResults st = [] ∧ currentMatchIndex st = -1)
    ∨ 0 ≤ currentMatchIndex st < len (searchResults st);
  coherent_body : plain body;
  coherent_query : plain (currentSearchQuery st)
}.

(** The box shows the response with every stored match between its
    markers (the response itself when nothing is stored). *)
Definition shows (body : bytes) (st : State) : Prop :=
  jsonResponse_Text st
  = wrapped body (len (currentSearchQuery st)) (currentMatchIndex st)
      (searchResults st) 0 0.

End SearchMore.

(** ** More of the store: the request list, the selection callbacks, the
    loading of a stored request into the form *)

Module StoreMore.
Import Store.

(** The options of [methodSelect]. *)
Definition methods : list bytes :=
  [str "GET"; str "POST"; str "PUT"; str "DELETE"; str "PATCH";
   str "HEAD"; str "OPTIONS"].

(** The rows of [requestList], its first callback: the loop over the
    workspaces has no [break] and passes a workspace with the selected
    name and too few collections by. *)
Fixpoint rowsIn (name : bytes) (idx : Z) (l : list Workspace.t)
    : option Z :=
  match l with
  | [] => Some 0
  | ws :: l' =>
      if decide (Workspace.Name ws = name) then
        if decide (idx < len (elems (Workspace.Collections ws))) then
          c ← index (elems (Workspace.Collections ws)) idx;
          Some (len (elems (Collection.Requests c)))
        else rowsIn name idx l'
      else rowsIn name idx l'
  end.

Definition requestListLength (a : App) : option Z :=
  if decide (workspaceSelect_Selected a = []
             ∨ workspaceSelect_Selected a = newWorkspaceOption
             ∨ selectedCollectionIdx a < 0) then Some 0
  else rowsIn (workspaceSelect_Selected a) (selectedCollectionIdx a)
         (elems (workspaces a)).

(** The statements that put a stored request in the form, in
    [requestList.OnSelected] and in the callback of [loadReqBtn]'s
    picker.  [methodSelect.SetSelected] selects an option of the widget
    and nothing else; [order] lists a header map as [range] goes over
    it. *)
Definition loadInto (order : gmap bytes bytes → list (bytes * bytes))
    (r : APIRequest.t) (a : App) : App :=
  mkApp (workspaces a) (workspaceSelect_Selected a)
    (selectedCollectionIdx a) (disk a)
    (if decide (APIRequest.Method r ∈ methods) then APIRequest.Method r
     else methodSelect_Selected a)
    (APIRequest.URL r)
    (HeaderCodec.headersText
       (match APIRequest.Headers r with
        | Some m => order m
        | None => []
        end))
    (APIRequest.Body r).

(** [requestList.OnSelected(id)]: every workspace with the selected name
    is gone through. *)
Definition selectIn (order : gmap bytes bytes → list (bytes * bytes))
    (id : Z) (a : App) (ws : Workspace.t) : option App :=
  if decide (Workspace.Name ws = workspaceSelect_Selected a) then
    if decide (selectedCollectionIdx a
               < len (elems (Workspace.Collections ws))) then
      c ← index (elems (Workspace.Collections ws))
             (selectedCollectionIdx a);
      let requests := elems (Collection.Requests c) in
      if decide (id < len requests) then
        r ← index requests id; Some (loadInto order r a)
      else Some a
    else Some a
  else Some a.

Definition requestSelected
    (order : gmap bytes bytes → list (bytes * bytes)) (id : Z) (a : App)
    : option App :=
  foldl (λ acc ws, a' ← acc; selectIn order id a' ws) (Some a)
    (elems (workspaces a)).

(** The callback of the picker of [loadReqBtn]: every request of the
    collection with the chosen name is put in the form, one after the
    other. *)
Definition pickRequest (order : gmap bytes bytes → list (bytes * bytes))
    (sel : bytes) (requests : list APIRequest.t) (a : App) : App :=
  foldl (λ acc r, if decide (APIRequest.Name r = sel)
                  then loadInto order r acc else acc)
    a requests.

(** [loadReqBtn]'s callback with the choice made in its picker; without
    a selection, or with a collection without requests, no picker is
    shown. *)
Definition loadRequest (order : gmap bytes bytes → list (bytes * bytes))
    (sel : bytes) (a : App) : App :=
  if decide (workspaceSelect_Selected a = []
             ∨ selectedCollectionIdx a < 0) then a
  else
    let wsIdx :=
      findWorkspace (workspaceSelect_Selected a) (elems (workspaces a)) 0 in
    let colIdx := selectedCollectionIdx a in
    match elems (workspaces a) !! Z.to_nat wsIdx with
    | Some ws =>
        if decide (wsIdx = -1 ∨ colIdx < 0
                   ∨ len (elems (Workspace.Collections ws)) ≤ colIdx)
        then a
        else
          match elems (Workspace.Collections ws) !! Z.to_nat colIdx with
          | Some coll =>
              if decide (len (elems (Collection.Requests coll)) = 0)
              then a
              else pickRequest order sel
                     (elems (Collection.Requests coll)) a
          | None => a
          end
    | None => a
    end.

(** The callbacks that change the store, with what the user answers in
    their forms. *)
Inductive operation :=
| NewWorkspace (ok : bool) (text : bytes)
| NewCollection (ok : bool) (text : bytes)
| SaveRequest
| EditRequestName (reqIdx : Z) (ok : bool) (text : bytes)
| DeleteRequest (reqIdx : Z) (confirmed : bool)
| ImportPostman (payload : option Postman)
| SelectWorkspace (selected : bytes)
| SelectCollection (selected : bytes)
| FillForm (method url headers body : bytes).

Definition fillForm (method url headers body : bytes) (a : App) : App :=
  mkApp (workspaces a) (workspaceSelect_Selected a)
    (selectedCollectionIdx a) (disk a) method url headers body.

Definition apply (op : operation) (a : App) : option App :=
  match op with
  | NewWorkspace ok text => Some (createNewWorkspace ok text a)
  | NewCollection ok text => Some (createNewCollection ok text a)
  | SaveRequest => Some (saveRequest a)
  | EditRequestName reqIdx ok text => editRequestName reqIdx ok text a
  | DeleteRequest reqIdx confirmed => deleteRequest reqIdx confirmed a
  | ImportPostman payload => Some (importPostmanJSON payload a)
  | SelectWorkspace selected => Some (workspaceChanged selected a)
  | SelectCollection selected => Some (collectionChanged selected a)
  | FillForm method url headers body =>
      Some (fillForm method url headers body a)
  end.

Fixpoint applyAll (ops : list operation) (a : App) : option App :=
  match ops with
  | [] => Some a
  | op :: ops' => a' ← apply op a; applyAll ops' a'
  end.

(** The file holds what is in memory: it is the text that
    [saveWorkspaces] writes for the workspaces in memory, or there is no
    file and no workspace yet. *)
Definition synced (a : App) : Prop :=
  file (disk a) = Some (Codec.MarshalIndent (workspaces a))
  ∨ (file (disk a) = None ∧ workspaces a = Some []).

(** The program at start-up: [loadWorkspaces], whose error is dropped,
    then the selection of the first workspace when there is one. *)
Definition started (d : Disk) : App :=
  let a := mkApp (loadWorkspaces d).1 [] (-1) d (str "GET") [] [] [] in
  match elems (workspaces a) with
  | ws :: _ => workspaceChanged (Workspace.Name ws) a
  | [] => a
  end.

(** The names that the forms of [createNewWorkspace] were given and
    took, in the order of the operations. *)
Definition acceptedNames (ops : list operation) : list bytes :=
  omap (λ op, match op with
              | NewWorkspace true text =>
                  if decide (text = []) then None else Some text
              | _ => None
              end) ops.

Definition workspaceNames (a : App) : list bytes :=
  Workspace.Name <$> elems (workspaces a).

End StoreMore.

(** ** Postman collection files ([exportCollectionJSON], and the reading of
    the file in [importPostmanJSON]) *)

Module PostmanFile.
Import UTF8 JSON Codec Store.

(** *** Export *)

(** The values that [exportCollectionJSON] builds: strings,
    [[]interface{}] and [map[string]interface{}], a map by its
    entries. *)
#[local] Unset Elimination Schemes.
Inductive value :=
| VString (s : bytes)
| VSlice (elements : list value)
| VMap (entries : list (bytes * value)).
#[local] Set Elimination Schemes.

Definition entryLe {A} (a b : bytes * A) : Prop := bytesLe a.1 b.1 = true.

#[export] Instance entryLe_dec {A} (a b : bytes * A) :
  Decision (entryLe a b).
Proof. unfold entryLe. apply _. Defined.

(** [encoding/json] on these values: the entries of a map are written in
    the byte order of their keys. *)
Fixpoint encValue (v : value) : json :=
  match v with
  | VString s => JString s
  | VSlice elements => JArray (encValue <$> elements)
  | VMap entries =>
      JObject (merge_sort entryLe (prod_map id encValue <$> entries))
  end.

Definition schema : bytes :=
  str "https://schema.getpostman.com/json/collection/v2.1.0/collection.json".

Definition exportHeader (h : bytes * bytes) : value :=
  VMap [(str "key", VString h.1); (str "value", VString h.2)].

(** The [item] of a request; [order] is the order in which Go ranges
    over the header map. *)
Definition exportItem (order : gmap bytes bytes → list (bytes * bytes))
    (r : APIRequest.t) : value :=
  VMap [(str "name", VString (APIRequest.Name r));
        (str "request",
         VMap [(str "method", VString (APIRequest.Method r));
               (str "header",
                VSlice (exportHeader
                          <$> order (default ∅ (APIRequest.Headers r))));
               (str "url", VString (APIRequest.URL r));
               (str "body",
                VMap [(str "mode", VString (str "raw"));
                      (str "raw", VString (APIRequest.Body r))])])].

Definition exportPostman (order : gmap bytes bytes → list (bytes * bytes))
    (coll : Collection.t) : value :=
  VMap [(str "info",
         VMap [(str "name", VString (Collection.Name coll));
               (str "schema", VString schema)]);
        (str "item",
         VSlice (exportItem order <$> elems (Collection.Requests coll)))].

(** The members of an item in the order in which they are written. *)
Definition itemJSON (order : gmap bytes bytes → list (bytes * bytes))
    (r : APIRequest.t) : json :=
  JObject
    [(str "name", JString (APIRequest.Name r));
     (str "request",
      JObject
        [(str "body",
          JObject [(str "mode", JString (str "raw"));
                   (str "raw", JString (APIRequest.Body r))]);
         (str "header",
          JArray ((λ h, JObject [(str "key", JString h.1);
                                 (str "value", JString h.2)])
                    <$> order (default ∅ (APIRequest.Headers r))));
         (str "method", JString (APIRequest.Method r));
         (str "url", JString (APIRequest.URL r))])].

(** The item that stands for a request in an exported file. *)
Definition itemOf (order : gmap bytes bytes → list (bytes * bytes))
    (r : APIRequest.t) : PostmanItem :=
  mkItem (APIRequest.Name r) (APIRequest.Method r)
    (URLString (APIRequest.URL r))
    (order (default ∅ (APIRequest.Headers r))) (APIRequest.Body r).

(** A request with a header map, an empty one when it had none. *)
Definition withHeaderMap (r : APIRequest.t) : APIRequest.t :=
  APIRequest.mk (APIRequest.Name r) (APIRequest.Method r) (APIRequest.URL r)
    (Some (default ∅ (APIRequest.Headers r))) (APIRequest.Body r).

(** [json.MarshalIndent(postman, "", "  ")]. *)
Definition exportData (order : gmap bytes bytes → list (bytes * bytes))
    (coll : Collection.t) : bytes :=
  renderIndent (encValue (exportPostman order coll)).

(** [exportCollectionJSON]: the data that the save dialog is given, none
    when a message is shown instead. *)
Definition exportCollectionJSON
    (order : gmap bytes bytes → list (bytes * bytes)) (a : App)
    : option bytes :=
  if decide (workspaceSelect_Selected a = [] ∨ selectedCollectionIdx a < 0)
  then None
  else
    let wsIdx :=
      findWorkspace (workspaceSelect_Selected a) (elems (workspaces a)) 0 in
    let colIdx := selectedCollectionIdx a in
    if decide (wsIdx = -1) then None
    else
      ws ← elems (workspaces a) !! Z.to_nat wsIdx;
      if decide (colIdx < 0 ∨ len (elems (Workspace.Collections ws)) ≤ colIdx)
      then None
      else
        coll ← elems (Workspace.Collections ws) !! Z.to_nat colIdx;
        Some (exportData order coll).

(** *** Import: [json.Unmarshal(data, &postman)] *)

Section Reading.
(** [strconv.ParseFloat(literal, 64)] has a range error: the number is
    too large for a [float64]. *)
Variable rangeError : bytes → bool.

(** The error that the decoding into an [interface{}] leaves: that of
    the first number out of range. *)
Fixpoint interfaceError (j : json) : option error :=
  match j with
  | JNumber literal =>
      if rangeError literal then Some UnmarshalTypeError else None
  | JArray elements =>
      foldr (λ x e, firstError (interfaceError x) e) None elements
  | JObject members =>
      foldr (λ m e, firstError (interfaceError m.2) e) None members
  | _ => None
  end.

(** The [url] member, an [interface{}]: a string, a map (in which the
    last member of a name counts) or something else. *)
Definition decURL (j : json) : PostmanURL * option error :=
  (match j with
   | JString s => URLString s
   | JObject members =>
       URLObject
         match last (filter (λ m, m.1 = str "raw") members) with
         | Some (_, JString s) => Some s
         | _ => None
         end
   | _ => URLOther
   end,
   interfaceError j).

Definition decHeaderMember (h : bytes * bytes) (key : bytes) (v : json)
    : bytes * bytes * option error :=
  if selects key "key" then
    let '(s, e) := decString h.1 v in ((s, h.2), e)
  else if selects key "value" then
    let '(s, e) := decString h.2 v in ((h.1, s), e)
  else (h, None).

Definition decBodyMember (raw : bytes) (key : bytes) (v : json)
    : bytes * option error :=
  if selects key "raw" then decString raw v else (raw, None).

Definition decRequestMember (it : PostmanItem) (key : bytes) (v : json)
    : PostmanItem * option error :=
  let '(mkItem name method url header raw) := it in
  if selects key "method" then
    let '(s, e) := decString method v in
    (mkItem name s url header raw, e)
  else if selects key "url" then
    let '(u, e) := decURL v in (mkItem name method u header raw, e)
  else if selects key "header" then
    let '(h, e) := decSlice ([], []) (decStruct decHeaderMember)
                     (Some header) v in
    (mkItem name method url (elems h) raw, e)
  else if selects key "body" then
    let '(s, e) := decStruct decBodyMember raw v in
    (mkItem name method url header s, e)
  else (it, None).

Definition decItemMember (it : PostmanItem) (key : bytes) (v : json)
    : PostmanItem * option error :=
  let '(mkItem name method url header raw) := it in
  if selects key "name" then
    let '(s, e) := decString name v in
    (mkItem s method url header raw, e)
  else if selects key "request" then decStruct decRequestMember it v
  else (it, None).

Definition zeroItem : PostmanItem := mkItem [] [] URLOther [] [].

(** The field [Name] of [Info] has no tag. *)
Definition decInfoMember (name : bytes) (key : bytes) (v : json)
    : bytes * option error :=
  if selects key "Name" then decString name v else (name, None).

Definition decPostmanMember (p : Postman) (key : bytes) (v : json)
    : Postman * option error :=
  let '(mkPostman name its) := p in
  if selects key "info" then
    let '(s, e) := decStruct decInfoMember name v in (mkPostman s its, e)
  else if selects key "item" then
    let '(l, e) := decSlice zeroItem (decStruct decItemMember)
                     (Some its) v in
    (mkPostman name (elems l), e)
  else (p, None).

(** What [importPostmanJSON] goes on with: the decoded file, nothing
    when [json.Unmarshal] has an error. *)
Definition readPostman (data : bytes) : option Postman :=
  match parse data with
  | None => None
  | Some j =>
      match decStruct decPostmanMember (mkPostman [] []) j with
      | (p, None) => Some p
      | (_, Some _) => None
      end
  end.

(** The callback of the file dialog on a file with the content
    [data]. *)
Definition importFile (data : bytes) (a : App) : App :=
  importPostmanJSON (readPostman data) a.

End Reading.

End PostmanFile.

(** ** What the reader of a JSON text finds in what the writer wrote

    The writer escapes every byte that does not begin a rune of UTF-8, so
    that its text is one that the reader takes, whatever the strings. *)

Module Reread.
Import UTF8 JSON.

(** A string as [unquoteBytes] reads it from what [appendString] wrote
    for it. *)
Definition rereadString (s : bytes) : bytes := unquoteFrom 0 (quoteFrom 0 s).

Definition rereadToken (t : token) : token :=
  match t with
  | TString s => TString (rereadString s)
  | _ => t
  end.

Fixpoint reread (j : json) : json :=
  match j with
  | JString s => JString (rereadString s)
  | JArray elements => JArray (reread <$> elements)
  | JObject members => JObject (prod_map rereadString reread <$> members)
  | _ => j
  end.

(** The values of the store and of an exported collection hold no
    number. *)
Fixpoint numberless (j : json) : Prop :=
  match j with
  | JNumber _ => False
  | JArray elements => foldr (λ x P, numberless x ∧ P) True elements
  | JObject members => foldr (λ m P, numberless m.2 ∧ P) True members
  | _ => True
  end.

Definition wordToken (t : token) : Prop :=
  match t with TNumber _ => False | _ => True end.

End Reread.
(** * Properties *)

Set Warnings "-clear-no-such-hyp".

Section SliceFacts.
Context {A : Type}.
Implicit Types s : list A.

Lemma len_nonneg s : 0 ≤ len s.
Proof. unfold len. lia. Qed.

Lemma len_app s t : len (s ++ t) = len s + len t.
Proof. unfold len. rewrite length_app. lia. Qed.

Lemma len_nil_iff s : len s = 0 ↔ s = [].
Proof.
  unfold len. destruct s as [|a s]; [done|].
  split; [rewrite length_cons; lia | done].
Qed.

Lemma slice_Some s lo hi :
  0 ≤ lo → lo ≤ hi → hi ≤ len s →
  slice s lo hi = Some (take (Z.to_nat (hi - lo)) (drop (Z.to_nat lo) s)).
Proof. intros. unfold slice. rewrite decide_True; [done | lia]. Qed.

Lemma slice_from s lo :
  0 ≤ lo → lo ≤ len s → slice s lo (len s) = Some (drop (Z.to_nat lo) s).
Proof.
  intros. rewrite slice_Some by lia. f_equal. apply take_ge.
  rewrite length_drop. unfold len. lia.
Qed.

Lemma slice_to s hi :
  0 ≤ hi → hi ≤ len s → slice s 0 hi = Some (take (Z.to_nat hi) s).
Proof.
  intros. rewrite slice_Some by lia. simpl. by rewrite Z.sub_0_r.
Qed.
End SliceFacts.

Section IndexFacts.
Import GoStrings.

Lemma HasPrefix_spec s p : HasPrefix s p = true ↔ take (length p) s = p.
Proof.
  revert s. induction p as [|c p IH]; intros [|d s]; simpl; try done.
  rewrite andb_true_iff, bool_decide_eq_true, IH.
  split; [intros [-> ->]; done | intros [= -> ->]; done].
Qed.

Lemma Index_unfold s sub :
  Index s sub =
    if HasPrefix s sub then 0
    else match s with
         | [] => -1
         | _ :: s' => if Index s' sub =? -1 then -1 else 1 + Index s' sub
         end.
Proof. by destruct s. Qed.

Lemma Index_range s sub :
  Index s sub = -1 ∨ 0 ≤ Index s sub ≤ len s.
Proof.
  induction s as [|c s IH]; rewrite Index_unfold.
  - destruct (HasPrefix [] sub); [right; unfold len; simpl; lia | by left].
  - destruct (HasPrefix (c :: s) sub);
      [right; unfold len; rewrite length_cons; lia|].
    destruct (Z.eqb_spec (Index s sub) (-1)); [by left|].
    destruct IH as [? | IH]; [done|].
    right. unfold len in *. rewrite length_cons. lia.
Qed.

(** A hit of [Index] is an occurrence, and the leftmost one. *)
Lemma Index_hit s sub i :
  Index s sub = i → i ≠ -1 →
  HasPrefix (drop (Z.to_nat i) s) sub = true
  ∧ ∀ j, 0 ≤ j < i → HasPrefix (drop (Z.to_nat j) s) sub = false.
Proof.
  revert i. induction s as [|c s IH]; intros i; rewrite Index_unfold.
  - destruct (HasPrefix [] sub) eqn:E; intros <- Hi; [|done].
    split; [done | intros; lia].
  - destruct (HasPrefix (c :: s) sub) eqn:E.
    + intros <- _. split; [done | intros; lia].
    + destruct (Z.eqb_spec (Index s sub) (-1)) as [|Hne]; [by intros <-|].
      intros <- _. destruct (IH _ eq_refl Hne) as [Hhit Hmin].
      destruct (Index_range s sub) as [|Hr]; [done|].
      split.
      * replace (Z.to_nat (1 + Index s sub))
          with (S (Z.to_nat (Index s sub))) by lia. done.
      * intros j Hj. destruct (decide (j = 0)) as [->|]; [done|].
        replace (Z.to_nat j) with (S (Z.to_nat (j - 1))) by lia.
        simpl. apply Hmin. lia.
Qed.

(** When [Index] answers -1 there is no occurrence at all. *)
Lemma Index_miss s sub j :
  Index s sub = -1 → 0 ≤ j → HasPrefix (drop (Z.to_nat j) s) sub = false.
Proof.
  revert j. induction s as [|c s IH]; intros j; rewrite Index_unfold.
  - destruct (HasPrefix [] sub) eqn:E; [done|]. intros _ _.
    by rewrite drop_nil.
  - destruct (HasPrefix (c :: s) sub) eqn:E; [done|].
    destruct (Z.eqb_spec (Index s sub) (-1)) as [Hm|Hne].
    + intros _ Hj. destruct (decide (j = 0)) as [->|]; [done|].
      replace (Z.to_nat j) with (S (Z.to_nat (j - 1))) by lia.
      simpl. apply IH; [done | lia].
    + destruct (Index_range s sub); [done | lia].
Qed.
End IndexFacts.

Section LowerFacts.
Import GoStrings SearchSpec SearchMore.

(** On ASCII the case table is not consulted. *)
Lemma ToLower_plain s : plain s → ToLower s = map lowerByte s.
Proof. intros H. unfold ToLower. by rewrite H. Qed.

Lemma ToLower_plain_length s : plain s → length (ToLower s) = length s.
Proof. intros H. by rewrite ToLower_plain, length_map. Qed.

Lemma plain_Forall s : plain s ↔ Forall (λ c, UTF8.isASCII c = true) s.
Proof.
  unfold plain. induction s as [|c s IH]; cbn; [by split|].
  rewrite andb_true_iff, Forall_cons. tauto.
Qed.

Lemma plain_app s t : plain (s ++ t) ↔ plain s ∧ plain t.
Proof. by rewrite !plain_Forall, Forall_app. Qed.

Lemma plain_take n s : plain s → plain (take n s).
Proof. rewrite !plain_Forall. apply Forall_take. Qed.

Lemma plain_drop n s : plain s → plain (drop n s).
Proof. rewrite !plain_Forall. apply Forall_drop. Qed.

Lemma lowerByte_code c :
  N_of_ascii (lowerByte c)
  = (if isUpper c then N_of_ascii c + 32 else N_of_ascii c)%N.
Proof.
  unfold lowerByte. destruct (isUpper c) eqn:E; [|done].
  apply N_ascii_embedding. unfold isUpper in E.
  apply andb_true_iff in E as [_ E%N.leb_le]. lia.
Qed.

(** Two bytes have the same lower case when they are the same letter. *)
Lemma lowerByte_sameLetter a b :
  lowerByte a = lowerByte b ↔ sameLetter a b.
Proof.
  assert (∀ x y, N_of_ascii x = N_of_ascii y → x = y) as Hinj.
  { intros x y H. apply (f_equal ascii_of_N) in H.
    by rewrite !ascii_N_embedding in H. }
  unfold sameLetter. split.
  - intros H. apply (f_equal N_of_ascii) in H.
    rewrite !lowerByte_code in H.
    destruct (isUpper a) eqn:Ea, (isUpper b) eqn:Eb.
    + left. apply Hinj. lia.
    + right. left. split; [done | lia].
    + right. right. split; [done | lia].
    + left. by apply Hinj.
  - intros [->|[[Ha Hb]|[Hb Ha]]]; [done|..]; apply Hinj;
      rewrite !lowerByte_code.
    + rewrite Ha. destruct (isUpper b) eqn:Eb; [|lia].
      unfold isUpper in Ha, Eb. rewrite Hb in Eb.
      apply andb_true_iff in Ha as [Ha1%N.leb_le Ha2%N.leb_le].
      apply andb_true_iff in Eb as [Eb1%N.leb_le Eb2%N.leb_le]. lia.
    + rewrite Hb. destruct (isUpper a) eqn:Ea; [|lia].
      unfold isUpper in Hb, Ea. rewrite Ha in Ea.
      apply andb_true_iff in Hb as [Hb1%N.leb_le Hb2%N.leb_le].
      apply andb_true_iff in Ea as [Ea1%N.leb_le Ea2%N.leb_le]. lia.
Qed.

Lemma map_lowerByte_sameLetter s t :
  map lowerByte s = map lowerByte t ↔ Forall2 sameLetter s t.
Proof.
  revert t. induction s as [|a s IH]; intros [|b t]; cbn.
  - split; [constructor | done].
  - split; [done | intros H; inversion H].
  - split; [done | intros H; inversion H].
  - rewrite Forall2_cons, <- IH, <- lowerByte_sameLetter.
    split; [by intros [= -> ->] | by intros [-> ->]].
Qed.
End LowerFacts.

Section ScanFacts.
Import GoStrings Search SearchSpec SearchMore.

Lemma HasPrefix_matchesAt text query j :
  plain text → plain query → query ≠ [] → 0 ≤ j →
  HasPrefix (drop (Z.to_nat j) (ToLower text)) (ToLower query) = true
  ↔ matchesAt text query j.
Proof.
  intros Ht Hp Hq Hj. rewrite HasPrefix_spec.
  unfold matchesAt.
  rewrite (ToLower_plain (take _ _)) by by apply plain_take, plain_drop.
  rewrite ToLower_plain_length, !ToLower_plain by done.
  rewrite skipn_map, firstn_map.
  split; [intros He | by intros (_ & _ & ?)].
  split; [done|]. split; [|done].
  apply (f_equal length) in He.
  rewrite !length_map, length_take, length_drop in He.
  destruct query; [done|]. unfold len. rewrite length_cons in *. lia.
Qed.

(** On ASCII a match is a place where the text has the letters of the
    query, in upper or in lower case. *)
Lemma matchesAt_letters text query p :
  plain text → plain query →
  matchesAt text query p
  ↔ 0 ≤ p ∧ p + len query ≤ len text
    ∧ Forall2 sameLetter (take (length query) (drop (Z.to_nat p) text))
        query.
Proof.
  intros Ht Hq. unfold matchesAt.
  rewrite (ToLower_plain (take _ _)) by by apply plain_take, plain_drop.
  rewrite (ToLower_plain query) by done.
  by rewrite map_lowerByte_sameLetter.
Qed.

Lemma matchesAt_bound text query p :
  matchesAt text query p → p + len query ≤ len text.
Proof. by intros (? & ? & ?). Qed.

(** Fuel beyond what is left of the text changes nothing: the loop ends
    or panics before it is used up. *)
Lemma scanLoop_fuel lowerText lowerQuery qlen :
  0 < qlen →
  ∀ fuel fuel' startPos acc,
    0 ≤ startPos →
    len lowerText - startPos < Z.of_nat fuel →
    len lowerText - startPos < Z.of_nat fuel' →
    scanLoop fuel lowerText lowerQuery qlen startPos acc
    = scanLoop fuel' lowerText lowerQuery qlen startPos acc.
Proof.
  intros Hq. induction fuel as [|fuel IH];
    intros [|fuel'] startPos acc Hs Hf Hf'; cbn [scanLoop]; try done.
  - unfold slice. rewrite decide_False by lia. done.
  - unfold slice. rewrite decide_False by lia. done.
  - destruct (slice lowerText startPos (len lowerText)) as [rest|] eqn:Hr;
      [|done].
    cbn [mbind option_bind].
    destruct (Z.eqb_spec (Index rest lowerQuery) (-1)); [done|].
    destruct (Index_range rest lowerQuery) as [|Hi]; [done|].
    apply IH; lia.
Qed.

Lemma scanLoop_spec text query :
  plain text → plain query → query ≠ [] →
  ∀ fuel startPos acc,
    0 ≤ startPos ≤ len text →
    len text - startPos < Z.of_nat fuel →
    ∃ offsets,
      scanLoop fuel (ToLower text) (ToLower query) (len query) startPos acc
      = Some (acc ++ offsets)
      ∧ nonOverlappingScan text query startPos offsets.
Proof.
  intros Ht Hp Hq. assert (0 < len query) as Hlen.
  { destruct query; [done|]. unfold len. rewrite length_cons. lia. }
  induction fuel as [|fuel IH]; intros startPos acc Hs Hf; [lia|].
  cbn [scanLoop].
  assert (len (ToLower text) = len text) as Hlt
    by (unfold len; by rewrite ToLower_plain_length).
  rewrite slice_from by lia. cbn [mbind option_bind].
  set (rest := drop (Z.to_nat startPos) (ToLower text)).
  destruct (Z.eqb_spec (Index rest (ToLower query)) (-1)) as [Hm|Hh].
  - exists []. rewrite app_nil_r. split; [done|].
    constructor. intros p Hp' Hmatch.
    apply HasPrefix_matchesAt in Hmatch; [|done|done|done|lia].
    pose proof (Index_miss rest (ToLower query) (p - startPos) Hm) as Hno.
    unfold rest in Hno. rewrite drop_drop in Hno.
    replace (Z.to_nat startPos + Z.to_nat (p - startPos))%nat
      with (Z.to_nat p) in Hno by lia.
    rewrite Hno in Hmatch; [done | lia].
  - destruct (Index_hit rest (ToLower query) _ eq_refl Hh) as [Hhit Hmin].
    destruct (Index_range rest (ToLower query)) as [|Hr]; [done|].
    set (idx := Index rest (ToLower query)) in *.
    assert (matchesAt text query (startPos + idx)) as Hmatch.
    { apply HasPrefix_matchesAt; [done|done|done|lia|].
      unfold rest in Hhit. rewrite drop_drop in Hhit.
      by replace (Z.to_nat (startPos + idx))
        with (Z.to_nat startPos + Z.to_nat idx)%nat by lia. }
    pose proof (matchesAt_bound _ _ _ Hmatch) as Hb.
    destruct (IH (startPos + idx + len query) (acc ++ [startPos + idx]))
      as (offsets & Hrun & Hscan); [lia | lia |].
    exists ((startPos + idx) :: offsets). split.
    + rewrite Hrun. by rewrite <- app_assoc.
    + apply scan_hit; [lia | done | | done].
      intros p' Hp' Hm'.
      apply HasPrefix_matchesAt in Hm'; [|done|done|done|lia].
      pose proof (Hmin (p' - startPos)) as Hno.
      unfold rest in Hno. rewrite drop_drop in Hno.
      replace (Z.to_nat startPos + Z.to_nat (p' - startPos))%nat
        with (Z.to_nat p') in Hno by lia.
      rewrite Hno in Hm'; [done | lia].
Qed.

(** The scan is a function of the text and the query. *)
Lemma nonOverlappingScan_unique text query resume l1 l2 :
  nonOverlappingScan text query resume l1 →
  nonOverlappingScan text query resume l2 → l1 = l2.
Proof.
  intros H1. revert l2.
  induction H1 as [resume Hno | resume p l1 Hle Hm Hmin _ IH]; intros l2 H2.
  - destruct H2 as [|resume q l2 Hle2 Hm2 _ _]; [done|].
    by destruct (Hno q).
  - inversion H2 as [? Hno2 | ? q l2' Hle2 Hm2 Hmin2 Hrest]; subst.
    + by destruct (Hno2 p).
    + assert (p = q) as ->.
      { destruct (Z.lt_trichotomy p q) as [?|[?|?]]; [|done|].
        - destruct (Hmin2 p); [lia | done].
        - destruct (Hmin q); [lia | done]. }
      f_equal. by apply IH.
Qed.

(** Offsets found by the scan lie in the text, in increasing order, a
    query length apart at least. *)
Lemma markLoop_total text query currentIdx :
  ∀ offsets resume i result offset,
    nonOverlappingScan text query resume offsets →
    0 ≤ resume → 0 ≤ offset →
    len result = len text + offset →
    resume + offset ≤ len result →
    is_Some (markLoop query currentIdx offsets i result offset).
Proof.
  induction offsets as [|p offsets IH];
    intros resume i result offset Hscan Hr Ho Hlen Hres; [by eexists|].
  inversion Hscan as [|? ? ? Hle Hm Hmin Hrest]; subst.
  pose proof (matchesAt_bound _ _ _ Hm) as Hb.
  pose proof (len_nonneg query) as Hq.
  cbn [markLoop].
  destruct (Z.leb_spec (p + offset + len query) (len result)); [|lia].
  rewrite (slice_Some result (p + offset) (p + offset + len query)) by lia.
  rewrite (slice_to result (p + offset)) by lia.
  rewrite (slice_from result (p + offset + len query)) by lia.
  cbn [mbind option_bind].
  set (mid := take _ (drop _ result)).
  set (hl := if i =? currentIdx then _ else _).
  assert (len query ≤ len hl) as Hhl.
  { assert (len mid = len query) as Hmid.
    { unfold mid, len. rewrite length_take, length_drop.
      unfold len in *. lia. }
    unfold hl. destruct (i =? currentIdx); rewrite !len_app; rewrite Hmid;
      pose proof (len_nonneg openCurrent); pose proof (len_nonneg closeCurrent);
      pose proof (len_nonneg openOther); pose proof (len_nonneg closeOther);
      lia. }
  assert (len (take (Z.to_nat (p + offset)) result) = p + offset) as Hpre.
  { unfold len. rewrite length_take. unfold len in *. lia. }
  assert (len (drop (Z.to_nat (p + offset + len query)) result)
          = len result - (p + offset + len query)) as Hpost.
  { unfold len. rewrite length_drop. unfold len in *. lia. }
  eapply (IH (p + len query)); [done | lia | lia | |];
    rewrite !len_app, Hpre, Hpost; lia.
Qed.

(** On ASCII [highlightText] returns for every non-empty query, and what
    it stores in [searchResults] is the scan of its [text] argument. *)
Lemma highlightText_scan old text query currentIdx :
  plain text → plain query → query ≠ [] →
  ∃ offsets rendered,
    highlightText old text query currentIdx = Some (offsets, rendered)
    ∧ nonOverlappingScan text query 0 offsets.
Proof.
  intros Ht Hp Hq. unfold highlightText. rewrite decide_False by done.
  cbn zeta. rewrite (ToLower_plain_length text) by done.
  destruct (scanLoop_spec text query Ht Hp Hq (S (length text)) 0 [])
    as (offsets & -> & Hscan); [pose proof (len_nonneg text); lia
                               | unfold len; lia |].
  cbn [mbind option_bind app].
  destruct (decide (len offsets = 0)); [by eauto|].
  destruct (markLoop_total text query currentIdx offsets 0 0 text 0)
    as [r ->]; [done | lia | lia | lia | pose proof (len_nonneg text); lia|].
  cbn [mbind option_bind]. eauto.
Qed.
End ScanFacts.


Section SearchInvariant.
Import GoStrings Search SearchSpec.


Lemma resetSearch_captured body st :
  captured body st → captured body (resetSearch st).
Proof.
  intros [H1 H2]. unfold resetSearch.
  destruct (decide (originalText st ≠ [])) as [Ho|Ho]; split; cbn;
    try done; auto.
Qed.


End SearchInvariant.

Section TrimFacts.
Import GoStrings.

Section Scan.
Variable sp2 : ascii → ascii → bool.
Variable sp3 : ascii → ascii → ascii → bool.
Hypothesis sp2_high : ∀ a b, sp2 a b = true → highByte a ∧ highByte b.
Hypothesis sp3_high :
  ∀ a b c, sp3 a b c = true → highByte a ∧ highByte b ∧ highByte c.

Local Abbreviation leadSpace := (GoStrings.leadSpace sp2 sp3).

Lemma trimRunes_decompose s :
  ∃ w, s = w ++ trimRunes sp2 sp3 s ∧ Forall spaceish w
       ∧ leadSpace (trimRunes sp2 sp3 s) = false.
Proof.
  induction s as [s IH] using (induction_ltof1 _ length).
  unfold ltof in IH.
  destruct s as [|a s1]; [by exists []|]. cbn [trimRunes].
  destruct (asciiSpace a) eqn:Ha.
  { destruct (IH s1) as (w & Hw & Hf & Hl); [simpl; lia|].
    exists (a :: w). split; [by rewrite Hw at 1|]. split; [|done].
    constructor; [|done]. unfold spaceish. by rewrite Ha. }
  destruct s1 as [|b s2].
  { exists []. by rewrite !(left_id _ _), Forall_nil; cbn; rewrite Ha. }
  destruct (sp2 a b) eqn:H2.
  { destruct (IH s2) as (w & Hw & Hf & Hl); [simpl; lia|].
    destruct (sp2_high _ _ H2) as [Hha Hhb].
    exists (a :: b :: w). split; [by rewrite Hw at 1|]. split; [|done].
    unfold spaceish. repeat constructor; [| |done];
      apply orb_True; by right. }
  destruct s2 as [|c s3].
  { exists []. split; [done|]. split; [done|]. cbn. by rewrite Ha, H2. }
  destruct (sp3 a b c) eqn:H3.
  { destruct (IH s3) as (w & Hw & Hf & Hl); [simpl; lia|].
    destruct (sp3_high _ _ _ H3) as (Hha & Hhb & Hhc).
    exists (a :: b :: c :: w). split; [by rewrite Hw at 1|].
    split; [|done]. unfold spaceish.
    repeat constructor; [| | |done]; apply orb_True; by right. }
  exists []. split; [done|]. split; [done|]. cbn. by rewrite Ha, H2, H3.
Qed.

Lemma trimRunes_fixed s :
  leadSpace s = false → trimRunes sp2 sp3 s = s.
Proof.
  destruct s as [|a [|b [|c s3]]]; cbn; try done.
  - by intros ->%orb_false_iff%proj1.
  - rewrite !orb_false_r. by intros [-> ->]%orb_false_iff.
  - by intros [-> [-> ->]%orb_false_iff]%orb_false_iff.
Qed.

Lemma trimRunes_idemp s :
  trimRunes sp2 sp3 (trimRunes sp2 sp3 s) = trimRunes sp2 sp3 s.
Proof.
  destruct (trimRunes_decompose s) as (w & _ & _ & Hl).
  by apply trimRunes_fixed.
Qed.

Lemma leadSpace_prefix r w :
  leadSpace (r ++ w) = false → leadSpace r = false.
Proof.
  destruct r as [|a [|b [|c r3]]]; cbn; try done.
  - by intros [-> _]%orb_false_iff.
  - by intros [-> [-> _]%orb_false_iff]%orb_false_iff.
Qed.

Lemma leadSpace_plain a s :
  spaceish a = false → leadSpace (a :: s) = false.
Proof.
  unfold spaceish. intros [Ha Hh]%orb_false_iff. cbn. rewrite Ha. cbn.
  destruct s as [|b s2]; [done|].
  destruct (sp2 a b) eqn:H2.
  { apply sp2_high in H2 as [H2 _]. by rewrite Hh in H2. }
  destruct s2 as [|c s3]; [done|]. cbn.
  destruct (sp3 a b c) eqn:H3; [|done].
  apply sp3_high in H3 as [H3 _]. by rewrite Hh in H3.
Qed.
End Scan.

Lemma space2_high a b : space2 a b = true → highByte a ∧ highByte b.
Proof.
  unfold space2, highByte.
  intros [Ha Hb]%andb_true_iff. apply N.eqb_eq in Ha.
  apply orb_true_iff in Hb as [Hb|Hb]; apply N.eqb_eq in Hb;
    rewrite Ha, Hb; done.
Qed.

Lemma space3_high a b c :
  space3 a b c = true → highByte a ∧ highByte b ∧ highByte c.
Proof.
  unfold space3, highByte.
  repeat (rewrite ?orb_true_iff, ?andb_true_iff, ?N.eqb_eq, ?N.leb_le).
  intros H. repeat split; apply Is_true_true, N.leb_le; lia.
Qed.

Lemma space2_high_rev a b : space2 b a = true → highByte a ∧ highByte b.
Proof. intros H. by destruct (space2_high _ _ H). Qed.

Lemma space3_high_rev a b c :
  space3 c b a = true → highByte a ∧ highByte b ∧ highByte c.
Proof. intros H. by destruct (space3_high _ _ _ H) as (? & ? & ?). Qed.

(** What [TrimSpace] removes are white-space bytes at the two ends. *)
Lemma TrimSpace_decompose s :
  ∃ w1 w2, s = w1 ++ TrimSpace s ++ w2
           ∧ Forall spaceish w1 ∧ Forall spaceish w2.
Proof.
  unfold TrimSpace, TrimRight, TrimLeft, TrimLeftRev.
  destruct (trimRunes_decompose _ _ space2_high space3_high s)
    as (w1 & H1 & Hf1 & _).
  set (t := trimRunes space2 space3 s) in *.
  destruct (trimRunes_decompose _ _ space2_high_rev space3_high_rev (rev t))
    as (w2 & H2 & Hf2 & _).
  exists w1, (rev w2). split; [|split; [done|]].
  - rewrite H1 at 1. f_equal. rewrite <- rev_app_distr, <- H2.
    by rewrite rev_involutive.
  - apply Forall_forall. intros x Hx. apply list_elem_of_In in Hx.
    apply (proj2 (in_rev _ _)), list_elem_of_In in Hx.
    rewrite Forall_forall in Hf2. by apply Hf2.
Qed.

Lemma TrimSpace_idemp s : TrimSpace (TrimSpace s) = TrimSpace s.
Proof.
  unfold TrimSpace, TrimRight, TrimLeft, TrimLeftRev.
  destruct (trimRunes_decompose _ _ space2_high space3_high s)
    as (w1 & _ & _ & Hl).
  set (t := trimRunes space2 space3 s) in *.
  destruct (trimRunes_decompose _ _ space2_high_rev space3_high_rev (rev t))
    as (w2 & H2 & _ & Hr).
  set (r := trimRunes _ _ (rev t)) in *.
  assert (t = rev r ++ rev w2) as Ht.
  { by rewrite <- rev_app_distr, <- H2, rev_involutive. }
  rewrite (trimRunes_fixed space2 space3 (rev r)).
  - rewrite rev_involutive. fold r. by rewrite (trimRunes_fixed _ _ r).
  - apply (leadSpace_prefix _ _ _ (rev w2)). by rewrite <- Ht.
Qed.

Lemma TrimSpace_elem c s : c ∈ TrimSpace s → c ∈ s.
Proof.
  destruct (TrimSpace_decompose s) as (w1 & w2 & Hs & _).
  intros Hc. rewrite Hs. set_solver.
Qed.

Lemma TrimSpace_blank c s :
  TrimSpace s = [] → c ∈ s → spaceish c = true.
Proof.
  destruct (TrimSpace_decompose s) as (w1 & w2 & Hs & Hf1 & Hf2).
  intros He Hc. rewrite Hs, He in Hc. rewrite Forall_forall in Hf1, Hf2.
  apply elem_of_app in Hc as [Hc|Hc]; [by apply Is_true_true, Hf1|].
  by apply Is_true_true, Hf2.
Qed.

(** A string that neither starts nor ends with a white-space byte is left
    as it is. *)
Lemma TrimSpace_fixed s :
  (∀ c, head s = Some c → spaceish c = false) →
  (∀ c, last s = Some c → spaceish c = false) →
  TrimSpace s = s.
Proof.
  intros Hh Hl. unfold TrimSpace, TrimRight, TrimLeft, TrimLeftRev.
  assert (trimRunes space2 space3 s = s) as ->.
  { apply trimRunes_fixed. destruct s as [|a s]; [done|].
    apply (leadSpace_plain _ _ space2_high space3_high). by apply Hh. }
  rewrite trimRunes_fixed; [apply rev_involutive|].
  destruct (rev s) as [|a r] eqn:Hr; [done|].
  apply (leadSpace_plain _ _ space2_high_rev space3_high_rev), Hl.
  rewrite <- (rev_involutive s), Hr. cbn. by rewrite last_snoc.
Qed.

Lemma TrimSpace_cons_space s :
  TrimSpace (" "%char :: s) = TrimSpace s.
Proof. done. Qed.
End TrimFacts.

Section SplitFacts.
Import GoStrings.
Variable sep : ascii.

Lemma Split_nonempty s : Split s sep ≠ [].
Proof.
  destruct s as [|c s]; cbn; [done|].
  destruct (decide (c = sep)); [done|]. by destruct (Split s sep).
Qed.

Lemma Split_piece l rest :
  sep ∉ l → Split (l ++ sep :: rest) sep = l :: Split rest sep.
Proof.
  induction l as [|c l IH]; intros Hl; cbn.
  - by rewrite decide_True.
  - rewrite decide_False by set_solver. rewrite IH by set_solver. done.
Qed.

(** The pieces are what stands between the separators. *)
Lemma Split_Join s : Join (Split s sep) [sep] = s.
Proof.
  induction s as [|c s IH]; cbn; [done|].
  destruct (decide (c = sep)) as [->|Hc].
  - pose proof (Split_nonempty s). destruct (Split s sep) eqn:E; [done|].
    cbn in *. by rewrite IH.
  - pose proof (Split_nonempty s). destruct (Split s sep) as [|p ps] eqn:E;
      [done|].
    cbn in *. rewrite <- IH. by destruct ps.
Qed.

Lemma Split_pieces s : Forall (λ piece, sep ∉ piece) (Split s sep).
Proof.
  induction s as [|c s IH]; cbn.
  - repeat constructor. set_solver.
  - destruct (decide (c = sep)); [constructor; [set_solver | done]|].
    destruct (Split s sep) as [|p ps]; [repeat constructor; set_solver|].
    inversion IH; subst. constructor; [set_solver | done].
Qed.

(** [cut] cuts at the first separator. *)
Lemma cut_Some s before after :
  cut s sep = Some (before, after) ↔
  s = before ++ sep :: after ∧ (sep ∉ before).
Proof.
  revert before. induction s as [|c s IH]; intros before; cbn.
  - split; [done|]. intros [Hs _]. by destruct before.
  - destruct (decide (c = sep)) as [->|Hc].
    + split.
      * intros [= <- <-]. split; [done | set_solver].
      * intros [Hs Hn]. destruct before as [|b before];
          [by injection Hs as <- | injection Hs as <- _; set_solver].
    + destruct (cut s sep) as [[b a]|] eqn:E; cbn.
      * split.
        -- intros [= <- <-]. destruct (proj1 (IH b) eq_refl) as [-> Hn].
           split; [done | set_solver].
        -- intros [Hs Hn]. destruct before as [|b' before];
             [injection Hs as -> _; done|].
           injection Hs as <- Hs.
           assert (Some (b, a) = Some (before, after)) as [= -> ->]; [|done].
           apply IH. split; [done | set_solver].
      * split; [done|]. intros [Hs Hn].
        destruct before as [|b' before]; [injection Hs as -> _; done|].
        injection Hs as <- Hs.
        assert (None = Some (before, after)); [|done].
        apply IH. split; [done | set_solver].
Qed.

Lemma cut_None s : cut s sep = None ↔ sep ∉ s.
Proof.
  induction s as [|c s IH]; cbn; [set_solver|].
  destruct (decide (c = sep)) as [->|Hc]; [set_solver|].
  destruct (cut s sep) as [[b a]|] eqn:E; cbn.
  - split; [done|]. intros Hn. assert (sep ∉ s) as Hs by set_solver.
    by apply IH in Hs.
  - split; [|done]. intros _. assert (sep ∉ s) by by apply IH. set_solver.
Qed.
End SplitFacts.

Section HeaderFacts.
Import GoStrings HeaderCodec HeaderSpec.

Lemma parseLine_entry h line :
  parseLine h line
  = match entryOfLine line with Some e => addEntry h e | None => h end.
Proof.
  unfold parseLine, entryOfLine, SplitN2.
  destruct (decide _); [done|]. by destruct (cut line colon) as [[k v]|].
Qed.

Lemma foldl_parseLine lines h :
  foldl parseLine h lines = foldl addEntry h (omap entryOfLine lines).
Proof.
  revert h. induction lines as [|line lines IH]; intros h; cbn; [done|].
  rewrite parseLine_entry. destruct (entryOfLine line); cbn; by rewrite IH.
Qed.

Lemma valuesOf_cons key k v l :
  valuesOf key ((k, v) :: l)
  = if decide (k = key) then v :: valuesOf key l else valuesOf key l.
Proof.
  unfold valuesOf. rewrite filter_cons. cbn. by destruct (decide (k = key)).
Qed.

Lemma foldl_addEntry_lookup es h key :
  foldl addEntry h es !! key
  = match valuesOf key (canonicalEntry <$> es) with
    | [] => h !! key
    | vs => Some (default [] (h !! key) ++ vs)
    end.
Proof.
  revert h. induction es as [|[k v] es IH]; intros h; cbn [foldl]; [done|].
  rewrite IH, fmap_cons. unfold canonicalEntry at 2. cbn [fst snd].
  rewrite valuesOf_cons. unfold addEntry, Add. cbn [fst snd].
  destruct (decide (CanonicalMIMEHeaderKey k = key)) as [->|Hne].
  - rewrite lookup_insert_eq. cbn [default].
    destruct (valuesOf _ _); cbn; [done|]. by rewrite <- app_assoc.
  - by rewrite lookup_insert_ne.
Qed.

(** [parseHeaders] holds, under each key, the values of the lines with that
    key once canonical, in line order. *)
Lemma parseHeaders_lookup text key :
  parseHeaders text !! key
  = lookupIn key (canonicalEntry <$> entries text).
Proof.
  unfold parseHeaders, lookupIn, entries.
  rewrite foldl_parseLine, foldl_addEntry_lookup, lookup_empty.
  by destruct (valuesOf _ _).
Qed.
End HeaderFacts.

Section CanonicalKeyFacts.
Import GoStrings HeaderCodec HeaderSpec.

Ltac by_cases c := destruct c as [[] [] [] [] [] [] [] []]; by vm_compute.

Lemma caseByte_other u c d :
  isLetter d = false →
  (if u : bool then upperByte c else lowerByte c) = d → c = d.
Proof. intros Hd <-. destruct u; revert Hd; by_cases c. Qed.

Lemma caseByte_idemp (u : bool) c :
  let f := λ x, if u then upperByte x else lowerByte x in f (f c) = f c.
Proof. destruct u; by_cases c. Qed.

Lemma caseByte_valid (u : bool) c :
  validHeaderFieldByte c = true →
  validHeaderFieldByte (if u then upperByte c else lowerByte c) = true.
Proof. destruct u; by_cases c. Qed.

Lemma valid_not_spaceish c :
  validHeaderFieldByte c = true → spaceish c = false.
Proof. by_cases c. Qed.

Lemma canonicalCase_elem u a d :
  isLetter d = false → d ∈ canonicalCase u a → d ∈ a.
Proof.
  intros Hd. revert u. induction a as [|c a IH]; intros u; cbn; [done|].
  intros [He|Hin]%elem_of_cons.
  - symmetry in He. apply caseByte_other in He; [|done]. set_solver.
  - apply IH in Hin. set_solver.
Qed.

Lemma canonicalCase_idemp u a :
  canonicalCase u (canonicalCase u a) = canonicalCase u a.
Proof.
  revert u. induction a as [|c a IH]; intros u; cbn; [done|].
  rewrite (caseByte_idemp u c). by rewrite IH.
Qed.

Lemma canonicalCase_valid u a :
  forallb validHeaderFieldByte a = true →
  forallb validHeaderFieldByte (canonicalCase u a) = true.
Proof.
  revert u. induction a as [|c a IH]; intros u; cbn; [done|].
  intros [Hc Ha]%andb_true_iff. by rewrite caseByte_valid, IH.
Qed.

Lemma Canonical_idemp k :
  CanonicalMIMEHeaderKey (CanonicalMIMEHeaderKey k)
  = CanonicalMIMEHeaderKey k.
Proof.
  unfold CanonicalMIMEHeaderKey.
  destruct (forallb validHeaderFieldByte k) eqn:E; [|by rewrite E].
  by rewrite canonicalCase_valid, canonicalCase_idemp.
Qed.

Lemma Canonical_elem d k :
  isLetter d = false → d ∈ CanonicalMIMEHeaderKey k → d ∈ k.
Proof.
  unfold CanonicalMIMEHeaderKey. intros Hd.
  destruct (forallb _ k); [by apply canonicalCase_elem | done].
Qed.

Lemma Canonical_trimmed k :
  TrimSpace k = k →
  TrimSpace (CanonicalMIMEHeaderKey k) = CanonicalMIMEHeaderKey k.
Proof.
  intros Hk. unfold CanonicalMIMEHeaderKey.
  destruct (forallb validHeaderFieldByte k) eqn:E; [|done].
  pose proof (canonicalCase_valid true k E) as Hv.
  rewrite forallb_forall in Hv.
  apply TrimSpace_fixed; intros c Hc; apply valid_not_spaceish, Hv.
  - destruct (canonicalCase true k); [done|]. injection Hc as ->. by left.
  - apply list_elem_of_In. by apply last_Some_elem_of.
Qed.
End CanonicalKeyFacts.

Section RoundTripFacts.
Import GoStrings HeaderCodec HeaderSpec.

Lemma entries_wf text k v :
  (k, v) ∈ entries text →
  (colon ∉ k) ∧ (newline ∉ k) ∧ TrimSpace k = k
  ∧ (newline ∉ v) ∧ TrimSpace v = v.
Proof.
  unfold entries. intros (line & Hline & He)%list_elem_of_omap.
  pose proof (Split_pieces newline text) as Hp.
  rewrite Forall_forall in Hp. apply Hp in Hline.
  unfold entryOfLine in He. destruct (decide _); [done|].
  destruct (cut line colon) as [[a b]|] eqn:Hc; [|done].
  injection He as <- <-. apply cut_Some in Hc as [-> Ha].
  repeat split; try apply TrimSpace_idemp;
    intros Hin%TrimSpace_elem; set_solver.
Qed.

Lemma Join_elem c vs sep :
  c ∈ Join vs sep → (c ∈ sep) ∨ ∃ v, (v ∈ vs) ∧ (c ∈ v).
Proof.
  induction vs as [|v [|v' vs] IH]; cbn; [set_solver | set_solver |].
  rewrite !elem_of_app. intros [?|[?|Hin]]; [set_solver | by left |].
  apply IH in Hin. set_solver.
Qed.

Lemma valuesOf_elem key l v :
  v ∈ valuesOf key l ↔ (key, v) ∈ l.
Proof.
  unfold valuesOf. rewrite list_elem_of_fmap. split.
  - intros ([k v'] & -> & [Hk Hin]%list_elem_of_filter). cbn in *.
    by subst.
  - intros Hin. exists (key, v). split; [done|].
    by apply list_elem_of_filter.
Qed.

Lemma flattened_wf text k v :
  flattened text !! k = Some v → keyOK k ∧ (newline ∉ v).
Proof.
  unfold flattened, flattenHeaders. rewrite lookup_fmap, parseHeaders_lookup.
  unfold lookupIn.
  destruct (valuesOf k _) as [|v1 vs] eqn:Hvs; [done|].
  intros Hv. assert (Join (v1 :: vs) (str ", ") = v) as <- by by injection Hv.
  clear Hv.
  assert (∀ v', v' ∈ v1 :: vs →
            ∃ k0, ((k0, v') ∈ entries text) ∧ k = CanonicalMIMEHeaderKey k0)
    as Hall.
  { intros v' Hv'. rewrite <- Hvs in Hv'.
    apply valuesOf_elem, list_elem_of_fmap in Hv' as ([k0 v0] & [= -> ->] & Hin).
    by exists k0. }
  split.
  - destruct (Hall v1) as (k0 & Hin & ->); [by left|].
    apply entries_wf in Hin as (Hc & Hn & Ht & _).
    repeat split.
    + intros Hin%Canonical_elem; done.
    + intros Hin%Canonical_elem; done.
    + by apply Canonical_trimmed.
    + apply Canonical_idemp.
  - intros [Hin|(v' & Hv' & Hin)]%Join_elem.
    + vm_compute in Hin. set_solver.
    + destruct (Hall v' Hv') as (k0 & He & _).
      by apply entries_wf in He as (_ & _ & _ & Hn & _).
Qed.

Lemma headersText_acc acc l :
  foldl (λ text '(k, v), text ++ k ++ str ": " ++ v ++ [newline]) acc l
  = acc ++ headersText l.
Proof.
  unfold headersText. revert acc.
  induction l as [|[k v] l IH]; intros acc; cbn [foldl];
    [by rewrite app_nil_r|].
  rewrite IH, (IH ([] ++ _)). by rewrite <- !app_assoc.
Qed.

Lemma headersText_cons k v l :
  headersText ((k, v) :: l)
  = (k ++ str ": " ++ v) ++ newline :: headersText l.
Proof.
  unfold headersText at 1. cbn [foldl]. rewrite headersText_acc.
  cbn [app]. by rewrite <- !app_assoc.
Qed.

Lemma entryOfLine_listed k v :
  colon ∉ k →
  entryOfLine (k ++ str ": " ++ v) = Some (TrimSpace k, TrimSpace v).
Proof.
  intros Hk. unfold entryOfLine. rewrite decide_False.
  - assert (cut (k ++ str ": " ++ v) colon = Some (k, " "%char :: v)) as ->
      by by apply cut_Some.
    done.
  - intros Hb. assert (spaceish colon = true) as Hs; [|done].
    apply (TrimSpace_blank _ _ Hb). set_solver.
Qed.

Lemma entries_headersText l :
  Forall (λ e, (colon ∉ e.1) ∧ (newline ∉ e.1) ∧ (newline ∉ e.2)) l →
  entries (headersText l) = (λ e, (TrimSpace e.1, TrimSpace e.2)) <$> l.
Proof.
  induction 1 as [|[k v] l (Hc & Hk & Hv) _ IH]; [done|].
  cbn [fst snd] in Hc, Hk, Hv.
  rewrite headersText_cons. unfold entries in *.
  rewrite Split_piece.
  - cbn [omap list_omap]. rewrite entryOfLine_listed by done. by rewrite IH.
  - rewrite !elem_of_app. intros [?|[Hin|?]]; [done| |done].
    vm_compute in Hin. set_solver.
Qed.

Lemma valuesOf_NoDup key (l : list (bytes * bytes)) :
  NoDup l.*1 →
  valuesOf key l
  = match (list_to_map l : gmap bytes bytes) !! key with
    | Some v => [v]
    | None => []
    end.
Proof.
  induction l as [|[k v] l IH]; [done|].
  rewrite fmap_cons, NoDup_cons. cbn [fst]. intros [Hk Hl].
  rewrite valuesOf_cons, list_to_map_cons, IH by done.
  destruct (decide (k = key)) as [->|Hne].
  - rewrite lookup_insert_eq.
    by rewrite (not_elem_of_list_to_map_1 _ _ Hk).
  - by rewrite lookup_insert_ne.
Qed.

(** Listing the flattened headers of a block and parsing the listing
    gives the same keys; each joined value comes back trimmed. *)
Lemma reparse_flattened text l :
  rangeOrder (flattened text) l →
  flattened (headersText l) = TrimSpace <$> flattened text.
Proof.
  intros Hl. unfold rangeOrder in Hl.
  assert (∀ k v, (k, v) ∈ l → flattened text !! k = Some v) as Hin.
  { intros k v Hkv. rewrite Hl in Hkv. by apply elem_of_map_to_list. }
  assert (NoDup l.*1) as Hnd.
  { rewrite Hl. apply NoDup_fst_map_to_list. }
  assert ((list_to_map l : gmap bytes bytes) = flattened text) as Hmap.
  { rewrite <- (list_to_map_to_list (flattened text)).
    by apply list_to_map_proper. }
  apply map_eq. intros key.
  unfold flattened at 1, flattenHeaders.
  rewrite !lookup_fmap, parseHeaders_lookup, entries_headersText.
  2:{ apply Forall_forall. intros [k v] Hkv.
      destruct (flattened_wf _ _ _ (Hin _ _ Hkv)) as [(? & ? & _) ?]. done. }
  assert (canonicalEntry <$> ((λ e, (TrimSpace e.1, TrimSpace e.2)) <$> l)
          = prod_map id TrimSpace <$> l) as ->.
  { rewrite <- list_fmap_compose. apply Forall_fmap_ext_1, Forall_forall.
    intros [k v] Hkv. unfold canonicalEntry, compose, prod_map.
    cbn [fst snd id].
    destruct (flattened_wf _ _ _ (Hin _ _ Hkv)) as [(_ & _ & Ht & Hc) _].
    by rewrite Ht, Hc. }
  unfold lookupIn.
  assert (valuesOf key (prod_map id TrimSpace <$> l)
          = TrimSpace <$> valuesOf key l) as ->.
  { clear. induction l as [|[k v] l IH]; [done|].
    rewrite fmap_cons. unfold prod_map at 1. cbn [fst snd id].
    rewrite !valuesOf_cons.
    destruct (decide (k = key)); by rewrite ?fmap_cons, IH. }
  rewrite valuesOf_NoDup, Hmap by done.
  by destruct (flattened text !! key).
Qed.
End RoundTripFacts.

Section EntryFacts.
Import GoStrings HeaderCodec HeaderSpec.

(** Every entry comes from a line of the block, cut at its first colon,
    the two parts trimmed. *)
Lemma entries_origin text k v :
  (k, v) ∈ entries text →
  ∃ line before after,
    (line ∈ Split text newline)
    ∧ line = before ++ colon :: after ∧ (colon ∉ before)
    ∧ k = TrimSpace before ∧ v = TrimSpace after.
Proof.
  unfold entries. intros (line & Hline & He)%list_elem_of_omap.
  unfold entryOfLine in He. destruct (decide _); [done|].
  destruct (cut line colon) as [[a b]|] eqn:Hc; [|done].
  injection He as <- <-. apply cut_Some in Hc as [-> Ha].
  by exists (a ++ colon :: b), a, b.
Qed.

Lemma flattened_lookup text key :
  flattened text !! key
  = (λ vs, Join vs (str ", "))
      <$> lookupIn key (canonicalEntry <$> entries text).
Proof.
  unfold flattened, flattenHeaders.
  by rewrite lookup_fmap, parseHeaders_lookup.
Qed.
End EntryFacts.

Section StoreFacts.
Import Store.

Lemma save_workspaces a : workspaces (save a).1 = workspaces a.
Proof.
  unfold save, saveWorkspaces. by destruct (writeFails (disk a)).
Qed.

Lemma save_form a :
  urlEntry_Text (save a).1 = urlEntry_Text a
  ∧ workspaceSelect_Selected (save a).1 = workspaceSelect_Selected a
  ∧ selectedCollectionIdx (save a).1 = selectedCollectionIdx a.
Proof.
  unfold save, saveWorkspaces. by destruct (writeFails (disk a)).
Qed.

Lemma requestsAt_save w c a : requestsAt w c (save a).1 = requestsAt w c a.
Proof. unfold requestsAt. by rewrite save_workspaces. Qed.

Lemma requestsAt_update w c f a :
  (∃ ws, elems (workspaces a) !! w = Some ws
         ∧ is_Some (elems (Workspace.Collections ws) !! c)) →
  requestsAt w c (updateRequests w c f a) = f (requestsAt w c a).
Proof.
  intros (ws & Hw & [col Hc]). unfold requestsAt, updateRequests.
  cbn [workspaces set_workspaces elems default from_option id].
  unfold elems in *. rewrite list_lookup_alter_eq, Hw. cbn.
  unfold elems. cbn. rewrite list_lookup_alter_eq, Hc. done.
Qed.

(** The index that the loop with [break] finds is that of the first
    workspace with the name. *)
Lemma findWorkspace_first name l i0 :
  let k := findWorkspace name l i0 in
  (k = -1 ∧ Forall (λ ws, Workspace.Name ws ≠ name) l)
  ∨ (i0 ≤ k
     ∧ (∃ ws, l !! Z.to_nat (k - i0) = Some ws ∧ Workspace.Name ws = name)
     ∧ ∀ j ws, (j < Z.to_nat (k - i0))%nat → l !! j = Some ws →
               Workspace.Name ws ≠ name).
Proof.
  revert i0. induction l as [|ws l IH]; intros i0; cbn.
  - left. by split.
  - destruct (decide (Workspace.Name ws = name)) as [He|Hne].
    + right. split; [lia|]. rewrite Z.sub_diag. cbn. split; [by exists ws|].
      intros; lia.
    + destruct (IH (i0 + 1)) as [[Hk Hall]|(Hle & (ws' & Hl & Hn) & Hmin)].
      * left. split; [done|]. by constructor.
      * right. split; [lia|].
        replace (Z.to_nat (findWorkspace name l (i0 + 1) - i0))
          with (S (Z.to_nat (findWorkspace name l (i0 + 1) - (i0 + 1))))
          by lia.
        split; [by exists ws'|].
        intros [|j] ws0 Hj Hl0; cbn in Hl0; [by injection Hl0 as <-|].
        apply (Hmin j); [lia | done].
Qed.

(** The guards of [saveReqBtn] are those of [selectedCollection]. *)
Lemma saveRequest_selected a :
  saveRequest a
  = match selectedCollection a with
    | Some (w, c) =>
        (save (updateRequests w c (λ l, l ++ [composedRequest a]) a)).1
    | None => a
    end.
Proof.
  unfold saveRequest, selectedCollection.
  set (k := findWorkspace _ _ 0).
  destruct (elems (workspaces a) !! Z.to_nat k) as [ws|];
    repeat case_decide; try done; tauto.
Qed.

Lemma selectedCollection_Some a w c :
  selectedCollection a = Some (w, c) →
  ∃ ws, elems (workspaces a) !! w = Some ws
        ∧ is_Some (elems (Workspace.Collections ws) !! c)
        ∧ Workspace.Name ws = workspaceSelect_Selected a
        ∧ ∀ j ws', (j < w)%nat → elems (workspaces a) !! j = Some ws' →
                   Workspace.Name ws' ≠ workspaceSelect_Selected a.
Proof.
  unfold selectedCollection. destruct (decide _) as [|Hg]; [done|].
  pose proof (findWorkspace_first (workspaceSelect_Selected a)
                (elems (workspaces a)) 0) as Hf. cbn zeta in Hf.
  set (k := findWorkspace _ _ 0) in *.
  destruct (_ !! Z.to_nat k) as [ws|] eqn:Hw; [|done].
  destruct (decide _) as [|Hc]; [done|]. intros [= <- <-].
  destruct Hf as [[Hk _]|(Hle & (ws' & Hl & Hn) & Hmin)]; [tauto|].
  rewrite Z.sub_0_r in Hl, Hmin. rewrite Hw in Hl. injection Hl as <-.
  exists ws. split; [done|]. split; [|done].
  apply lookup_lt_is_Some. unfold len in Hc. lia.
Qed.

(** [saveReqBtn] changes the first workspace with the selected name and
    no other. *)
Lemma saveRequest_first_only a i :
  (∀ w c, selectedCollection a = Some (w, c) → i ≠ w) →
  elems (workspaces (saveRequest a)) !! i = elems (workspaces a) !! i.
Proof.
  intros Hi. rewrite saveRequest_selected.
  destruct (selectedCollection a) as [[w c]|] eqn:Hs; [|done].
  rewrite save_workspaces. cbn. rewrite list_lookup_alter_ne; [done|].
  intros Hw. by apply (Hi w c).
Qed.
End StoreFacts.

Section UTF8Facts.
Import UTF8.

Lemma validFrom_skip n s :
  validFrom n s = true →
  (n ≤ length s)%nat ∧ validFrom 0 (drop n s) = true.
Proof.
  revert s. induction n as [|n IH]; intros s; [by split; [lia|]|].
  destruct s as [|c s]; cbn; [done|].
  intros [? ?]%IH. split; [lia | done].
Qed.

Lemma validFrom_rune s :
  s ≠ [] → validFrom 0 s = true →
  ∃ n, runeLen s = S n ∧ (S n ≤ length s)%nat
       ∧ validFrom 0 (drop (S n) s) = true.
Proof.
  destruct s as [|c s]; [done|]. intros _. cbn [validFrom].
  destruct (runeLen (c :: s)) as [|n] eqn:E; [done|].
  intros [? ?]%validFrom_skip. exists n. cbn. split; [done|].
  split; [lia | done].
Qed.

(** Valid strings, one rune after the other. *)
Lemma valid_rune_ind (P : bytes → Prop) :
  P [] →
  (∀ s n, runeLen s = S n → (S n ≤ length s)%nat →
          ValidString (drop (S n) s) = true →
          P (drop (S n) s) → P s) →
  ∀ s, ValidString s = true → P s.
Proof.
  intros Hnil Hstep s.
  induction s as [s IH] using (induction_ltof1 _ length).
  unfold ltof in IH. intros Hv.
  destruct (decide (s = [])) as [->|Hne]; [done|].
  destruct (validFrom_rune s Hne Hv) as (n & Hr & Hlen & Hrest).
  apply (Hstep s n); try done. apply IH; [|done].
  rewrite length_drop. lia.
Qed.

Ltac runeLen_cases s :=
  destruct s as [|?a [|?b [|?c [|?d ?s]]]]; cbn [runeLen]; try done;
  repeat (match goal with
          | |- context [if ?b then _ else _] => destruct b eqn:?
          end; try done);
  intros [= <-].

Ltac reuse_tests :=
  repeat match goal with
         | H : ?b = _ |- context [if ?b then _ else _] => rewrite H
         end.

(** The rune at the head of a string is decoded from its own bytes. *)
Lemma runeLen_prefix s n X :
  runeLen s = S n → runeLen (take (S n) s ++ X) = S n.
Proof. runeLen_cases s; cbn; by reuse_tests. Qed.

Lemma runeLen_length s n : runeLen s = S n → (S n ≤ length s)%nat.
Proof. runeLen_cases s; cbn; lia. Qed.

(** The bytes of a rune of several bytes are 128 or more. *)
Lemma runeLen_high s n :
  runeLen s = S (S n) → Forall (λ c, isASCII c = false) (take (S (S n)) s).
Proof.
  assert (∀ c lo hi, (128 ≤ lo)%N → between lo hi c = true →
                     isASCII c = false) as Hb.
  { intros c lo hi Hlo [H1 _]%andb_true_iff. apply N.leb_le in H1.
    unfold isASCII. apply N.ltb_ge. lia. }
  assert (∀ c, cont c = true → isASCII c = false) as Hc
    by (intros c; by apply Hb).
  runeLen_cases s; cbn; repeat constructor; try done;
    unfold valid2, valid3, valid4 in *;
    repeat match goal with
           | H : _ && _ = true |- _ => apply andb_true_iff in H as [? ?]
           | H : _ || _ = true |- _ => apply orb_true_iff in H as [?|?]
           end;
    first [ by apply Hc
          | by eapply Hb; [|eassumption]; lia ].
Qed.
End UTF8Facts.

Section QuoteFacts.
Import UTF8 JSON.

Lemma quoteFrom_skip n s : quoteFrom n s = quoteFrom 0 (drop n s).
Proof.
  revert s. induction n as [|n IH]; intros [|c s]; cbn [quoteFrom drop];
    try done; apply IH.
Qed.

Lemma unquoteFrom_skip n s : unquoteFrom n s = unquoteFrom 0 (drop n s).
Proof.
  revert s. induction n as [|n IH]; intros [|c s]; cbn [unquoteFrom drop];
    try done; apply IH.
Qed.

Lemma scanString_skip n s :
  scanString n s = (λ k, n + k)%nat <$> scanString 0 (drop n s).
Proof.
  revert s. induction n as [|n IH]; intros s.
  - rewrite drop_0. by destruct (scanString 0 s).
  - destruct s as [|c s]; [done|]. cbn [scanString drop]. rewrite IH.
    by destruct (scanString 0 (drop n s)).
Qed.

(** One turn of each loop. *)
Lemma quoteFrom_rune s n :
  runeLen s = S n →
  quoteFrom 0 s = (quoteRune s).1 ++ quoteFrom 0 (drop (S n) s).
Proof.
  intros Hr. assert ((quoteRune s).2 = S n) as Hw.
  { destruct s as [|a s]; [done|]. unfold quoteRune.
    destruct (isASCII a) eqn:Ha; [by cbn in *; rewrite Ha in Hr|].
    rewrite Hr. by repeat case_decide. }
  destruct s as [|a s]; [done|]. cbn [quoteFrom drop].
  destruct (quoteRune (a :: s)) as [out k]. cbn in Hw. subst k. cbn.
  by rewrite quoteFrom_skip.
Qed.

Lemma unquoteFrom_step s out n :
  unquoteRune s = (out, S n) →
  unquoteFrom 0 s = out ++ unquoteFrom 0 (drop (S n) s).
Proof.
  destruct s as [|c s]; [done|]. intros H. cbn [unquoteFrom drop].
  rewrite H. cbn. by rewrite unquoteFrom_skip.
Qed.

Lemma scanString_step s n k :
  head s ≠ Some quoteChar →
  scanItem s = Some (S n) →
  scanString 0 (drop (S n) s) = Some k →
  scanString 0 s = Some (S n + k)%nat.
Proof.
  destruct s as [|c s]; [done|]. intros Hq Hi Hk. cbn [scanString].
  rewrite decide_False by (by intros ->). rewrite Hi. cbn.
  rewrite scanString_skip. cbn in Hk. by rewrite Hk.
Qed.

Ltac ascii_cases a :=
  destruct a as [[] [] [] [] [] [] [] []]; try done.

(** What the writer puts for an ASCII byte is read back as that byte. *)
Lemma ascii_item a Z :
  isASCII a = true →
  let out := if htmlSafe a then [a] else escapeASCII a in
  head (out ++ Z) ≠ Some quoteChar
  ∧ scanItem (out ++ Z) = Some (length out)
  ∧ unquoteRune (out ++ Z) = ([a], length out)
  ∧ (1 ≤ length out)%nat.
Proof.
  intros Ha. ascii_cases a; vm_compute; repeat split; try done; lia.
Qed.

Lemma separator_item Z :
  let ls := backslash :: str "u2028" in
  let ps := backslash :: str "u2029" in
  scanItem (ls ++ Z) = Some 6%nat
  ∧ unquoteRune (ls ++ Z) = (lineSeparator, 6%nat)
  ∧ scanItem (ps ++ Z) = Some 6%nat
  ∧ unquoteRune (ps ++ Z) = (paragraphSeparator, 6%nat).
Proof. by vm_compute. Qed.

Lemma high_facts c :
  isASCII c = false →
  c ≠ quoteChar ∧ c ≠ backslash ∧ (code c <? 32)%N = false.
Proof.
  unfold isASCII. intros H%N.ltb_ge.
  repeat split; try (intros ->; by vm_compute in H).
  apply N.ltb_ge. lia.
Qed.

Lemma scanString_high r Z k :
  Forall (λ c, isASCII c = false) r →
  scanString 0 Z = Some k → scanString 0 (r ++ Z) = Some (length r + k)%nat.
Proof.
  intros Hr Hk. induction Hr as [|c r Hc _ IH]; [done|].
  destruct (high_facts c Hc) as (H1 & H2 & H3). cbn [app].
  rewrite (scanString_step _ 0 (length r + k)); [done | | |done].
  - cbn. by intros [= ->].
  - cbn. by rewrite decide_False, H3.
Qed.
End QuoteFacts.

Section StringFacts.
Import UTF8 JSON.

(** What the writer puts for a rune is read back as the bytes of the
    rune. *)
Lemma quoteRune_reads s n Z :
  runeLen s = S n →
  (∀ k, scanString 0 Z = Some k →
        scanString 0 ((quoteRune s).1 ++ Z)
        = Some (length (quoteRune s).1 + k)%nat)
  ∧ unquoteFrom 0 ((quoteRune s).1 ++ Z) = take (S n) s ++ unquoteFrom 0 Z.
Proof.
  intros Hr. destruct s as [|a s1] eqn:Hs; [done|].
  assert (∀ out w, (1 ≤ length out)%nat →
            head (out ++ Z) ≠ Some quoteChar →
            scanItem (out ++ Z) = Some (length out) →
            unquoteRune (out ++ Z) = (w, length out) →
            (∀ k, scanString 0 Z = Some k →
                  scanString 0 (out ++ Z) = Some (length out + k)%nat)
            ∧ unquoteFrom 0 (out ++ Z) = w ++ unquoteFrom 0 Z) as Hitem.
  { intros out w Hlen Hq Hi Hu.
    destruct (length out) as [|m] eqn:Hm; [lia|].
    assert (drop (S m) (out ++ Z) = Z) as Hd
      by (by rewrite <- Hm, drop_app_length).
    split.
    - intros k Hk. apply scanString_step; [done | done | by rewrite Hd].
    - rewrite (unquoteFrom_step _ _ _ Hu). by rewrite Hd. }
  unfold quoteRune. destruct (isASCII a) eqn:Ha.
  - assert (n = 0%nat) as -> by (cbn in Hr; rewrite Ha in Hr; lia).
    destruct (ascii_item a Z Ha) as (Hq & Hi & Hu & Hlen).
    cbn [fst take]. by apply Hitem.
  - rewrite Hr. cbn [fst].
    pose proof (separator_item Z) as (Hl1 & Hl2 & Hp1 & Hp2).
    destruct (decide (take (S n) (a :: s1) = lineSeparator)) as [->|Hnl];
      [apply (Hitem (backslash :: str "u2028")); try done; cbn; lia|].
    destruct (decide (take (S n) (a :: s1) = paragraphSeparator))
      as [->|Hnp];
      [apply (Hitem (backslash :: str "u2029")); try done; cbn; lia|].
    cbn [fst].
    assert (∃ m, n = S m) as [m ->].
    { destruct n; [|by eauto]. cbn in Hr. rewrite Ha in Hr.
      destruct s1 as [|b [|c [|d s4]]]; cbn in Hr; try lia;
        repeat (match type of Hr with
                | context [if ?b then _ else _] => destruct b
                end; try lia). }
    pose proof (runeLen_high _ _ Hr) as Hh.
    pose proof (runeLen_length _ _ Hr) as Hlen.
    set (r := take (S (S m)) (a :: s1)) in *.
    assert (length r = S (S m)) as Hlr
      by (unfold r; rewrite length_take; lia).
    split.
    + intros k Hk. by apply scanString_high.
    + destruct (high_facts a Ha) as (_ & Hb & _).
      rewrite (unquoteFrom_step _ r (S m)).
      * by rewrite <- Hlr, drop_app_length.
      * assert (∃ r', r = a :: r') as [r' Hr'] by (by eexists).
        rewrite Hr'. cbn [app]. unfold unquoteRune.
        rewrite decide_False, Ha by done.
        change (a :: r' ++ Z) with ((a :: r') ++ Z). rewrite <- Hr'.
        unfold r. rewrite (runeLen_prefix _ _ Z Hr).
        fold r. by rewrite <- Hlr, take_app_length.
Qed.

(** A string of valid UTF-8 is read back from what the writer puts for
    it. *)
Lemma quoted_reads s :
  ValidString s = true →
  (∀ rest, scanString 0 (quoteFrom 0 s ++ quoteChar :: rest)
           = Some (length (quoteFrom 0 s)))
  ∧ unquoteFrom 0 (quoteFrom 0 s) = s.
Proof.
  revert s. apply valid_rune_ind.
  - split; [intros rest; cbn; by rewrite decide_True | done].
  - intros s n Hr Hlen Hv [IH1 IH2].
    rewrite (quoteFrom_rune _ _ Hr). split.
    + intros rest. rewrite <- app_assoc.
      destruct (quoteRune_reads s n
                  (quoteFrom 0 (drop (S n) s) ++ quoteChar :: rest) Hr)
        as [H1 _].
      rewrite (H1 _ (IH1 rest)), length_app. done.
    + destruct (quoteRune_reads s n (quoteFrom 0 (drop (S n) s)) Hr)
        as [_ H2].
      by rewrite H2, IH2, take_drop.
Qed.
End StringFacts.

Section LexFacts.
Import UTF8 JSON.

Lemma lex_skip n s : lex n s = lex 0 (drop n s).
Proof.
  revert s. induction n as [|n IH]; intros [|c s]; cbn [lex drop];
    try done; apply IH.
Qed.

Lemma lex_spaces w rest :
  Forall (λ c, isSpace c = true) w → lex 0 (w ++ rest) = lex 0 rest.
Proof.
  induction 1 as [|c w Hc _ IH]; [done|]. cbn [app lex]. by rewrite Hc.
Qed.

Lemma lex_token w t rest l :
  (∃ c, head w = Some c ∧ isSpace c = false) →
  lexToken (w ++ rest) = Some (t, length w) →
  lex 0 rest = Some l →
  lex 0 (w ++ rest) = Some (t :: l).
Proof.
  intros (c & Hc & Hsp) Ht Hl. destruct w as [|c' w]; [done|].
  injection Hc as ->.
  cbn [app lex]. rewrite Hsp.
  change (c :: w ++ rest) with ((c :: w) ++ rest). rewrite Ht. cbn.
  by rewrite lex_skip, drop_app_length, Hl.
Qed.

Lemma lexToken_text t rest :
  lexable t → lexToken (tokenText t ++ rest) = Some (t, length (tokenText t)).
Proof.
  destruct t; try done.
  intros Hv. cbn in Hv. destruct (quoted_reads s Hv) as [H1 H2].
  cbn [tokenText]. unfold quote. cbn [app lexToken punctuation].
  rewrite <- app_assoc. cbn [app].
  assert (punctuation quoteChar = None) as -> by done.
  rewrite decide_True by done. rewrite H1. cbn.
  rewrite take_app_length, H2. do 3 f_equal. rewrite length_app. cbn. lia.
Qed.

Lemma tokenText_head t :
  lexable t → ∃ c, head (tokenText t) = Some c ∧ isSpace c = false.
Proof. destruct t; try done; intros _; by eexists. Qed.

Lemma lex_text t rest l :
  lexable t → lex 0 rest = Some l →
  lex 0 (tokenText t ++ rest) = Some (t :: l).
Proof.
  intros Ht Hl. apply lex_token; [|by apply lexToken_text|done].
  by apply tokenText_head.
Qed.

Lemma newlineIndent_spaces d :
  Forall (λ c, isSpace c = true) (newlineIndent d).
Proof.
  unfold newlineIndent. constructor; [done|].
  induction d as [|d IH]; [done|]. cbn. by repeat constructor.
Qed.

(** The indented text has the tokens it was written from. *)
Lemma lex_indent l :
  Forall lexable l →
  ∀ needIndent d, lex 0 (indentLoop needIndent d l) = Some l.
Proof.
  induction 1 as [|t l Ht _ IH]; intros needIndent d; [done|].
  cbn [indentLoop].
  set (closing := match t with TEndObject | TEndArray => true | _ => false end).
  set (opened := needIndent && negb closing).
  assert (∀ rest, lex 0 rest = Some (t :: l) →
            lex 0 ((if opened then newlineIndent
                                    (if opened then S d else d)
                    else []) ++ rest) = Some (t :: l)) as Hpre.
  { intros rest Hrest. destruct opened; [|done].
    by rewrite lex_spaces by apply newlineIndent_spaces. }
  apply Hpre. clear Hpre.
  destruct t; try done;
    repeat first
      [ rewrite <- app_assoc
      | apply lex_text; [done|]
      | rewrite lex_spaces by apply newlineIndent_spaces
      | rewrite lex_spaces by (by repeat constructor)
      | apply IH
      | match goal with
        | |- context [if ?b then _ else _] => destruct b
        end ].
Qed.
End LexFacts.

Section ParseFacts.
Import UTF8 JSON.

Lemma json_nested_ind (P : json → Prop) :
  P JNull → (∀ b, P (JBool b)) → (∀ l, P (JNumber l)) →
  (∀ s, P (JString s)) →
  (∀ l, Forall P l → P (JArray l)) →
  (∀ l, Forall (λ m, P m.2) l → P (JObject l)) →
  ∀ j, P j.
Proof.
  intros Hnull Hbool Hnum Hstr Harr Hobj.
  fix IH 1.
  intros [| | | |l|l];
    [apply Hnull | apply Hbool | apply Hnum | apply Hstr | |].
  - apply Harr. induction l as [|x l IHl]; constructor; [apply IH | done].
  - apply Hobj. induction l as [|[k x] l IHl]; constructor;
      [apply IH | done].
Qed.

Lemma tokens_array l :
  tokens (JArray l) = TBeginArray :: elementTokens true (tokens <$> l).
Proof.
  cbn [tokens]. f_equal. generalize true.
  induction l as [|x l IH]; intros first; [done|].
  cbn [fmap list_fmap elementTokens]. by rewrite <- IH.
Qed.

Lemma tokens_object l :
  tokens (JObject l)
  = TBeginObject :: memberTokens true (prod_map id tokens <$> l).
Proof.
  cbn [tokens]. f_equal. generalize true.
  induction l as [|[k x] l IH]; intros first; [done|].
  cbn [fmap list_fmap memberTokens prod_map fst snd id]. by rewrite <- IH.
Qed.

Lemma tokens_head j : ∃ t l, tokens j = t :: l ∧ opensValue t.
Proof.
  destruct j as [|[|]| | |l|l]; by eexists _, _; split; [reflexivity|].
Qed.

Lemma run_app st l1 l2 :
  run st (l1 ++ l2) = st' ← run st l1; run st' l2.
Proof.
  revert st. induction l1 as [|t l1 IH]; intros st; cbn; [done|].
  destruct (step st t); cbn; [apply IH | done].
Qed.

Lemma depth_elem x l :
  x ∈ l → depth x ≤ foldr (λ x d, Z.max (depth x) d) 0 l.
Proof.
  induction 1 as [x l|x y l _ IH]; cbn; lia.
Qed.

Lemma depth_member m (l : list (bytes * json)) :
  m ∈ l → depth m.2 ≤ foldr (λ m d, Z.max (depth m.2) d) 0 l.
Proof.
  induction 1 as [x l|x y l _ IH]; cbn; lia.
Qed.

Lemma foldr_max_nonneg {A} (f : A → Z) l :
  0 ≤ foldr (λ x d, Z.max (f x) d) 0 l.
Proof. induction l; cbn; lia. Qed.

(** The parser reads back a value from its tokens. *)
Lemma run_tokens j :
  ∀ stack rest,
    len stack + depth j ≤ maxNestingDepth →
    run (ExpectValue stack) (tokens j ++ rest) = run (deliver j stack) rest.
Proof.
  induction j as [|b|lit|s|l IH|l IH] using json_nested_ind;
    intros stack rest Hd; try done.
  - by destruct b.
  - (* arrays *)
    rewrite tokens_array. cbn [app run step beginValue mbind option_bind].
    pose proof (foldr_max_nonneg depth l) as Hnn.
    rewrite decide_True by (cbn [depth] in Hd; lia). cbn.
    assert (∀ l' done,
              Forall (λ x, ∀ stack rest,
                        len stack + depth x ≤ maxNestingDepth →
                        run (ExpectValue stack) (tokens x ++ rest)
                        = run (deliver x stack) rest) l' →
              Forall (λ x, len stack + 1 + depth x ≤ maxNestingDepth) l' →
              run (ArrayMore done stack)
                (elementTokens false (tokens <$> l') ++ rest)
              = run (deliver (JArray (reverse done ++ l')) stack) rest)
      as Hmore.
    { induction l' as [|x l' IHl]; intros done HP Hdep.
      - cbn. by rewrite app_nil_r.
      - inversion HP as [|? ? Hx HP']; subst.
        inversion Hdep as [|? ? Hdx Hdep']; subst.
        cbn [fmap list_fmap elementTokens app run step mbind option_bind].
        rewrite <- app_assoc, Hx by (unfold len in *; cbn; lia).
        cbn [deliver]. rewrite IHl by done.
        by rewrite reverse_cons, <- app_assoc. }
    assert (Forall (λ x, len stack + 1 + depth x ≤ maxNestingDepth) l)
      as Hdep.
    { apply Forall_forall. intros x Hx. apply depth_elem in Hx.
      cbn [depth] in Hd. lia. }
    destruct l as [|x l]; [done|].
    inversion IH as [|? ? Hx IH']; subst.
    inversion Hdep as [|? ? Hdx Hdep']; subst.
    cbn [fmap list_fmap elementTokens app]. rewrite <- app_assoc.
    destruct (tokens_head x) as (t & ts & Ht & Hopen).
    transitivity (run (ExpectValue (InArray [] :: stack))
                    (tokens x ++ elementTokens false (tokens <$> l) ++ rest)).
    { rewrite Ht. cbn. by destruct t. }
    rewrite Hx by (unfold len in *; cbn; lia).
    cbn [deliver]. by rewrite Hmore.
  - (* objects *)
    rewrite tokens_object. cbn [app run step beginValue mbind option_bind].
    pose proof (foldr_max_nonneg (λ m : bytes * json, depth m.2) l) as Hnn.
    rewrite decide_True by (cbn [depth] in Hd; lia). cbn.
    assert (∀ l' done,
              Forall (λ m, ∀ stack rest,
                        len stack + depth m.2 ≤ maxNestingDepth →
                        run (ExpectValue stack) (tokens m.2 ++ rest)
                        = run (deliver m.2 stack) rest) l' →
              Forall (λ m, len stack + 1 + depth m.2 ≤ maxNestingDepth) l' →
              run (ObjectMore done stack)
                (memberTokens false (prod_map id tokens <$> l') ++ rest)
              = run (deliver (JObject (reverse done ++ l')) stack) rest)
      as Hmore.
    { induction l' as [|[k x] l' IHl]; intros done HP Hdep.
      - cbn. by rewrite app_nil_r.
      - inversion HP as [|? ? Hx HP']; subst.
        inversion Hdep as [|? ? Hdx Hdep']; subst. cbn [snd] in Hx, Hdx.
        cbn [fmap list_fmap memberTokens prod_map fst snd id app run step
             mbind option_bind].
        rewrite <- app_assoc, Hx by (unfold len in *; cbn; lia).
        cbn [deliver]. rewrite IHl by done.
        by rewrite reverse_cons, <- app_assoc. }
    assert (Forall (λ m, len stack + 1 + depth m.2 ≤ maxNestingDepth) l)
      as Hdep.
    { apply Forall_forall. intros m Hm. apply depth_member in Hm.
      cbn [depth] in Hd. lia. }
    destruct l as [|[k x] l]; [done|].
    inversion IH as [|? ? Hx IH']; subst.
    inversion Hdep as [|? ? Hdx Hdep']; subst. cbn [snd] in Hx, Hdx.
    cbn [fmap list_fmap memberTokens prod_map fst snd id app run step
         mbind option_bind].
    rewrite <- app_assoc, Hx by (unfold len in *; cbn; lia).
    cbn [deliver]. by rewrite Hmore.
Qed.

Lemma tokens_lexable j : writable j → Forall lexable (tokens j).
Proof.
  induction j as [|b|lit|s|l IH|l IH] using json_nested_ind; intros Hw;
    try (by repeat constructor); [by destruct b; repeat constructor|..].
  - rewrite tokens_array. constructor; [done|]. generalize true.
    cbn [writable] in Hw.
    induction IH as [|x l Hx _ IHl]; intros first;
      [by repeat constructor|].
    cbn in Hw. destruct Hw as [Hwx Hwl].
    cbn [fmap list_fmap elementTokens]. rewrite !Forall_app.
    split; [by destruct first; repeat constructor|].
    split; [by apply Hx | by apply IHl].
  - rewrite tokens_object. constructor; [done|]. generalize true.
    cbn [writable] in Hw.
    induction IH as [|[k x] l Hx _ IHl]; intros first;
      [by repeat constructor|].
    cbn in Hw. destruct Hw as (Hk & Hwx & Hwl).
    cbn [fmap list_fmap memberTokens prod_map fst snd id].
    rewrite !Forall_app.
    split; [by destruct first; repeat constructor|].
    constructor; [done|]. constructor; [done|]. rewrite Forall_app.
    split; [by apply Hx | by apply IHl].
Qed.

(** A value that the writer can write is read back from its indented
    text. *)
Lemma parse_renderIndent j :
  writable j → depth j ≤ maxNestingDepth →
  parse (renderIndent j) = Some j.
Proof.
  intros Hw Hd. unfold parse, renderIndent.
  rewrite lex_indent by by apply tokens_lexable. cbn [mbind option_bind].
  rewrite <- (app_nil_r (tokens j)), run_tokens by (unfold len; cbn; lia).
  done.
Qed.
End ParseFacts.

Section CodecFacts.
Import UTF8 JSON Codec.

Lemma writable_array l : writable (JArray l) ↔ Forall writable l.
Proof.
  cbn [writable]. induction l as [|x l IH]; cbn; [by split|].
  rewrite Forall_cons. tauto.
Qed.

Lemma writable_object l :
  writable (JObject l)
  ↔ Forall (λ m, ValidString m.1 = true ∧ writable m.2) l.
Proof.
  cbn [writable]. induction l as [|x l IH]; cbn; [by split|].
  rewrite Forall_cons. tauto.
Qed.

Lemma depth_array l d :
  0 ≤ d → Forall (λ x, depth x ≤ d) l → depth (JArray l) ≤ 1 + d.
Proof.
  intros Hd Hl. cbn [depth].
  cut (foldr (λ x d, Z.max (depth x) d) 0 l ≤ d); [lia|].
  induction Hl; cbn; lia.
Qed.

Lemma depth_object l d :
  0 ≤ d → Forall (λ m, depth m.2 ≤ d) l → depth (JObject l) ≤ 1 + d.
Proof.
  intros Hd Hl. cbn [depth].
  cut (foldr (λ m d, Z.max (depth m.2) d) 0 l ≤ d); [lia|].
  induction Hl; cbn; lia.
Qed.

Lemma sortedEntries_perm m : sortedEntries m ≡ₚ map_to_list m.
Proof. apply merge_sort_Permutation. Qed.

(** *** Reading back what was written *)

Lemma decElements_enc {A} (zero : A) dec (enc : A → json) l :
  Forall (λ x, dec zero (enc x) = (x, None)) l →
  decElements zero dec [] (enc <$> l) = (l, None).
Proof.
  induction 1 as [|x l Hx _ IH]; [done|].
  cbn [fmap list_fmap decElements hd tl]. by rewrite Hx, IH.
Qed.

Lemma decSlice_enc {A} (zero : A) dec (enc : A → json) s :
  Forall (λ x, dec zero (enc x) = (x, None)) (elems s) →
  decSlice zero dec None (encSlice enc s) = (s, None).
Proof.
  destruct s as [l|]; [|done]. intros Hl. cbn.
  by rewrite decElements_enc.
Qed.

Lemma foldl_decHeaderMember l acc :
  foldl decHeaderMember (acc, None) (prod_map id JString <$> l)
  = (list_to_map (reverse l) ∪ acc, None).
Proof.
  revert acc. induction l as [|[k v] l IH]; intros acc.
  - cbn. by rewrite (left_id_L ∅ (∪)).
  - cbn [fmap list_fmap foldl]. unfold decHeaderMember at 2.
    cbn [prod_map fst snd id decString firstError]. rewrite IH.
    rewrite reverse_cons, list_to_map_app. cbn [list_to_map foldr].
    cbn [fst snd]. rewrite <- (assoc_L (∪)). f_equal. f_equal.
    by rewrite <- insert_union_l, (left_id_L ∅ (∪)).
Qed.

Lemma decHeaders_enc h : decHeaders None (encHeaders h) = (h, None).
Proof.
  destruct h as [m|]; [|done]. cbn [encHeaders decHeaders default].
  rewrite foldl_decHeaderMember, (right_id_L ∅ (∪)).
  do 2 f_equal. symmetry. apply list_to_map_flip.
  by rewrite reverse_Permutation, sortedEntries_perm.
Qed.

Ltac eval_selects :=
  repeat match goal with
         | |- context [selects ?k ?n] =>
             let b := eval vm_compute in (selects k n) in
             change (selects k n) with b
         end.

Lemma decRequest_enc r :
  decRequest APIRequest.zero (encRequest r) = (r, None).
Proof.
  destruct r as [name method url headers body].
  unfold decRequest, decStruct, encRequest, APIRequest.zero.
  cbn [foldl fst snd APIRequest.Name APIRequest.Method APIRequest.URL
       APIRequest.Headers APIRequest.Body].
  unfold decRequestMember. eval_selects.
  cbn [decString firstError fst snd]. by rewrite decHeaders_enc.
Qed.

Lemma decCollection_enc c :
  decCollection Collection.zero (encCollection c) = (c, None).
Proof.
  destruct c as [name requests].
  unfold decCollection, decStruct, encCollection, Collection.zero.
  cbn [foldl fst snd Collection.Name Collection.Requests].
  unfold decCollectionMember. eval_selects.
  cbn [decString firstError fst snd].
  rewrite decSlice_enc; [done|].
  apply Forall_forall. intros r _. apply decRequest_enc.
Qed.

Lemma decWorkspace_enc w :
  decWorkspace Workspace.zero (encWorkspace w) = (w, None).
Proof.
  destruct w as [name collections].
  unfold decWorkspace, decStruct, encWorkspace, Workspace.zero.
  cbn [foldl fst snd Workspace.Name Workspace.Collections].
  unfold decWorkspaceMember. eval_selects.
  cbn [decString firstError fst snd].
  rewrite decSlice_enc; [done|].
  apply Forall_forall. intros c _. apply decCollection_enc.
Qed.

(** *** What is written can be read *)

Lemma encSlice_writable {A} (enc : A → json) (P : A → Prop) d s :
  0 ≤ d →
  (∀ x, P x → writable (enc x) ∧ depth (enc x) ≤ d) →
  Forall P (elems s) →
  writable (encSlice enc s) ∧ depth (encSlice enc s) ≤ 1 + d.
Proof.
  intros Hd Henc Hs. destruct s as [l|]; [|cbn; split; [done | lia]].
  cbn [encSlice elems default from_option] in *. split.
  - apply writable_array, Forall_fmap.
    eapply Forall_impl; [done|]. intros x Hx. by apply Henc.
  - apply depth_array; [done|]. apply Forall_fmap.
    eapply Forall_impl; [done|]. intros x Hx. by apply Henc.
Qed.

Lemma encHeaders_writable h :
  validHeaders h → writable (encHeaders h) ∧ depth (encHeaders h) ≤ 1.
Proof.
  destruct h as [m|]; [|cbn; split; [done | lia]]. intros Hm.
  cbn [encHeaders validHeaders] in *.
  assert (Forall (λ e, ValidString e.1 = true ∧ ValidString e.2 = true)
            (sortedEntries m)) as Hall.
  { rewrite sortedEntries_perm. apply Forall_forall.
    intros [k v] Hkv%elem_of_map_to_list. by apply (Hm k v). }
  split.
  - apply writable_object, Forall_fmap.
    eapply Forall_impl; [done|]. by intros [k v].
  - apply (depth_object _ 0); [done|]. apply Forall_fmap.
    eapply Forall_impl; [done|]. by intros [k v].
Qed.

Lemma encRequest_writable r :
  validRequest r → writable (encRequest r) ∧ depth (encRequest r) ≤ 2.
Proof.
  intros (Hn & Hm & Hu & Hh & Hb).
  destruct (encHeaders_writable _ Hh) as [Hw Hd]. split.
  - apply writable_object. by repeat constructor.
  - apply (depth_object _ 1); [done|].
    repeat constructor; cbn [snd depth]; lia.
Qed.

Lemma encCollection_writable c :
  validCollection c →
  writable (encCollection c) ∧ depth (encCollection c) ≤ 4.
Proof.
  intros (Hn & Hr).
  destruct (encSlice_writable encRequest validRequest 2
              (Collection.Requests c)) as [Hw Hd];
    [done | apply encRequest_writable | done |].
  split.
  - apply writable_object. by repeat constructor.
  - apply (depth_object _ 3); [done|].
    repeat constructor; cbn [snd depth]; lia.
Qed.

Lemma encWorkspace_writable w :
  validWorkspace w →
  writable (encWorkspace w) ∧ depth (encWorkspace w) ≤ 6.
Proof.
  intros (Hn & Hc).
  destruct (encSlice_writable encCollection validCollection 4
              (Workspace.Collections w)) as [Hw Hd];
    [done | apply encCollection_writable | done |].
  split.
  - apply writable_object. by repeat constructor.
  - apply (depth_object _ 5); [done|].
    repeat constructor; cbn [snd depth]; lia.
Qed.

(** A store document of valid UTF-8 is read back as it was. *)
Lemma Unmarshal_MarshalIndent workspaces :
  validStore workspaces →
  Unmarshal (MarshalIndent workspaces) = (workspaces, None).
Proof.
  intros Hv. unfold Unmarshal, MarshalIndent.
  destruct (encSlice_writable encWorkspace validWorkspace 6 workspaces)
    as [Hw Hd]; [done | apply encWorkspace_writable | done |].
  rewrite parse_renderIndent by (done || (unfold maxNestingDepth; lia)).
  apply decSlice_enc, Forall_forall. intros w _. apply decWorkspace_enc.
Qed.
End CodecFacts.

Section ShapeFacts.
Import JSON Codec StoreShape.

Lemma firstError_mismatch a b :
  firstError (mismatch a) (mismatch b) = mismatch (a && b).
Proof. by destruct a, b. Qed.

Lemma decString_error cur j : (decString cur j).2 = mismatch (stringShape j).
Proof. by destruct j. Qed.

Lemma decElements_error {A} (zero : A) dec shape elements :
  (∀ cur x, (dec cur x).2 = mismatch (shape x)) →
  ∀ cur, (decElements zero dec cur elements).2
         = mismatch (forallb shape elements).
Proof.
  intros Hdec. induction elements as [|x l IH]; intros cur; [done|].
  cbn [decElements forallb]. specialize (Hdec (hd zero cur) x).
  specialize (IH (tl cur)).
  destruct (dec _ x) as [y e], (decElements _ _ _ l) as [l' e'].
  cbn [snd] in *. subst. apply firstError_mismatch.
Qed.

Lemma decSlice_error {A} (zero : A) dec shape cur j :
  (∀ cur x, (dec cur x).2 = mismatch (shape x)) →
  (decSlice zero dec cur j).2 = mismatch (sliceShape shape j).
Proof.
  intros Hdec. destruct j as [| | | | elements |]; try done.
  cbn [decSlice sliceShape].
  pose proof (decElements_error zero dec shape elements Hdec (elems cur)).
  by destruct (decElements _ _ _ elements).
Qed.

Lemma decStruct_error {A} (member : A → bytes → json → A * option error)
    shape cur j :
  (∀ cur k v, (member cur k v).2 = mismatch (shape k v)) →
  (decStruct member cur j).2 = mismatch (objectShape shape j).
Proof.
  intros Hm. destruct j as [| | | | |members]; try done.
  cbn [decStruct objectShape].
  change None with (mismatch true) at 1.
  rewrite <- (andb_true_l (forallb _ members)).
  generalize true. revert cur.
  induction members as [|[k v] l IH]; intros cur b.
  - cbn. by rewrite andb_true_r.
  - cbn [foldl forallb fst snd]. specialize (Hm cur k v).
    destruct (member cur k v) as [x e]. cbn [snd] in Hm. subst e.
    rewrite firstError_mismatch, IH. by rewrite andb_assoc.
Qed.

Lemma decHeaders_error cur j : (decHeaders cur j).2 = mismatch (headersShape j).
Proof.
  destruct j as [| | | | |members]; try done.
  cbn [decHeaders headersShape objectShape].
  generalize (default (∅ : gmap bytes bytes) cur). intros m.
  change None with (mismatch true) at 1.
  rewrite <- (andb_true_l (forallb _ members)).
  generalize true. revert m.
  induction members as [|[k v] l IH]; intros m b.
  - cbn. by rewrite andb_true_r.
  - cbn [foldl forallb fst snd]. unfold decHeaderMember at 2.
    pose proof (decString_error [] v) as Hv. cbn [fst snd] in *.
    destruct (decString [] v) as [s e]. cbn [snd] in Hv. subst e.
    specialize (IH (<[k:=s]> m) (b && stringShape v)).
    rewrite firstError_mismatch.
    destruct (foldl _ _ l) as [m' e'] eqn:Hl in IH |- *.
    by rewrite andb_assoc.
Qed.

Ltac member_cases :=
  repeat match goal with
         | |- context [selects ?k ?n] => destruct (selects k n)
         end.

Lemma decRequestMember_error r k v :
  (decRequestMember r k v).2 = mismatch (requestMember k v).
Proof.
  destruct r as [name method url headers body].
  unfold decRequestMember, requestMember.
  pose proof (decString_error name v). pose proof (decString_error method v).
  pose proof (decString_error url v). pose proof (decString_error body v).
  pose proof (decHeaders_error headers v).
  destruct (decString name v), (decString method v), (decString url v),
    (decString body v), (decHeaders headers v).
  by member_cases.
Qed.

Lemma decRequest_error cur j :
  (decRequest cur j).2 = mismatch (requestShape j).
Proof. apply decStruct_error, decRequestMember_error. Qed.

Lemma decCollectionMember_error c k v :
  (decCollectionMember c k v).2 = mismatch (collectionMember k v).
Proof.
  destruct c as [name requests].
  unfold decCollectionMember, collectionMember.
  pose proof (decString_error name v).
  pose proof (decSlice_error APIRequest.zero decRequest requestShape
                requests v decRequest_error).
  destruct (decString name v), (decSlice _ _ requests v).
  by member_cases.
Qed.

Lemma decCollection_error cur j :
  (decCollection cur j).2 = mismatch (collectionShape j).
Proof. apply decStruct_error, decCollectionMember_error. Qed.

Lemma decWorkspaceMember_error w k v :
  (decWorkspaceMember w k v).2 = mismatch (workspaceMember k v).
Proof.
  destruct w as [name collections].
  unfold decWorkspaceMember, workspaceMember.
  pose proof (decString_error name v).
  pose proof (decSlice_error Collection.zero decCollection collectionShape
                collections v decCollection_error).
  destruct (decString name v), (decSlice _ _ collections v).
  by member_cases.
Qed.

Lemma decWorkspace_error cur j :
  (decWorkspace cur j).2 = mismatch (workspaceShape j).
Proof. apply decStruct_error, decWorkspaceMember_error. Qed.

(** The error of [Unmarshal], from the text. *)
Lemma Unmarshal_error data :
  (Unmarshal data).2
  = match parse data with
    | None => Some SyntaxError
    | Some j => mismatch (fitsStore j)
    end.
Proof.
  unfold Unmarshal. destruct (parse data) as [j|]; [|done].
  apply decSlice_error, decWorkspace_error.
Qed.
End ShapeFacts.

Section SyncFacts.
Import Store StoreMore.

(** What an operation needs of the state before, and keeps: the file
    holds what is in memory, and it can be written. *)
Local Abbreviation kept a := (synced a ∧ writeFails (disk a) = false).

Lemma save_synced a :
  writeFails (disk a) = false → kept (save a).1.
Proof.
  intros Hw. unfold save, saveWorkspaces, synced. rewrite Hw. cbn.
  split; [by left | done].
Qed.

Lemma kept_selection a s i :
  kept a → kept (set_collectionIdx i (set_selected s a)).
Proof. done. Qed.

(** The selection callbacks change neither the workspaces nor the
    file. *)
Lemma collectionChanged_store selected a :
  workspaces (collectionChanged selected a) = workspaces a
  ∧ disk (collectionChanged selected a) = disk a
  ∧ workspaceSelect_Selected (collectionChanged selected a)
    = workspaceSelect_Selected a.
Proof.
  unfold collectionChanged. destruct (decide _); [done|].
  destruct (_ !! _); [|done]. by destruct (decide _).
Qed.

Lemma workspaceChanged_store selected a :
  workspaces (workspaceChanged selected a) = workspaces a
  ∧ disk (workspaceChanged selected a) = disk a
  ∧ workspaceSelect_Selected (workspaceChanged selected a) = selected.
Proof.
  unfold workspaceChanged. destruct (decide _); [done|].
  destruct (decide _); [|done].
  by destruct (collectionChanged_store []
                 (set_collectionIdx (-1) (set_selected selected a)))
    as (-> & -> & ->).
Qed.

Lemma workspaceChanged_kept selected a :
  kept a → kept (workspaceChanged selected a).
Proof.
  unfold synced.
  by destruct (workspaceChanged_store selected a) as (-> & -> & _).
Qed.

Lemma createNewWorkspace_kept ok text a :
  kept a → kept (createNewWorkspace ok text a).
Proof.
  intros [Hs Hw]. unfold createNewWorkspace.
  destruct (decide _); [done|].
  set (a1 := set_workspaces _ a).
  pose proof (save_synced a1 Hw) as Hk.
  destruct (save a1) as [a2 saved]. cbn in Hk.
  destruct saved; [|done]. by apply workspaceChanged_kept.
Qed.

Lemma appendCollectionAt_kept i col guarded a :
  kept a → kept (appendCollectionAt i col guarded a).
Proof.
  intros [Hs Hw]. unfold appendCollectionAt.
  set (a1 := set_workspaces _ a).
  pose proof (save_synced a1 Hw) as Hk.
  destruct (save a1) as [a2 saved]. cbn in Hk.
  destruct (saved || negb guarded); [|done].
  by destruct (elems (workspaces a2) !! i).
Qed.

Lemma forEachNamed_kept col guarded a :
  kept a → kept (forEachNamed col guarded a).
Proof.
  unfold forEachNamed. generalize (seq 0 (length (elems (workspaces a)))).
  intros l. revert a. induction l as [|i l IH]; intros a Hk; [done|].
  cbn [foldl]. apply IH.
  destruct (elems (workspaces a) !! i); [|done].
  destruct (decide _); [|done]. by apply appendCollectionAt_kept.
Qed.

Lemma updated_saved_kept w c f a :
  kept a → kept (save (updateRequests w c f a)).1.
Proof. intros [_ Hw]. by apply save_synced. Qed.

Lemma apply_kept op a a' : kept a → apply op a = Some a' → kept a'.
Proof.
  intros Hk. destruct op; cbn.
  - intros [= <-]. by apply createNewWorkspace_kept.
  - intros [= <-]. unfold createNewCollection.
    repeat (destruct (decide _); [done|]). by apply forEachNamed_kept.
  - intros [= <-]. rewrite saveRequest_selected.
    destruct (selectedCollection a) as [[w c]|]; [|done].
    by apply updated_saved_kept.
  - unfold editRequestName.
    destruct (selectedCollection a) as [[w c]|]; [|by intros [= <-]].
    destruct (decide _); [by intros [= <-]|].
    destruct (index _ _); [|done]. cbn.
    destruct (decide _); intros [= <-]; [done|].
    by apply updated_saved_kept.
  - unfold deleteRequest.
    destruct (selectedCollection a) as [[w c]|]; [|by intros [= <-]].
    destruct (decide _); [by intros [= <-]|].
    destruct (index _ _); [|done]. cbn.
    destruct confirmed; [|by intros [= <-]].
    destruct (slice _ 0 _); [|done]. cbn.
    destruct (slice _ _ _); [|done]. cbn. intros [= <-].
    by apply updated_saved_kept.
  - intros [= <-]. unfold importPostmanJSON.
    destruct payload; [|done]. destruct (decide _); [done|].
    by apply forEachNamed_kept.
  - intros [= <-]. by apply workspaceChanged_kept.
  - intros [= <-]. unfold collectionChanged.
    destruct (decide _); [done|]. destruct (_ !! _); [|done].
    by destruct (decide _).
  - by intros [= <-].
Qed.

Lemma applyAll_kept ops :
  ∀ a a', kept a → applyAll ops a = Some a' → kept a'.
Proof.
  induction ops as [|op ops IH]; intros a a' Hk; cbn.
  - by intros [= <-].
  - destruct (apply op a) as [a1|] eqn:Ha; [|done]. cbn.
    apply IH. by eapply apply_kept.
Qed.

(** What is in the file is read back as what is in memory. *)
Lemma synced_reloads a :
  synced a → readFails (disk a) = false →
  Codec.validStore (workspaces a) →
  loadWorkspaces (disk a) = (workspaces a, None).
Proof.
  intros [Hf|[Hf Hw]] Hr Hv; unfold loadWorkspaces; rewrite Hf.
  - rewrite Hr. by apply Unmarshal_MarshalIndent.
  - by rewrite Hw.
Qed.
End SyncFacts.

Section UpdateFacts.
Import Store StoreMore.

Lemma requestsAt_update_ne w c f a w' c' :
  (w', c') ≠ (w, c) →
  requestsAt w' c' (updateRequests w c f a) = requestsAt w' c' a.
Proof.
  intros Hne. unfold requestsAt, updateRequests.
  cbn [workspaces set_workspaces elems default from_option id].
  destruct (decide (w' = w)) as [->|Hw].
  - rewrite list_lookup_alter_eq.
    destruct (elems (workspaces a) !! w) as [ws|]; cbn; [|done].
    rewrite list_lookup_alter_ne; [done|]. congruence.
  - by rewrite list_lookup_alter_ne.
Qed.

Lemma collectionNames_update w c f a :
  collectionNames (updateRequests w c f a) = collectionNames a.
Proof.
  unfold collectionNames, updateRequests.
  cbn [workspaces set_workspaces elems default from_option id].
  rewrite (list_fmap_alter _ _ id), list_alter_id; [done..|].
  apply Forall_forall. intros ws _. unfold withCollections. cbn.
  f_equal. rewrite (list_fmap_alter _ _ id), list_alter_id; [done..|].
  by apply Forall_forall.
Qed.

Lemma collectionNames_save a :
  collectionNames (save a).1 = collectionNames a.
Proof. unfold collectionNames. by rewrite save_workspaces. Qed.

Lemma index_Some {A} (l : list A) i :
  0 ≤ i < len l → ∃ x, index l i = Some x ∧ l !! Z.to_nat i = Some x.
Proof.
  intros Hi. unfold index. rewrite decide_True by lia.
  destruct (l !! Z.to_nat i) as [x|] eqn:E; [by eauto|].
  apply lookup_ge_None in E. unfold len in Hi. lia.
Qed.
Lemma editRequestName_inside a w c reqIdx ok text :
  selectedCollection a = Some (w, c) →
  0 ≤ reqIdx < len (requestsAt w c a) →
  editRequestName reqIdx ok text a
  = if decide (ok = false ∨ text = []) then Some a
    else Some (save (updateRequests w c
                       (alter (rename text) (Z.to_nat reqIdx)) a)).1.
Proof.
  intros Hsel Hi. unfold editRequestName. rewrite Hsel.
  rewrite decide_False by lia.
  by destruct (index_Some _ reqIdx Hi) as (r & -> & _).
Qed.

Lemma deleteRequest_inside a w c reqIdx confirmed :
  selectedCollection a = Some (w, c) →
  0 ≤ reqIdx < len (requestsAt w c a) →
  deleteRequest reqIdx confirmed a
  = if confirmed
    then Some (save (updateRequests w c
                       (λ _, take (Z.to_nat reqIdx) (requestsAt w c a)
                             ++ drop (S (Z.to_nat reqIdx))
                                  (requestsAt w c a)) a)).1
    else Some a.
Proof.
  intros Hsel Hi. unfold deleteRequest. rewrite Hsel.
  rewrite decide_False by lia.
  destruct (index_Some _ reqIdx Hi) as (r & -> & _).
  cbn [mbind option_bind]. destruct confirmed; [|done].
  rewrite slice_to, slice_from by lia. cbn [mbind option_bind].
  by replace (Z.to_nat (reqIdx + 1)) with (S (Z.to_nat reqIdx)) by lia.
Qed.
End UpdateFacts.

Section ListFacts.
Import Store StoreMore.

(** Past the workspaces with other names, the rows are those of the
    first workspace with the name, when it has the collection. *)
Lemma rowsIn_first name idx l w ws :
  l !! w = Some ws →
  Workspace.Name ws = name →
  (∀ j ws', (j < w)%nat → l !! j = Some ws' → Workspace.Name ws' ≠ name) →
  idx < len (elems (Workspace.Collections ws)) →
  rowsIn name idx l
  = c ← index (elems (Workspace.Collections ws)) idx;
    Some (len (elems (Collection.Requests c))).
Proof.
  revert w. induction l as [|ws0 l IH]; intros [|w] Hw Hn Hmin Hidx;
    cbn in Hw; try done.
  - injection Hw as ->. cbn. by rewrite !decide_True.
  - cbn. rewrite decide_False by (apply (Hmin 0%nat); [lia | done]).
    apply (IH w); try done.
    intros j ws' Hj. apply (Hmin (S j)). lia.
Qed.

Lemma rowsIn_total name idx l :
  0 ≤ idx → ∃ n, rowsIn name idx l = Some n ∧ 0 ≤ n.
Proof.
  intros Hidx. induction l as [|ws l IH]; cbn; [by exists 0|].
  destruct (decide _); [|done]. destruct (decide _); [|done].
  destruct (index_Some (elems (Workspace.Collections ws)) idx)
    as (c & -> & _); [lia|].
  cbn. eexists. split; [done|]. apply len_nonneg.
Qed.

Lemma findCollection_first name l i0 :
  let k := findCollection name l i0 in
  (k = -1 ∧ Forall (λ col, Collection.Name col ≠ name) l)
  ∨ (i0 ≤ k
     ∧ (∃ col, l !! Z.to_nat (k - i0) = Some col
               ∧ Collection.Name col = name)
     ∧ ∀ j col, (j < Z.to_nat (k - i0))%nat → l !! j = Some col →
                Collection.Name col ≠ name).
Proof.
  revert i0. induction l as [|col l IH]; intros i0; cbn.
  - left. by split.
  - destruct (decide (Collection.Name col = name)) as [He|Hne].
    + right. split; [lia|]. rewrite Z.sub_diag. cbn.
      split; [by exists col|]. intros; lia.
    + destruct (IH (i0 + 1)) as [[Hk Hall]|(Hle & (c' & Hl & Hn) & Hmin)].
      * left. split; [done|]. by constructor.
      * right. split; [lia|].
        replace (Z.to_nat (findCollection name l (i0 + 1) - i0))
          with (S (Z.to_nat (findCollection name l (i0 + 1) - (i0 + 1))))
          by lia.
        split; [by exists c'|].
        intros [|j] c0 Hj Hl0; cbn in Hl0; [by injection Hl0 as <-|].
        apply (Hmin j); [lia | done].
Qed.

Lemma selectedCollection_idx a w c :
  selectedCollection a = Some (w, c) →
  0 ≤ selectedCollectionIdx a ∧ c = Z.to_nat (selectedCollectionIdx a)
  ∧ workspaceSelect_Selected a ≠ []
  ∧ workspaceSelect_Selected a ≠ newWorkspaceOption
  ∧ findWorkspace (workspaceSelect_Selected a) (elems (workspaces a)) 0
    = Z.of_nat w.
Proof.
  unfold selectedCollection. destruct (decide _) as [|Hg]; [done|].
  set (k := findWorkspace _ _ 0) in *.
  pose proof (findWorkspace_first (workspaceSelect_Selected a)
                (elems (workspaces a)) 0) as Hf. cbn zeta in Hf.
  fold k in Hf.
  destruct (_ !! Z.to_nat k) as [ws|]; [|done].
  destruct (decide _) as [|Hc]; [done|]. intros [= <- <-].
  destruct Hf as [[? _]|[? _]]; [tauto|].
  repeat split; try tauto; lia.
Qed.
Lemma findWorkspace_is name l w ws i0 :
  l !! w = Some ws →
  Workspace.Name ws = name →
  (∀ j ws', (j < w)%nat → l !! j = Some ws' → Workspace.Name ws' ≠ name) →
  findWorkspace name l i0 = i0 + Z.of_nat w.
Proof.
  revert w i0. induction l as [|ws0 l IH]; intros [|w] i0 Hw Hn Hmin;
    cbn in Hw; try done.
  - injection Hw as ->. cbn. rewrite decide_True by done. lia.
  - cbn. rewrite decide_False by (apply (Hmin 0%nat); [lia | done]).
    rewrite (IH w (i0 + 1)); [lia | done | done |].
    intros j ws' Hj. apply (Hmin (S j)). lia.
Qed.

Lemma selectedCollection_intro a w ws :
  workspaceSelect_Selected a ≠ [] →
  workspaceSelect_Selected a ≠ newWorkspaceOption →
  elems (workspaces a) !! w = Some ws →
  Workspace.Name ws = workspaceSelect_Selected a →
  (∀ j ws', (j < w)%nat → elems (workspaces a) !! j = Some ws' →
            Workspace.Name ws' ≠ workspaceSelect_Selected a) →
  0 ≤ selectedCollectionIdx a < len (elems (Workspace.Collections ws)) →
  selectedCollection a = Some (w, Z.to_nat (selectedCollectionIdx a)).
Proof.
  intros H1 H2 Hw Hn Hmin Hidx. unfold selectedCollection.
  rewrite decide_False by (intros [?|[?|?]]; [done | done | lia]).
  rewrite (findWorkspace_is _ _ w ws 0) by done.
  rewrite Z.add_0_l, Nat2Z.id, Hw.
  rewrite decide_False by lia. done.
Qed.
End ListFacts.

Section LoadFacts.
Import Store StoreMore.
Context (order : gmap bytes bytes → list (bytes * bytes)).

Local Abbreviation pass :=
  (λ id (acc : option App) ws, a' ← acc; selectIn order id a' ws).

Lemma selectIn_selection id a ws a' :
  selectIn order id a ws = Some a' →
  workspaceSelect_Selected a' = workspaceSelect_Selected a
  ∧ selectedCollectionIdx a' = selectedCollectionIdx a
  ∧ workspaces a' = workspaces a.
Proof.
  unfold selectIn. destruct (decide _); [|by intros [= <-]].
  destruct (decide _); [|by intros [= <-]].
  destruct (index _ _); [|done]. cbn.
  destruct (decide _); [|by intros [= <-]].
  destruct (index _ _); [|done]. cbn. by intros [= <-].
Qed.

Lemma select_other_names id l a :
  Forall (λ ws, Workspace.Name ws ≠ workspaceSelect_Selected a) l →
  foldl (pass id) (Some a) l = Some a.
Proof.
  induction 1 as [|ws l Hws _ IH]; [done|]. cbn.
  unfold selectIn at 2. by rewrite decide_False.
Qed.

Lemma select_panicked id l : foldl (pass id) None l = None.
Proof. by induction l. Qed.

(** With one workspace of the selected name, [requestList.OnSelected]
    looks at that workspace only. *)
Lemma requestSelected_unique id a w ws :
  elems (workspaces a) !! w = Some ws →
  (∀ j ws', elems (workspaces a) !! j = Some ws' →
            Workspace.Name ws' = workspaceSelect_Selected a → j = w) →
  requestSelected order id a = selectIn order id a ws.
Proof.
  intros Hw Huniq. unfold requestSelected.
  rewrite <- (take_drop_middle _ _ _ Hw), foldl_app. cbn [foldl].
  rewrite select_other_names.
  2:{ apply Forall_forall. intros ws' [j Hj]%list_elem_of_lookup He.
      pose proof (lookup_lt_Some _ _ _ Hj) as Hlt.
      rewrite length_take in Hlt.
      rewrite lookup_take_lt in Hj by lia.
      specialize (Huniq j ws' Hj He). lia. }
  cbn [mbind option_bind].
  destruct (selectIn order id a ws) as [a'|] eqn:Hsel;
    [|apply select_panicked].
  destruct (selectIn_selection _ _ _ _ Hsel) as (Hs & _ & _).
  apply select_other_names, Forall_forall.
  intros ws' [j Hj]%list_elem_of_lookup He. rewrite Hs in He.
  rewrite lookup_drop in Hj. specialize (Huniq _ ws' Hj He). lia.
Qed.

(** The workspace that [saveReqBtn] has changed. *)
Lemma saveRequest_workspace a w c :
  selectedCollection a = Some (w, c) →
  ∃ ws col,
    elems (workspaces a) !! w = Some ws
    ∧ elems (Workspace.Collections ws) !! c = Some col
    ∧ elems (workspaces (saveRequest a)) !! w
      = Some (Workspace.mk (Workspace.Name ws)
                (Some (<[c := Collection.mk (Collection.Name col)
                                (Some (elems (Collection.Requests col)
                                       ++ [composedRequest a]))]>
                         (elems (Workspace.Collections ws))))).
Proof.
  intros Hsel.
  destruct (selectedCollection_Some _ _ _ Hsel) as (ws & Hw & [col Hc] & _).
  exists ws, col. split; [done|]. split; [done|].
  rewrite saveRequest_selected, Hsel, save_workspaces.
  unfold updateRequests.
  cbn [workspaces set_workspaces elems default from_option id].
  fold (elems (workspaces a)). rewrite list_lookup_alter_eq, Hw. cbn.
  unfold withCollections. do 3 f_equal. apply list_eq. intros i.
  destruct (decide (i = c)) as [->|Hne].
  - rewrite list_lookup_alter_eq, list_lookup_insert_eq, Hc;
      [done | by apply lookup_lt_Some in Hc].
  - by rewrite list_lookup_alter_ne, list_lookup_insert_ne.
Qed.

Lemma saveRequest_names a j :
  Workspace.Name <$> elems (workspaces (saveRequest a)) !! j
  = Workspace.Name <$> elems (workspaces a) !! j.
Proof.
  rewrite saveRequest_selected.
  destruct (selectedCollection a) as [[w c]|]; [|done].
  rewrite save_workspaces. unfold updateRequests.
  cbn [workspaces set_workspaces elems default from_option id].
  fold (elems (workspaces a)).
  destruct (decide (j = w)) as [->|Hne].
  - rewrite list_lookup_alter_eq. by destruct (_ !! w).
  - by rewrite list_lookup_alter_ne.
Qed.

(** The picker of [loadReqBtn] leaves the last request with the name in
    the form. *)
Lemma pickRequest_last sel l1 r l2 a :
  APIRequest.Name r = sel →
  Forall (λ r', APIRequest.Name r' ≠ sel) l2 →
  pickRequest order sel (l1 ++ r :: l2) a
  = loadInto order r (pickRequest order sel l1 a).
Proof.
  intros Hr Hl2. unfold pickRequest. rewrite foldl_app. cbn [foldl].
  rewrite decide_True by done.
  generalize (loadInto order r
                (foldl (λ acc r0, if decide (APIRequest.Name r0 = sel)
                                  then loadInto order r0 acc else acc)
                   a l1)).
  induction Hl2 as [|r' l2 Hr' _ IH]; intros acc; [done|]. cbn.
  by rewrite decide_False.
Qed.

Lemma pickRequest_none sel l a :
  Forall (λ r', APIRequest.Name r' ≠ sel) l → pickRequest order sel l a = a.
Proof.
  unfold pickRequest. induction 1 as [|r' l Hr' _ IH]; [done|]. cbn.
  by rewrite decide_False.
Qed.
Lemma pickRequest_workspaces sel l a :
  workspaces (pickRequest order sel l a) = workspaces a.
Proof.
  unfold pickRequest. revert a. induction l as [|r l IH]; intros a; [done|].
  cbn [foldl]. rewrite IH. by destruct (decide _).
Qed.

Lemma saveRequest_touches_one_collection_facts a :
  workspaceSelect_Selected (saveRequest a) = workspaceSelect_Selected a
  ∧ selectedCollectionIdx (saveRequest a) = selectedCollectionIdx a.
Proof.
  rewrite saveRequest_selected.
  destruct (selectedCollection a) as [[w c]|]; [|done].
  by destruct (save_form (updateRequests w c
                 (λ l, l ++ [composedRequest a]) a)) as (_ & -> & ->).
Qed.
End LoadFacts.

Section NameFacts.
Import Store StoreMore.

Lemma workspaceNames_save a : workspaceNames (save a).1 = workspaceNames a.
Proof. unfold workspaceNames. by rewrite save_workspaces. Qed.

Lemma workspaceNames_update w c f a :
  workspaceNames (updateRequests w c f a) = workspaceNames a.
Proof.
  unfold workspaceNames, updateRequests.
  cbn [workspaces set_workspaces elems default from_option id].
  rewrite (list_fmap_alter _ _ id), list_alter_id; [done..|].
  by apply Forall_forall.
Qed.

Lemma workspaceNames_append i col guarded a :
  workspaceNames (appendCollectionAt i col guarded a) = workspaceNames a.
Proof.
  unfold appendCollectionAt.
  set (a1 := set_workspaces _ a).
  assert (workspaceNames a1 = workspaceNames a) as H1.
  { unfold workspaceNames, a1.
    cbn [workspaces set_workspaces elems default from_option id].
    rewrite (list_fmap_alter _ _ id), list_alter_id; [done..|].
    by apply Forall_forall. }
  pose proof (workspaceNames_save a1) as H2.
  destruct (save a1) as [a2 saved]. cbn [fst] in H2.
  destruct (saved || negb guarded); [|congruence].
  destruct (elems (workspaces a2) !! i);
    [change (workspaceNames a2 = workspaceNames a)|]; congruence.
Qed.

Lemma workspaceNames_forEachNamed col guarded a :
  workspaceNames (forEachNamed col guarded a) = workspaceNames a.
Proof.
  unfold forEachNamed. generalize (seq 0 (length (elems (workspaces a)))).
  intros l. revert a. induction l as [|i l IH]; intros a; [done|].
  cbn [foldl]. rewrite IH.
  destruct (elems (workspaces a) !! i); [|done].
  destruct (decide _); [|done]. apply workspaceNames_append.
Qed.

Lemma workspaceNames_create ok text a :
  workspaceNames (createNewWorkspace ok text a)
  = workspaceNames a ++ acceptedNames [NewWorkspace ok text].
Proof.
  unfold createNewWorkspace, acceptedNames. cbn [omap list_omap].
  destruct (decide (ok = false ∨ text = [])) as [[-> | ->] | Hno].
  - by rewrite app_nil_r.
  - destruct ok; by rewrite app_nil_r.
  - destruct ok; [|tauto]. rewrite decide_False by tauto.
    set (a1 := set_workspaces _ a).
    assert (workspaceNames a1 = workspaceNames a ++ [text]) as H1.
    { unfold workspaceNames, a1, append. cbn. by rewrite fmap_app. }
    pose proof (workspaceNames_save a1) as H2.
    destruct (save a1) as [a2 saved]. cbn [fst] in H2.
    rewrite <- H1, <- H2. destruct saved; [|done].
    unfold workspaceNames.
    by destruct (workspaceChanged_store text a2) as (-> & _).
Qed.

Lemma apply_names op a a' :
  apply op a = Some a' →
  workspaceNames a' = workspaceNames a ++ acceptedNames [op].
Proof.
  destruct op; cbn [apply];
    try (intros [= <-]; first [ apply workspaceNames_create
                              | rewrite app_nil_r ]).
  - unfold createNewCollection.
    repeat (destruct (decide _); [done|]).
    apply workspaceNames_forEachNamed.
  - rewrite saveRequest_selected.
    destruct (selectedCollection a) as [[w c]|]; [|done].
    by rewrite workspaceNames_save, workspaceNames_update.
  - unfold editRequestName.
    destruct (selectedCollection a) as [[w c]|];
      [|intros [= <-]; by rewrite app_nil_r].
    destruct (decide _); [intros [= <-]; by rewrite app_nil_r|].
    destruct (index _ _); [|done]. cbn.
    destruct (decide _); intros [= <-]; rewrite app_nil_r; [done|].
    by rewrite workspaceNames_save, workspaceNames_update.
  - unfold deleteRequest.
    destruct (selectedCollection a) as [[w c]|];
      [|intros [= <-]; by rewrite app_nil_r].
    destruct (decide _); [intros [= <-]; by rewrite app_nil_r|].
    destruct (index _ _); [|done]. cbn.
    destruct confirmed; [|intros [= <-]; by rewrite app_nil_r].
    destruct (slice _ 0 _); [|done]. cbn.
    destruct (slice _ _ _); [|done]. cbn. intros [= <-].
    by rewrite app_nil_r, workspaceNames_save, workspaceNames_update.
  - unfold importPostmanJSON.
    destruct payload; [|done]. destruct (decide _); [done|].
    apply workspaceNames_forEachNamed.
  - unfold workspaceChanged.
    destruct (decide _); [done|]. destruct (decide _); [|done].
    unfold collectionChanged. destruct (decide _); [done|].
    cbn. destruct (_ !! _); [|done]. by destruct (decide _).
  - unfold collectionChanged.
    destruct (decide _); [done|]. destruct (_ !! _); [|done].
    by destruct (decide _).
  - done.
Qed.

Lemma acceptedNames_cons op ops :
  acceptedNames (op :: ops) = acceptedNames [op] ++ acceptedNames ops.
Proof.
  unfold acceptedNames. cbn [omap list_omap].
  by destruct (match op with NewWorkspace _ _ => _ | _ => _ end).
Qed.

Lemma applyAll_names ops :
  ∀ a a', applyAll ops a = Some a' →
          workspaceNames a' = workspaceNames a ++ acceptedNames ops.
Proof.
  induction ops as [|op ops IH]; intros a a'; cbn [applyAll].
  - intros [= <-]. by rewrite app_nil_r.
  - destruct (apply op a) as [a1|] eqn:Ha; [|done].
    cbn [mbind option_bind].
    intros Hrest. rewrite (IH _ _ Hrest), (apply_names _ _ _ Ha).
    by rewrite (acceptedNames_cons op ops), app_assoc.
Qed.

Lemma foldl_insert_lookup (l : list (bytes * bytes)) :
  ∀ (m : gmap bytes bytes) k,
    foldl (λ (m : gmap bytes bytes) h, <[h.1 := h.2]> m) m l !! k
    = match last (filter (λ h, h.1 = k) l) with
      | Some h => Some h.2
      | None => m !! k
      end.
Proof.
  induction l as [|h l IH]; intros m k; [done|]. cbn [foldl].
  rewrite IH, filter_cons.
  destruct (decide (h.1 = k)) as [<-|Hne].
  - rewrite last_cons.
    destruct (last (filter _ l)); [done|]. by rewrite lookup_insert_eq.
  - destruct (last (filter _ l)); [done|]. by rewrite lookup_insert_ne.
Qed.

Lemma importCollection_requests items0 reqs :
  elems (foldl (λ reqs item, append reqs (importRequest item)) reqs items0)
  = elems reqs ++ (importRequest <$> items0).
Proof.
  revert reqs. induction items0 as [|item l IH]; intros reqs;
    cbn [foldl fmap list_fmap].
  - by rewrite app_nil_r.
  - rewrite IH. unfold append, elems. cbn. by rewrite <- app_assoc.
Qed.

Lemma loadRequest_selected order sel a w c :
  selectedCollection a = Some (w, c) →
  loadRequest order sel a
  = if decide (len (requestsAt w c a) = 0) then a
    else pickRequest order sel (requestsAt w c a) a.
Proof.
  intros Hsel.
  destruct (selectedCollection_Some _ _ _ Hsel) as (ws & Hw & [col Hc] & _).
  destruct (selectedCollection_idx _ _ _ Hsel) as (Hi & -> & H1 & H2 & Hf).
  unfold loadRequest. rewrite decide_False by (intros [?|?]; [done | lia]).
  rewrite Hf, Nat2Z.id, Hw.
  pose proof (lookup_lt_Some _ _ _ Hc) as Hlt.
  rewrite decide_False by (unfold len; lia).
  rewrite Hc. unfold requestsAt. by rewrite Hw, Hc.
Qed.
End NameFacts.

Section RereadFacts.
Import UTF8 JSON Reread.

Lemma quoteFrom_invalid s :
  s ≠ [] → runeLen s = 0%nat →
  quoteFrom 0 s = (backslash :: str "ufffd") ++ quoteFrom 0 (drop 1 s).
Proof.
  destruct s as [|a s]; [done|]. intros _ Hr.
  cbn [quoteFrom drop]. unfold quoteRune. rewrite Hr.
  destruct (isASCII a) eqn:Ha; [by cbn in Hr; rewrite Ha in Hr|].
  by rewrite drop_0.
Qed.

(** Whatever the bytes of a string, what the writer puts for it is a
    string literal for the scanner. *)
Lemma quoted_scans s :
  ∀ rest, scanString 0 (quoteFrom 0 s ++ quoteChar :: rest)
          = Some (length (quoteFrom 0 s)).
Proof.
  remember (length s) as n eqn:Hn. revert s Hn.
  induction n as [n IH] using lt_wf_ind. intros s -> rest.
  destruct s as [|a s1] eqn:Hs; [cbn; by rewrite decide_True|].
  rewrite <- Hs in *. assert (s ≠ []) as Hne by (by rewrite Hs).
  destruct (runeLen s) as [|k] eqn:Hr.
  - rewrite quoteFrom_invalid by done.
    specialize (IH (length (drop 1 s))).
    rewrite <- app_assoc, length_app.
    rewrite (scanString_step _ 5 (length (quoteFrom 0 (drop 1 s))));
      [done | done | done |].
    cbn [app drop]. apply IH; [|done].
    rewrite length_drop, Hs. cbn [length]. lia.
  - rewrite (quoteFrom_rune _ _ Hr), <- app_assoc, length_app.
    destruct (quoteRune_reads s k
                (quoteFrom 0 (drop (S k) s) ++ quoteChar :: rest) Hr)
      as [H1 _].
    apply H1.
    apply (IH (length (drop (S k) s))); [|done].
    rewrite Hs. cbn. rewrite length_drop. lia.
Qed.

Lemma lexToken_word t rest :
  wordToken t →
  lexToken (tokenText t ++ rest)
  = Some (rereadToken t, length (tokenText t)).
Proof.
  destruct t; try done. intros _.
  cbn [tokenText rereadToken]. unfold quote, rereadString.
  cbn [app lexToken punctuation].
  rewrite <- app_assoc. cbn [app].
  assert (punctuation quoteChar = None) as -> by done.
  rewrite decide_True by done. rewrite quoted_scans. cbn.
  rewrite take_app_length. do 3 f_equal. rewrite length_app. cbn. lia.
Qed.

Lemma wordToken_head t :
  wordToken t → ∃ c, head (tokenText t) = Some c ∧ isSpace c = false.
Proof. destruct t; try done; intros _; by eexists. Qed.

Lemma lex_word t rest l :
  wordToken t → lex 0 rest = Some l →
  lex 0 (tokenText t ++ rest) = Some (rereadToken t :: l).
Proof.
  intros Ht Hl. apply lex_token; [|by apply lexToken_word|done].
  by apply wordToken_head.
Qed.

(** The indented text has the tokens it was written from, with the
    strings as they are read. *)
Lemma lex_indent_words l :
  Forall wordToken l →
  ∀ needIndent d,
    lex 0 (indentLoop needIndent d l) = Some (rereadToken <$> l).
Proof.
  induction 1 as [|t l Ht _ IH]; intros needIndent d; [done|].
  cbn [indentLoop fmap list_fmap].
  set (closing := match t with TEndObject | TEndArray => true | _ => false end).
  set (opened := needIndent && negb closing).
  assert (∀ rest, lex 0 rest = Some (rereadToken t :: (rereadToken <$> l)) →
            lex 0 ((if opened then newlineIndent
                                    (if opened then S d else d)
                    else []) ++ rest)
            = Some (rereadToken t :: (rereadToken <$> l))) as Hpre.
  { intros rest Hrest. destruct opened; [|done].
    by rewrite lex_spaces by apply newlineIndent_spaces. }
  apply Hpre. clear Hpre.
  destruct t; try done;
    repeat first
      [ rewrite <- app_assoc
      | apply (lex_word TBeginObject); [done|]
      | apply (lex_word TEndObject); [done|]
      | apply (lex_word TBeginArray); [done|]
      | apply (lex_word TEndArray); [done|]
      | apply (lex_word TColon); [done|]
      | apply (lex_word TComma); [done|]
      | apply (lex_word (TString _)); [done|]
      | apply (lex_word TTrue); [done|]
      | apply (lex_word TFalse); [done|]
      | apply (lex_word TNull); [done|]
      | rewrite lex_spaces by apply newlineIndent_spaces
      | rewrite lex_spaces by (by repeat constructor)
      | apply IH
      | match goal with
        | |- context [if ?b then _ else _] => destruct b
        end ].
Qed.
End RereadFacts.

Section RereadParseFacts.
Import UTF8 JSON Reread.

Lemma numberless_array l : numberless (JArray l) ↔ Forall numberless l.
Proof.
  cbn [numberless]. induction l as [|x l IH]; cbn; [by split|].
  rewrite Forall_cons. tauto.
Qed.

Lemma numberless_object l :
  numberless (JObject l) ↔ Forall (λ m, numberless m.2) l.
Proof.
  cbn [numberless]. induction l as [|x l IH]; cbn; [by split|].
  rewrite Forall_cons. tauto.
Qed.

Lemma tokens_reread j :
  numberless j →
  Forall wordToken (tokens j) ∧ rereadToken <$> tokens j = tokens (reread j).
Proof.
  induction j as [|b|lit|s|l IH|l IH] using json_nested_ind; intros Hn;
    try (by repeat constructor); [by destruct b; repeat constructor|..].
  - apply numberless_array in Hn. cbn [reread].
    rewrite !tokens_array, fmap_cons, Forall_cons.
    cut (∀ first,
           Forall wordToken (elementTokens first (tokens <$> l))
           ∧ rereadToken <$> elementTokens first (tokens <$> l)
             = elementTokens first (tokens <$> (reread <$> l))).
    { intros H. destruct (H true) as [H1 H2]. by rewrite H2. }
    induction IH as [|x l Hx _ IHl]; intros first;
      [by repeat constructor|].
    inversion Hn as [|? ? Hnx Hnl]; subst.
    destruct (Hx Hnx) as [Hx1 Hx2]. destruct (IHl Hnl false) as [Hl1 Hl2].
    cbn [fmap list_fmap elementTokens]. rewrite !Forall_app, !fmap_app.
    split; [by destruct first; repeat constructor|].
    rewrite Hx2. cbn [fmap list_fmap] in Hl2. rewrite Hl2.
    by destruct first.
  - apply numberless_object in Hn. cbn [reread].
    rewrite !tokens_object, fmap_cons, Forall_cons.
    cut (∀ first,
           Forall wordToken (memberTokens first (prod_map id tokens <$> l))
           ∧ rereadToken <$> memberTokens first (prod_map id tokens <$> l)
             = memberTokens first
                 (prod_map id tokens
                    <$> (prod_map rereadString reread <$> l))).
    { intros H. destruct (H true) as [H1 H2]. by rewrite H2. }
    induction IH as [|[k x] l Hx _ IHl]; intros first;
      [by repeat constructor|].
    inversion Hn as [|? ? Hnx Hnl]; subst. cbn [snd] in Hx, Hnx.
    destruct (Hx Hnx) as [Hx1 Hx2]. destruct (IHl Hnl false) as [Hl1 Hl2].
    cbn [fmap list_fmap memberTokens prod_map fst snd id].
    rewrite !Forall_app, !fmap_app, !Forall_cons, !fmap_cons, !Forall_app,
      !fmap_app.
    split; [by destruct first; repeat constructor|].
    rewrite Hx2. cbn [fmap list_fmap] in Hl2. rewrite Hl2.
    by destruct first.
Qed.

Lemma depth_reread j : depth (reread j) = depth j.
Proof.
  induction j as [|b|lit|s|l IH|l IH] using json_nested_ind; try done.
  - cbn [reread depth]. f_equal.
    induction IH as [|x l Hx _ IHl]; [done|].
    cbn [fmap list_fmap foldr]. by rewrite Hx, IHl.
  - cbn [reread depth]. f_equal.
    induction IH as [|[k x] l Hx _ IHl]; [done|].
    cbn [fmap list_fmap foldr prod_map fst snd] in *. by rewrite Hx, IHl.
Qed.

(** Whatever its strings, a value without numbers is read from its
    indented text, with the strings as they are read. *)
Lemma parse_written j :
  numberless j → depth j ≤ maxNestingDepth →
  parse (renderIndent j) = Some (reread j).
Proof.
  intros Hn Hd. destruct (tokens_reread j Hn) as [Hw Ht].
  unfold parse, renderIndent.
  rewrite lex_indent_words by done. cbn [mbind option_bind].
  rewrite Ht, <- (app_nil_r (tokens (reread j))), run_tokens
    by (rewrite depth_reread; unfold len; cbn; lia).
  done.
Qed.
End RereadParseFacts.

Section WrittenStoreFacts.
Import UTF8 JSON Codec StoreShape Reread.

Ltac eval_keys :=
  repeat match goal with
         | |- context [rereadString (str ?k)] =>
             let s := eval vm_compute in (rereadString (str k)) in
             change (rereadString (str k)) with s
         end;
  repeat match goal with
         | |- context [selects ?k ?n] =>
             let b := eval vm_compute in (selects k n) in
             change (selects k n) with b
         end.

(** *** The values that the writer is given hold no number and are not
    deep *)

Lemma encSlice_plain {A} (enc : A → json) d s :
  0 ≤ d →
  (∀ x, numberless (enc x) ∧ depth (enc x) ≤ d) →
  numberless (encSlice enc s) ∧ depth (encSlice enc s) ≤ 1 + d.
Proof.
  intros Hd Henc. destruct s as [l|]; [|cbn; split; [done | lia]].
  cbn [encSlice]. split.
  - apply numberless_array, Forall_fmap, Forall_forall.
    intros x _. apply Henc.
  - apply depth_array; [done|]. apply Forall_fmap, Forall_forall.
    intros x _. apply Henc.
Qed.

Lemma encHeaders_plain h :
  numberless (encHeaders h) ∧ depth (encHeaders h) ≤ 1.
Proof.
  destruct h as [m|]; [|cbn; split; [done | lia]].
  cbn [encHeaders]. split.
  - apply numberless_object, Forall_fmap, Forall_forall. by intros [k v] _.
  - apply (depth_object _ 0); [done|].
    apply Forall_fmap, Forall_forall. by intros [k v] _.
Qed.

Lemma encRequest_plain r :
  numberless (encRequest r) ∧ depth (encRequest r) ≤ 2.
Proof.
  destruct (encHeaders_plain (APIRequest.Headers r)) as [Hn Hd]. split.
  - apply numberless_object. by repeat constructor.
  - apply (depth_object _ 1); [done|].
    repeat constructor; cbn [snd depth]; lia.
Qed.

Lemma encCollection_plain c :
  numberless (encCollection c) ∧ depth (encCollection c) ≤ 4.
Proof.
  destruct (encSlice_plain encRequest 2 (Collection.Requests c))
    as [Hn Hd]; [done | apply encRequest_plain |].
  split.
  - apply numberless_object. by repeat constructor.
  - apply (depth_object _ 3); [done|].
    repeat constructor; cbn [snd depth]; lia.
Qed.

Lemma encWorkspace_plain w :
  numberless (encWorkspace w) ∧ depth (encWorkspace w) ≤ 6.
Proof.
  destruct (encSlice_plain encCollection 4 (Workspace.Collections w))
    as [Hn Hd]; [done | apply encCollection_plain |].
  split.
  - apply numberless_object. by repeat constructor.
  - apply (depth_object _ 5); [done|].
    repeat constructor; cbn [snd depth]; lia.
Qed.

(** *** What is read has the shape of the store *)

Lemma forallb_fmap_all {A B} (f : A → B) (p : B → bool) l :
  (∀ x, p (f x) = true) → forallb p (f <$> l) = true.
Proof. intros H. induction l as [|x l IH]; cbn; [done|]. by rewrite H. Qed.

Lemma encSlice_fits {A} (enc : A → json) shape s :
  (∀ x, shape (reread (enc x)) = true) →
  sliceShape shape (reread (encSlice enc s)) = true.
Proof.
  intros Henc. destruct s as [l|]; [|done].
  cbn [encSlice reread sliceShape]. rewrite <- list_fmap_compose.
  by apply forallb_fmap_all.
Qed.

Lemma encHeaders_fits h : headersShape (reread (encHeaders h)) = true.
Proof.
  destruct h as [m|]; [|done].
  unfold headersShape. cbn [encHeaders reread objectShape].
  rewrite <- list_fmap_compose. apply forallb_fmap_all. by intros [k v].
Qed.

Lemma encRequest_fits r : requestShape (reread (encRequest r)) = true.
Proof.
  unfold encRequest, requestShape.
  cbn [reread fmap list_fmap prod_map fst snd objectShape forallb].
  unfold requestMember. eval_keys. by rewrite encHeaders_fits.
Qed.

Lemma encCollection_fits c :
  collectionShape (reread (encCollection c)) = true.
Proof.
  unfold encCollection, collectionShape.
  cbn [reread fmap list_fmap prod_map fst snd objectShape forallb].
  unfold collectionMember. eval_keys.
  by rewrite (encSlice_fits _ _ _ encRequest_fits).
Qed.

Lemma encWorkspace_fits w : workspaceShape (reread (encWorkspace w)) = true.
Proof.
  unfold encWorkspace, workspaceShape.
  cbn [reread fmap list_fmap prod_map fst snd objectShape forallb].
  unfold workspaceMember. eval_keys.
  by rewrite (encSlice_fits _ _ _ encCollection_fits).
Qed.

(** The text of a store parses, whatever the bytes of its strings, and
    [Unmarshal] has no error on it. *)
Lemma MarshalIndent_loads workspaces :
  is_Some (parse (MarshalIndent workspaces))
  ∧ (Unmarshal (MarshalIndent workspaces)).2 = None.
Proof.
  destruct (encSlice_plain encWorkspace 6 workspaces) as [Hn Hd];
    [done | apply encWorkspace_plain |].
  assert (parse (MarshalIndent workspaces)
          = Some (reread (encSlice encWorkspace workspaces))) as Hp
    by (apply parse_written; [done | unfold maxNestingDepth; lia]).
  split; [by rewrite Hp|].
  rewrite Unmarshal_error, Hp. unfold fitsStore.
  by rewrite (encSlice_fits _ _ _ encWorkspace_fits).
Qed.
End WrittenStoreFacts.

Section PostmanFacts.
Import UTF8 JSON Codec Store PostmanFile.

Ltac eval_selects :=
  repeat match goal with
         | |- context [selects ?k ?n] =>
             let b := eval vm_compute in (selects k n) in
             change (selects k n) with b
         end.

(** *** The members of the maps of [exportCollectionJSON], as written *)

Lemma sorted_header (k v : json) :
  merge_sort entryLe [(str "key", k); (str "value", v)]
  = [(str "key", k); (str "value", v)].
Proof. reflexivity. Qed.

Lemma sorted_body (m r : json) :
  merge_sort entryLe [(str "mode", m); (str "raw", r)]
  = [(str "mode", m); (str "raw", r)].
Proof. reflexivity. Qed.

Lemma sorted_request (m h u b : json) :
  merge_sort entryLe
    [(str "method", m); (str "header", h); (str "url", u); (str "body", b)]
  = [(str "body", b); (str "header", h); (str "method", m); (str "url", u)].
Proof. reflexivity. Qed.

Lemma sorted_item (n r : json) :
  merge_sort entryLe [(str "name", n); (str "request", r)]
  = [(str "name", n); (str "request", r)].
Proof. reflexivity. Qed.

Lemma sorted_info (n s : json) :
  merge_sort entryLe [(str "name", n); (str "schema", s)]
  = [(str "name", n); (str "schema", s)].
Proof. reflexivity. Qed.

Lemma sorted_postman (i l : json) :
  merge_sort entryLe [(str "info", i); (str "item", l)]
  = [(str "info", i); (str "item", l)].
Proof. reflexivity. Qed.

Lemma encValue_item order r : encValue (exportItem order r) = itemJSON order r.
Proof.
  unfold exportItem, itemJSON.
  cbn [encValue fmap list_fmap prod_map fst snd id].
  rewrite sorted_body, sorted_request, sorted_item.
  rewrite <- list_fmap_compose.
  rewrite (list_fmap_ext (encValue ∘ exportHeader)
             (λ h, JObject [(str "key", JString h.1);
                            (str "value", JString h.2)])
             (order (default ∅ (APIRequest.Headers r)))); [done|].
  intros i h _. unfold exportHeader.
  cbn [compose encValue fmap list_fmap prod_map fst snd id].
  by rewrite sorted_header.
Qed.

Lemma encValue_postman order coll :
  encValue (exportPostman order coll)
  = JObject
      [(str "info",
        JObject [(str "name", JString (Collection.Name coll));
                 (str "schema", JString schema)]);
       (str "item",
        JArray (itemJSON order <$> elems (Collection.Requests coll)))].
Proof.
  unfold exportPostman.
  cbn [encValue fmap list_fmap prod_map fst snd id].
  rewrite sorted_info, sorted_postman, <- list_fmap_compose.
  rewrite (list_fmap_ext (encValue ∘ exportItem order) (itemJSON order)
             (elems (Collection.Requests coll))); [done|].
  intros i r _. apply encValue_item.
Qed.

(** *** What is written can be read *)

Lemma itemJSON_writable order r :
  HeaderCodec.rangeOrder (default ∅ (APIRequest.Headers r))
    (order (default ∅ (APIRequest.Headers r))) →
  validRequest r →
  writable (itemJSON order r) ∧ depth (itemJSON order r) ≤ 4.
Proof.
  intros Ho (Hn & Hm & Hu & Hh & Hb).
  set (l := order (default ∅ (APIRequest.Headers r))) in *.
  assert (Forall (λ h, ValidString h.1 = true ∧ ValidString h.2 = true) l)
    as Hl.
  { unfold HeaderCodec.rangeOrder in Ho. rewrite Ho. apply Forall_forall.
    intros [k v] Hkv%elem_of_map_to_list.
    destruct (APIRequest.Headers r) as [m|]; [by apply (Hh k v)|done]. }
  assert (writable (JArray ((λ h, JObject [(str "key", JString h.1);
                                           (str "value", JString h.2)])
                              <$> l))
          ∧ depth (JArray ((λ h, JObject [(str "key", JString h.1);
                                          (str "value", JString h.2)])
                             <$> l)) ≤ 2) as [Hw Hd].
  { split.
    - apply writable_array, Forall_fmap.
      eapply Forall_impl; [exact Hl|]. intros [k v] [Hk Hv].
      apply writable_object. by repeat constructor.
    - apply (depth_array _ 1); [done|]. apply Forall_fmap, Forall_forall.
      intros [k v] _. cbn. lia. }
  unfold itemJSON. fold l. split.
  - apply writable_object. by repeat constructor.
  - apply (depth_object _ 3); [done|]. repeat constructor; [cbn; lia|].
    cbn [snd]. apply (depth_object _ 2); [done|].
    repeat constructor; cbn [snd]; [cbn; lia | done | cbn; lia..].
Qed.

Lemma postmanJSON_writable order coll :
  (∀ m, HeaderCodec.rangeOrder m (order m)) →
  validCollection coll →
  writable (encValue (exportPostman order coll))
  ∧ depth (encValue (exportPostman order coll)) ≤ 6.
Proof.
  intros Ho [Hn Hr]. rewrite encValue_postman.
  assert (Forall (λ j, writable j ∧ depth j ≤ 4)
            (itemJSON order <$> elems (Collection.Requests coll))) as Hl.
  { apply Forall_fmap. eapply Forall_impl; [exact Hr|].
    intros r Hv. by apply itemJSON_writable. }
  split.
  - assert (writable (JArray (itemJSON order
                                <$> elems (Collection.Requests coll))))
      by (apply writable_array; eapply Forall_impl; [exact Hl|];
          by intros j []).
    apply writable_object. by repeat constructor.
  - apply (depth_object _ 5); [done|]. repeat constructor; [cbn; lia|].
    cbn [snd]. apply (depth_array _ 4); [done|].
    eapply Forall_impl; [exact Hl|]. by intros j [].
Qed.

(** *** Reading back what was written *)

Lemma firstError_assoc a b c :
  firstError (firstError a b) c = firstError a (firstError b c).
Proof. by destruct a. Qed.

Lemma decStruct_nil {A} (member : A → bytes → json → A * option error) cur :
  decStruct member cur (JObject []) = (cur, None).
Proof. done. Qed.

(** The loop of [object], one member after the other. *)
Lemma decStruct_cons {A} (member : A → bytes → json → A * option error)
    cur k v l :
  decStruct member cur (JObject ((k, v) :: l))
  = let '(x, e) := member cur k v in
    let '(y, e') := decStruct member x (JObject l) in
    (y, firstError e e').
Proof.
  unfold decStruct. cbn [foldl fst snd firstError].
  destruct (member cur k v) as [x e].
  set (step := λ (acc : A * option error) (m : bytes * json),
                 let '(x, e) := member acc.1 m.1 m.2 in
                 (x, firstError acc.2 e)).
  assert (∀ l x e, foldl step (x, e) l
                   = ((foldl step (x, None) l).1,
                      firstError e (foldl step (x, None) l).2)) as H.
  { clear. intros l. induction l as [|[k v] l IH]; intros x e.
    - cbn. by destruct e.
    - cbn [foldl]. unfold step at 2 4 6. cbn [fst snd].
      destruct (member x k v) as [y e']. rewrite IH.
      rewrite (IH y (firstError None e')). cbn [fst snd firstError].
      by rewrite firstError_assoc. }
  rewrite H. by destruct (foldl step (x, None) l).
Qed.

(** The loop of [array] on a fresh slice. *)
Lemma decElements_fmap {A B} (zero : B) dec (enc : A → json) (f : A → B)
    l :
  (∀ x, dec zero (enc x) = (f x, None)) →
  decElements zero dec [] (enc <$> l) = (f <$> l, None).
Proof.
  intros H. induction l as [|x l IH]; [done|].
  cbn [fmap list_fmap decElements hd tl]. by rewrite H, IH.
Qed.

Section ReadBack.
Variable rangeError : bytes → bool.
Variable order : gmap bytes bytes → list (bytes * bytes).

Lemma decHeader_entry h :
  decStruct decHeaderMember ([], [])
    (JObject [(str "key", JString h.1); (str "value", JString h.2)])
  = (h, None).
Proof.
  destruct h as [k v]. unfold decStruct. cbn [foldl fst snd].
  unfold decHeaderMember. eval_selects. reflexivity.
Qed.

Lemma decBody_members body :
  decStruct decBodyMember []
    (JObject [(str "mode", JString (str "raw")); (str "raw", JString body)])
  = (body, None).
Proof.
  unfold decStruct. cbn [foldl fst snd].
  unfold decBodyMember. eval_selects. reflexivity.
Qed.

Lemma decRequest_members name r :
  decStruct (decRequestMember rangeError) (mkItem name [] URLOther [] [])
    (JObject
       [(str "body",
         JObject [(str "mode", JString (str "raw"));
                  (str "raw", JString (APIRequest.Body r))]);
        (str "header",
         JArray ((λ h, JObject [(str "key", JString h.1);
                                (str "value", JString h.2)])
                   <$> order (default ∅ (APIRequest.Headers r))));
        (str "method", JString (APIRequest.Method r));
        (str "url", JString (APIRequest.URL r))])
  = (mkItem name (APIRequest.Method r) (URLString (APIRequest.URL r))
       (order (default ∅ (APIRequest.Headers r))) (APIRequest.Body r),
     None).
Proof.
  rewrite decStruct_cons. unfold decRequestMember at 1. eval_selects.
  rewrite decBody_members. cbv beta iota.
  rewrite decStruct_cons. unfold decRequestMember at 1. eval_selects.
  unfold decSlice. cbn [elems default from_option id].
  rewrite decElements_enc
    by (apply Forall_forall; intros h _; apply decHeader_entry).
  cbv beta iota.
  unfold decStruct. cbn [foldl fst snd].
  unfold decRequestMember. eval_selects. reflexivity.
Qed.

Lemma decItem_itemJSON r :
  decStruct (decItemMember rangeError) zeroItem (itemJSON order r)
  = (itemOf order r, None).
Proof.
  unfold itemJSON, itemOf, zeroItem.
  rewrite decStruct_cons. unfold decItemMember at 1. eval_selects.
  cbn [decString]. cbv beta iota.
  rewrite decStruct_cons. unfold decItemMember at 1. eval_selects.
  by rewrite decRequest_members.
Qed.

Lemma decPostman_postmanJSON coll :
  decStruct (decPostmanMember rangeError) (mkPostman [] [])
    (encValue (exportPostman order coll))
  = (mkPostman (Collection.Name coll)
       (itemOf order <$> elems (Collection.Requests coll)), None).
Proof.
  rewrite encValue_postman.
  rewrite decStruct_cons. unfold decPostmanMember at 1. eval_selects.
  assert (decStruct decInfoMember []
            (JObject [(str "name", JString (Collection.Name coll));
                      (str "schema", JString schema)])
          = (Collection.Name coll, None)) as ->.
  { unfold decStruct. cbn [foldl fst snd].
    unfold decInfoMember. eval_selects. reflexivity. }
  cbv beta iota.
  rewrite decStruct_cons. unfold decPostmanMember at 1. eval_selects.
  unfold decSlice. cbn [elems default from_option id].
  rewrite (decElements_fmap zeroItem _ (itemJSON order) (itemOf order))
    by (intros r; apply decItem_itemJSON).
  reflexivity.
Qed.

(** A collection of valid UTF-8 is read from its exported file. *)
Lemma readPostman_exportData coll :
  (∀ m, HeaderCodec.rangeOrder m (order m)) →
  validCollection coll →
  readPostman rangeError (exportData order coll)
  = Some (mkPostman (Collection.Name coll)
            (itemOf order <$> elems (Collection.Requests coll))).
Proof.
  intros Ho Hv. unfold readPostman, exportData.
  destruct (postmanJSON_writable order coll Ho Hv) as [Hw Hd].
  rewrite parse_renderIndent by (done || (unfold maxNestingDepth; lia)).
  by rewrite decPostman_postmanJSON.
Qed.

Lemma foldl_insert_entries (l : list (bytes * bytes)) acc :
  foldl (λ (m : gmap bytes bytes) h, <[h.1 := h.2]> m) acc l
  = list_to_map (reverse l) ∪ acc.
Proof.
  revert acc. induction l as [|[k v] l IH]; intros acc.
  - cbn. by rewrite (left_id_L ∅ (∪)).
  - cbn [foldl fst snd]. rewrite IH.
    rewrite reverse_cons, list_to_map_app. cbn [list_to_map foldr].
    cbn [fst snd]. rewrite <- (assoc_L (∪)). f_equal.
    by rewrite <- insert_union_l, (left_id_L ∅ (∪)).
Qed.

Lemma importRequest_itemOf r :
  (∀ m, HeaderCodec.rangeOrder m (order m)) →
  importRequest (itemOf order r) = withHeaderMap r.
Proof.
  intros Ho. unfold importRequest, itemOf, withHeaderMap.
  cbn [item_Name item_Method item_URL item_Header item_Raw].
  rewrite foldl_insert_entries, (right_id_L ∅ (∪)).
  do 2 f_equal. symmetry. apply list_to_map_flip.
  rewrite reverse_Permutation. symmetry. apply Ho.
Qed.
End ReadBack.

Lemma exportCollectionJSON_selected order a w c :
  selectedCollection a = Some (w, c) →
  ∃ ws coll,
    elems (workspaces a) !! w = Some ws
    ∧ elems (Workspace.Collections ws) !! c = Some coll
    ∧ exportCollectionJSON order a = Some (exportData order coll).
Proof.
  intros Hsel.
  destruct (selectedCollection_Some _ _ _ Hsel) as (ws & Hw & [coll Hc] & _).
  destruct (selectedCollection_idx _ _ _ Hsel) as (Hi & -> & H1 & H2 & Hf).
  exists ws, coll. split; [done|]. split; [done|].
  unfold exportCollectionJSON.
  rewrite decide_False by (intros [?|?]; [done | lia]).
  rewrite Hf, decide_False, Nat2Z.id, Hw by lia. cbn [mbind option_bind].
  pose proof (lookup_lt_Some _ _ _ Hc) as Hlt.
  rewrite decide_False by (unfold len; lia).
  by rewrite Hc.
Qed.
End PostmanFacts.

Section RenderFacts.
Import GoStrings Search SearchSpec SearchMore.

Lemma scan_of_empty query resume offsets :
  query ≠ [] → nonOverlappingScan [] query resume offsets → offsets = [].
Proof.
  intros Hq [|? p ? _ Hm _ _]; [done|].
  destruct Hm as (Hp & Hb & _).
  destruct query; [done|]. unfold len in *. cbn in *. lia.
Qed.

(** Every offset of the scan is the place of a match. *)
Lemma scan_lookup text query resume offsets i p :
  nonOverlappingScan text query resume offsets →
  offsets !! i = Some p → resume ≤ p ∧ matchesAt text query p.
Proof.
  intros Hscan. revert i.
  induction Hscan as [|resume q offsets Hle Hm _ _ IH]; intros i; [done|].
  destruct i as [|i]; cbn.
  - by intros [= <-].
  - intros Hi. destruct (IH _ Hi) as [? ?]. split; [|done].
    destruct Hm as (? & ? & _). pose proof (len_nonneg query). lia.
Qed.

(** The second loop of [highlightText] wraps the matches where they
    stand and leaves the text between them as it is. *)
Lemma markLoop_wrapped text query currentIdx offsets :
  ∀ pos i rendered offset,
    nonOverlappingScan text query pos offsets →
    0 ≤ pos ≤ len text →
    len rendered = pos + offset →
    markLoop query currentIdx offsets i
      (rendered ++ drop (Z.to_nat pos) text) offset
    = Some (rendered
            ++ wrapped text (len query) currentIdx offsets i pos).
Proof.
  induction offsets as [|p offsets IH];
    intros pos i rendered offset Hscan Hpos Hlen; [done|].
  inversion Hscan as [|? ? ? Hle Hm Hmin Hrest]; subst.
  pose proof (matchesAt_bound _ _ _ Hm) as Hb.
  pose proof (len_nonneg query) as Hq.
  pose proof (len_nonneg rendered) as Hr.
  cbn [markLoop wrapped].
  set (result := rendered ++ drop (Z.to_nat pos) text).
  assert (len result = len text + offset) as Hres.
  { unfold result. rewrite len_app. unfold len in *.
    rewrite length_drop. lia. }
  assert (drop (Z.to_nat (p + offset)) result = drop (Z.to_nat p) text)
    as Hdrop.
  { unfold result. rewrite drop_app_ge by (unfold len in *; lia).
    rewrite drop_drop. f_equal. unfold len in *. lia. }
  assert (take (Z.to_nat (p + offset)) result
          = rendered ++ take (Z.to_nat (p - pos))
                          (drop (Z.to_nat pos) text)) as Htake.
  { unfold result. rewrite take_app_ge by (unfold len in *; lia).
    do 2 f_equal. unfold len in *. lia. }
  destruct (Z.leb_spec (p + offset + len query) (len result)); [|lia].
  rewrite (slice_Some result (p + offset) (p + offset + len query)) by lia.
  rewrite (slice_to result (p + offset)) by lia.
  rewrite (slice_from result (p + offset + len query)) by lia.
  cbv [mbind option_bind]. rewrite Hdrop, Htake.
  replace (Z.to_nat (p + offset + len query - (p + offset)))
    with (Z.to_nat (len query)) by lia.
  set (mid := take (Z.to_nat (len query)) (drop (Z.to_nat p) text)).
  assert (len mid = len query) as Hmid.
  { unfold mid, len. rewrite length_take, length_drop.
    unfold len in *. lia. }
  replace (drop (Z.to_nat (p + offset + len query)) result)
    with (drop (Z.to_nat (p + len query)) text).
  2:{ replace (Z.to_nat (p + offset + len query))
        with (Z.to_nat (p + offset) + Z.to_nat (len query))%nat by lia.
      rewrite <- drop_drop, Hdrop, drop_drop. f_equal. lia. }
  set (hl := if i =? currentIdx then _ else _).
  assert (hl = openMark i currentIdx ++ mid ++ closeMark i currentIdx)
    as Hhl by (unfold hl, openMark, closeMark; by destruct (i =? _)).
  set (pre := rendered ++ take (Z.to_nat (p - pos)) _).
  assert (len pre = p + offset) as Hpre.
  { unfold pre. rewrite len_app. unfold len in *.
    rewrite length_take, length_drop. lia. }
  rewrite (app_assoc pre hl).
  rewrite (IH (p + len query) (i + 1) (pre ++ hl)
             (offset + (len hl - len query))); [|done|lia|].
  - f_equal. unfold pre. rewrite Hhl. by rewrite <- !app_assoc.
  - rewrite len_app. lia.
Qed.
(** [highlightText] returns the offsets of the scan and the text with
    every match between its markers. *)
Lemma highlightText_wrapped old text query currentIdx :
  plain text → plain query → query ≠ [] →
  ∃ offsets,
    highlightText old text query currentIdx
    = Some (offsets, wrapped text (len query) currentIdx offsets 0 0)
    ∧ nonOverlappingScan text query 0 offsets.
Proof.
  intros Ht Hp Hq. unfold highlightText. rewrite decide_False by done.
  cbn zeta. rewrite (ToLower_plain_length text) by done.
  destruct (scanLoop_spec text query Ht Hp Hq (S (length text)) 0 [])
    as (offsets & -> & Hscan); [pose proof (len_nonneg text); lia
                               | unfold len; lia |].
  cbn [mbind option_bind app]. exists offsets. split; [|done].
  destruct (decide (len offsets = 0)) as [He|He].
  { apply len_nil_iff in He. by subst. }
  pose proof (markLoop_wrapped text query currentIdx offsets 0 0 [] 0
                Hscan) as Hmark.
  change (Z.to_nat 0) with 0%nat in Hmark. rewrite drop_0 in Hmark.
  cbn [app] in Hmark. rewrite Hmark; [done| |done].
  pose proof (len_nonneg text). lia.
Qed.
End RenderFacts.

Section RunFacts.
Import GoStrings Search SearchSpec SearchMore.

Lemma TrimSpace_plain s : plain s → plain (TrimSpace s).
Proof.
  rewrite !plain_Forall, !Forall_forall. intros H c Hc.
  by apply H, TrimSpace_elem.
Qed.

(** [navigateToMatch] returns, and keeps what is stored. *)
Lemma navigateToMatch_coherent body i st :
  coherent body st →
  ∃ st', navigateToMatch i st = Some st' ∧ coherent body st'
         ∧ searchResults st' = searchResults st
         ∧ originalText st' = originalText st
         ∧ currentSearchQuery st' = currentSearchQuery st
         ∧ searchEntry_Text st' = searchEntry_Text st
         ∧ (0 ≤ i < len (searchResults st) →
            currentMatchIndex st' = i ∧ shows body st')
         ∧ (¬ 0 ≤ i < len (searchResults st) → st' = st).
Proof.
  intros [Hc H3 H4 Hcap Hidx Hpb Hpq]. pose proof Hc as [H1 H2].
  unfold navigateToMatch.
  destruct (decide _) as [Hout|Hin].
  { exists st. do 6 (split; [done|]). split; [|done].
    intros ?. exfalso. lia. }
  assert (0 ≤ i < len (searchResults st)) as Hi by lia.
  assert (currentSearchQuery st ≠ []) as Hq.
  { intros Hq. rewrite (H3 Hq) in Hi. unfold len in Hi. cbn in Hi. lia. }
  pose proof (Hcap Hq) as Ho. pose proof (H4 Hq) as Hscan.
  assert (body ≠ []) as Hbody.
  { intros ->. apply scan_of_empty in Hscan; [|done].
    rewrite Hscan in Hi. unfold len in Hi. cbn in Hi. lia. }
  cbn [originalText currentSearchQuery set_index searchResults
       currentMatchIndex].
  rewrite decide_True by (by rewrite Ho).
  destruct (highlightText_wrapped (searchResults st) (originalText st)
              (currentSearchQuery st) i) as (found & -> & Hfound);
    [by rewrite Ho | done | done |].
  rewrite Ho in Hfound |- *.
  pose proof (nonOverlappingScan_unique _ _ _ _ _ Hfound Hscan) as ->.
  cbn [mbind option_bind searchResults set_Text set_results set_index
       originalText jsonResponse_Text].
  destruct (searchResults st !! Z.to_nat i) as [p|] eqn:Hp.
  2:{ apply lookup_ge_None in Hp. unfold len in Hi. lia. }
  cbn [mbind option_bind]. rewrite decide_False by (by rewrite Ho).
  destruct (scan_lookup _ _ _ _ _ _ Hscan Hp) as [Hp0 Hm].
  pose proof (matchesAt_bound _ _ _ Hm) as Hb.
  pose proof (len_nonneg (currentSearchQuery st)).
  rewrite Ho, slice_to by lia. cbn [mbind option_bind].
  eexists. split; [done|]. unfold shows.
  repeat split; cbn; try done; try lia.
  all: by intros He; rewrite Ho in He.
Qed.

Lemma resetSearch_coherent body st :
  coherent body st →
  coherent body (resetSearch st) ∧ shows body (resetSearch st).
Proof.
  intros [Hc H3 H4 Hcap Hidx Hpb Hpq]. pose proof Hc as [H1 H2].
  split; [split|].
  - by apply resetSearch_captured.
  - unfold resetSearch. by destruct (decide _).
  - unfold resetSearch. by destruct (decide _).
  - unfold resetSearch. by destruct (decide _).
  - left. unfold resetSearch. by destruct (decide _).
  - done.
  - unfold resetSearch. by destruct (decide _).
  - unfold shows, resetSearch.
    destruct (decide (originalText st ≠ [])) as [Ho|Ho]; cbn; auto.
    apply H1. by destruct (decide (originalText st = [])).
Qed.

Lemma searchAction_coherent body st :
  coherent body st → shows body st → plain (searchEntry_Text st) →
  ∃ st', searchAction st = Some st' ∧ coherent body st' ∧ shows body st'.
Proof.
  intros Hco Hsh Hpe. pose proof Hco as [Hc H3 H4 Hcap Hidx Hpb Hpq].
  pose proof Hc as [H1 H2]. unfold searchAction.
  set (query := TrimSpace (searchEntry_Text st)).
  assert (plain query) as Hpquery by by apply TrimSpace_plain.
  destruct (decide (query = [])) as [Hq|Hq].
  { eexists. split; [done|]. by apply resetSearch_coherent. }
  destruct (decide (currentSearchQuery st ≠ query)) as [Hnew|Hsame].
  - set (st1 := if decide (originalText st = []) then _ else st).
    assert (originalText st1 = body
            ∧ jsonResponse_Text st1 = jsonResponse_Text st) as [Ho Ht].
    { unfold st1. destruct (decide (originalText st = [])) as [He|He];
        cbn; [by rewrite H1 | by rewrite H2]. }
    cbn [originalText set_query searchResults].
    destruct (highlightText_scan (searchResults st1) (originalText st1)
                query 0) as (found & hl & -> & Hscan);
      [by rewrite Ho | done | done |].
    cbn [mbind option_bind searchResults set_results]. rewrite Ho in Hscan.
    destruct (decide (0 < len found)) as [Hpos|Hnone].
    + destruct (navigateToMatch_coherent body 0
                  (set_index 0 (set_results found (set_query query st1))))
        as (st' & -> & Hco' & _ & _ & _ & _ & Hin & _).
      * split; [split|..]; cbn; try done.
        -- intros He. rewrite Ht. apply H1.
           subst st1. by destruct (decide (originalText st = [])).
        -- right. lia.
      * exists st'. split; [done|]. split; [done|].
        apply Hin. cbn. lia.
    + assert (found = []) as ->.
      { apply len_nil_iff. pose proof (len_nonneg found). lia. }
      eexists. split; [done|]. unfold shows.
      split; [split; [split|..]|]; cbn; try done.
      all: first [by left | by rewrite Ho].
  - destruct (decide (0 < len (searchResults st))) as [Hpos|Hnone].
    + destruct (navigateToMatch_coherent body
                  (Z.rem (currentMatchIndex st + 1)
                     (len (searchResults st))) st Hco)
        as (st' & -> & Hco' & _ & _ & _ & _ & Hin & _).
      exists st'. split; [done|]. split; [done|]. apply Hin.
      destruct Hidx as [[He _]|Hidx];
        [rewrite He in Hpos; unfold len in Hpos; cbn in Hpos; lia|].
      apply Z.rem_bound_pos; lia.
    + by eauto.
Qed.

Lemma nextTapped_coherent body st :
  coherent body st → shows body st →
  ∃ st', nextTapped st = Some st' ∧ coherent body st' ∧ shows body st'
         ∧ searchResults st' = searchResults st
         ∧ currentSearchQuery st' = currentSearchQuery st
         ∧ (searchResults st ≠ [] →
            currentMatchIndex st'
            = (currentMatchIndex st + 1) `mod` len (searchResults st)).
Proof.
  intros Hco Hsh. pose proof Hco as [Hc H3 H4 Hcap Hidx Hpb Hpq].
  unfold nextTapped.
  destruct (decide _) as [He|Hne].
  { exists st. do 5 (split; [done|]).
    intros Hr. by apply len_nil_iff in He. }
  destruct Hidx as [[He _]|Hidx]; [by rewrite He in Hne|].
  destruct (navigateToMatch_coherent body
              (Z.rem (currentMatchIndex st + 1) (len (searchResults st)))
              st Hco) as (st' & -> & Hco' & Hr & _ & Hq & _ & Hin & _).
  rewrite Z.rem_mod_nonneg in * by lia.
  destruct Hin as [Hi Hs]; [apply Z.mod_pos_bound; lia|].
  exists st'. by do 5 (split; [done|]).
Qed.

Lemma prevTapped_coherent body st :
  coherent body st → shows body st →
  ∃ st', prevTapped st = Some st' ∧ coherent body st' ∧ shows body st'
         ∧ searchResults st' = searchResults st
         ∧ currentSearchQuery st' = currentSearchQuery st
         ∧ (searchResults st ≠ [] →
            currentMatchIndex st'
            = (currentMatchIndex st - 1) `mod` len (searchResults st)).
Proof.
  intros Hco Hsh. pose proof Hco as [Hc H3 H4 Hcap Hidx Hpb Hpq].
  unfold prevTapped.
  destruct (decide _) as [He|Hne].
  { exists st. do 5 (split; [done|]).
    intros Hr. by apply len_nil_iff in He. }
  destruct Hidx as [[He _]|Hidx]; [by rewrite He in Hne|].
  set (i := if decide _ then _ else _).
  assert (i = (currentMatchIndex st - 1) `mod` len (searchResults st))
    as Hi.
  { unfold i. destruct (decide _).
    - assert (currentMatchIndex st = 0) as -> by lia.
      apply (Z.mod_unique_pos _ _ (-1)); lia.
    - symmetry. apply Z.mod_small. lia. }
  destruct (navigateToMatch_coherent body i st Hco)
    as (st' & -> & Hco' & Hr & _ & Hq & _ & Hin & _).
  destruct Hin as [Hi' Hs]; [rewrite Hi; apply Z.mod_pos_bound; lia|].
  exists st'. do 5 (split; [done|]). by rewrite Hi', Hi.
Qed.

Lemma set_searchEntry_coherent body entry st :
  coherent body st → coherent body (set_searchEntry entry st).
Proof. intros [[] ? ? ? ? ? ?]. by split; [split|..]. Qed.

Lemma step_coherent body a st :
  plainAction a → coherent body st → shows body st →
  ∃ st', step a st = Some st'
         ∧ coherent (lastResponse [a] body) st'
         ∧ shows (lastResponse [a] body) st'.
Proof.
  intros Hj Hco Hsh. destruct a as [entry| | | |shown|[|]]; cbn; try done.
  - apply searchAction_coherent;
      [by apply set_searchEntry_coherent | done | done].
  - destruct (nextTapped_coherent body st Hco Hsh) as (st' & ? & ? & ? & _).
    by eauto.
  - destruct (prevTapped_coherent body st Hco Hsh) as (st' & ? & ? & ? & _).
    by eauto.
  - eexists. split; [done|].
    by apply resetSearch_coherent, set_searchEntry_coherent.
  - eexists. split; [done|]. unfold shows.
    split; [split; [split|..]|]; cbn; try done. by left.
  - by eauto.
Qed.

Lemma run_coherent l :
  Forall plainAction l →
  ∀ body st,
    coherent body st → shows body st →
    ∃ st', run l st = Some st'
           ∧ coherent (lastResponse l body) st'
           ∧ shows (lastResponse l body) st'.
Proof.
  induction 1 as [|a l Ha _ IH]; intros body st Hco Hsh; cbn; [by eauto|].
  destruct (step_coherent body a st Ha Hco Hsh) as (st1 & -> & Hco1 & Hsh1).
  cbn. destruct (IH _ _ Hco1 Hsh1) as (st' & -> & Hco' & Hsh').
  exists st'. split; [done|]. by destruct a as [| | | |?|[|]].
Qed.

Lemma initial_coherent : coherent [] initial ∧ shows [] initial.
Proof. split; [split; [split|..]|]; try done. by left. Qed.


Lemma plainAction_noJSONata a : plainAction a → noJSONata a.
Proof. destruct a as [| | | | |[|]]; done. Qed.

(** A run on ASCII from the start, without the JSONata reset. *)
Lemma run_from_start l :
  Forall plainAction l →
  ∃ st, run l initial = Some st
        ∧ coherent (lastResponse l []) st ∧ shows (lastResponse l []) st.
Proof.
  intros Hl. destruct initial_coherent as [Hco Hsh].
  by apply run_coherent.
Qed.
End RunFacts.
(** C2.  The claim holds on ASCII and fails beyond it.  For every text and
    every non-empty query of ASCII, [highlightText] returns, and the
    offsets it stores in [searchResults] are those of the left-to-right
    scan without overlaps, in which the scan resumes right after the end of
    the previous match and a match is a place where the text has the
    letters of the query in upper or in lower case; searching "aa" in
    "aaaa" stores [0; 2], which is not [0; 1; 2].  But the offsets are those
    of the lower-case copy of the text, and the loop resumes [len(query)]
    bytes after a match there: with the capital I with a dot above (two
    bytes, lower case i) as the response and as the query, the first turn
    finds the match at 0 and the second slices the one byte of the copy at
    2, which is a panic; with that letter followed by a as the response
    and a as the query, the offset stored is 1, where the text has the
    second byte of the letter, and the markers are put around that byte,
    not around the a at 2. *)
Theorem scan_offsets_are_those_of_the_lower_case_copy :
  (∀ old text query currentIdx,
     SearchMore.plain text → SearchMore.plain query → query ≠ [] →
     ∃ offsets rendered,
       Search.highlightText old text query currentIdx
       = Some (offsets, rendered)
       ∧ SearchSpec.nonOverlappingScan text query 0 offsets)
  ∧ (∀ text query p,
       SearchMore.plain text → SearchMore.plain query →
       SearchSpec.matchesAt text query p
       ↔ 0 ≤ p ∧ p + len query ≤ len text
         ∧ Forall2 SearchSpec.sameLetter
             (take (length query) (drop (Z.to_nat p) text)) query)
  ∧ (∀ old currentIdx,
       fst <$> Search.highlightText old (str "aaaa") (str "aa") currentIdx
       = Some [0; 2])
  ∧ [0; 2] ≠ [0; 1; 2]
  ∧ GoStrings.ToLower SearchSpec.dottedI = str "i"
  ∧ len SearchSpec.dottedI = 2
  ∧ GoStrings.Index (GoStrings.ToLower SearchSpec.dottedI)
      (GoStrings.ToLower SearchSpec.dottedI) = 0
  ∧ slice (GoStrings.ToLower SearchSpec.dottedI)
      (0 + len SearchSpec.dottedI)
      (len (GoStrings.ToLower SearchSpec.dottedI)) = None
  ∧ (∀ fuel,
       Search.scanLoop fuel (GoStrings.ToLower SearchSpec.dottedI)
         (GoStrings.ToLower SearchSpec.dottedI) (len SearchSpec.dottedI)
         0 [] = None)
  ∧ Search.run [Search.Response SearchSpec.dottedI;
                Search.Search SearchSpec.dottedI] Search.initial = None
  ∧ ∃ st,
      Search.run [Search.Response (SearchSpec.dottedI ++ str "a");
                  Search.Search (str "a")] Search.initial = Some st
      ∧ Search.searchResults st = [1]
      ∧ ¬ SearchSpec.matchesAt (SearchSpec.dottedI ++ str "a") (str "a") 1
      ∧ SearchSpec.matchesAt (SearchSpec.dottedI ++ str "a") (str "a") 2
      ∧ ¬ SearchSpec.nonOverlappingScan (SearchSpec.dottedI ++ str "a")
            (str "a") 0 (Search.searchResults st)
      ∧ Search.jsonResponse_Text st
        = [UTF8.byte 196] ++ Search.openCurrent ++ [UTF8.byte 176]
          ++ Search.closeCurrent ++ str "a".
Proof.
  split; [apply highlightText_scan|].
  split; [apply matchesAt_letters|].
  split.
  { intros old currentIdx. unfold Search.highlightText.
    rewrite decide_False by done.
    destruct (Z.eqb_spec 0 currentIdx) as [<-|Hne]; [done|].
    vm_compute. by destruct currentIdx. }
  split; [done|].
  split; [by vm_compute|]. split; [done|]. split; [by vm_compute|].
  split; [by vm_compute|].
  split; [intros [|[|fuel]]; by vm_compute|].
  split; [by vm_compute|].
  assert (¬ SearchSpec.matchesAt (SearchSpec.dottedI ++ str "a") (str "a") 1)
    as Hno by (intros (_ & _ & H); by vm_compute in H).
  eexists. split; [vm_compute; reflexivity|].
  split; [done|]. split; [exact Hno|].
  split; [by vm_compute|].
  split; [|by vm_compute].
  cbn [Search.searchResults]. intros Hscan.
  inversion Hscan as [|? ? ? Hle Hm Hmin Hrest]; subst. by apply Hno.
Qed.

Lemma scan_offsets_are_those_of_the_lower_case_copy_witness :
  SearchMore.plain (str "ok fine OK done") ∧ SearchMore.plain (str "Ok")
  ∧ str "Ok" ≠ []
  ∧ (∃ offsets rendered,
       Search.highlightText [] (str "ok fine OK done") (str "Ok") 1
       = Some (offsets, rendered)
       ∧ SearchSpec.nonOverlappingScan (str "ok fine OK done") (str "Ok") 0
           offsets)
  ∧ (SearchSpec.matchesAt (str "ok fine OK done") (str "Ok") 8
     ↔ 0 ≤ 8 ∧ 8 + len (str "Ok") ≤ len (str "ok fine OK done")
       ∧ Forall2 SearchSpec.sameLetter
           (take (length (str "Ok"))
              (drop (Z.to_nat 8) (str "ok fine OK done"))) (str "Ok")).
Proof.
  assert (SearchMore.plain (str "ok fine OK done")) as Ht by reflexivity.
  assert (SearchMore.plain (str "Ok")) as Hq by reflexivity.
  assert (str "Ok" ≠ []) as Hne by done.
  split; [exact Ht|]. split; [exact Hq|]. split; [exact Hne|].
  split.
  - exact (proj1 scan_offsets_are_those_of_the_lower_case_copy
             [] _ _ 1 Ht Hq Hne).
  - exact (proj1 (proj2 scan_offsets_are_those_of_the_lower_case_copy)
             _ _ 8 Ht Hq).
Defined.

(** C1.  The claim fails on the JSONata callback.  With the response above in
    the box, search "a" (the box now shows the markers around the a), apply a
    JSONata expression that evaluates, and search "1": the callback has made
    [originalText] the annotated text of the box, the new query does not
    capture again, and the offset stored for "1" is 24, its place in the
    annotated text, whereas "1" stands at 11 in the response. *)
Theorem jsonata_reset_captures_annotated_text :
  ∃ st,
    Search.run [Search.Response SearchSpec.indentedResponse; Search.Search (str "a");
                Search.JSONata true; Search.Search (str "1")] Search.initial
    = Some st
    ∧ Search.originalText st ≠ SearchSpec.indentedResponse
    ∧ Search.searchResults st = [24]
    ∧ SearchSpec.nonOverlappingScan SearchSpec.indentedResponse (str "1") 0 [11]
    ∧ ¬ SearchSpec.nonOverlappingScan SearchSpec.indentedResponse
          (Search.currentSearchQuery st) 0 (Search.searchResults st).
Proof.
  assert (SearchSpec.nonOverlappingScan SearchSpec.indentedResponse (str "1") 0 [11])
    as Hscan.
  { destruct (highlightText_scan [] SearchSpec.indentedResponse (str "1") 0)
      as (offsets & r & Hrun & Hs); [reflexivity | reflexivity | done |].
    vm_compute in Hrun. by injection Hrun as <- _. }
  eexists. split; [vm_compute; reflexivity|].
  split; [by vm_compute|]. split; [done|]. split; [done|].
  cbn [Search.currentSearchQuery Search.searchResults].
  intros Hbad. change (str "1") with ["1"%char] in Hscan.
  by pose proof (nonOverlappingScan_unique _ _ _ _ _ Hscan Hbad).
Qed.

(** C8 (amended).  For every input text, [parseHeaders] splits on line
    feeds, skips blank lines, cuts each remaining line at its first colon
    only, trims the key and the value, drops the lines without a colon, and
    keeps one value per line under a repeated key, in line order; the key
    under which the values are stored is the canonical MIME form of the
    trimmed key, as [http.Header.Add] makes it. *)
Theorem parseHeaders_multimap_of_lines :
  ∀ text,
    GoStrings.Join (GoStrings.Split text HeaderCodec.newline)
      [HeaderCodec.newline] = text
    ∧ (∀ key,
         HeaderCodec.parseHeaders text !! key
         = HeaderSpec.lookupIn key
             (HeaderSpec.canonicalEntry <$> HeaderSpec.entries text))
    ∧ (∀ k v,
         (k, v) ∈ HeaderSpec.entries text →
         ∃ line before after,
           (line ∈ GoStrings.Split text HeaderCodec.newline)
           ∧ line = before ++ HeaderCodec.colon :: after
           ∧ (HeaderCodec.colon ∉ before)
           ∧ k = GoStrings.TrimSpace before
           ∧ v = GoStrings.TrimSpace after).
Proof.
  intros text. split; [apply Split_Join|]. split.
  - intros key. apply parseHeaders_lookup.
  - apply entries_origin.
Qed.

Lemma parseHeaders_multimap_of_lines_witness :
  ((str "A", str "b:c") ∈ HeaderSpec.entries (str " A : b:c "))
  ∧ ∃ line before after,
      (line ∈ GoStrings.Split (str " A : b:c ") HeaderCodec.newline)
      ∧ line = before ++ HeaderCodec.colon :: after
      ∧ (HeaderCodec.colon ∉ before)
      ∧ str "A" = GoStrings.TrimSpace before
      ∧ str "b:c" = GoStrings.TrimSpace after.
Proof.
  assert ((str "A", str "b:c") ∈ HeaderSpec.entries (str " A : b:c ")) as H
    by (vm_compute; left).
  split; [exact H|].
  exact (proj2 (proj2 (parseHeaders_multimap_of_lines (str " A : b:c ")))
           _ _ H).
Defined.

(** C8 as stated fails: the key is not only trimmed.  The line
    "content-type: a" is stored under Content-Type and nothing is stored
    under content-type. *)
Lemma parseHeaders_key_not_verbatim :
  HeaderSpec.lookupIn (str "content-type")
    (HeaderSpec.entries (str "content-type: a")) = Some [str "a"]
  ∧ HeaderCodec.parseHeaders (str "content-type: a") !! str "content-type"
    = None
  ∧ HeaderCodec.parseHeaders (str "content-type: a") !! str "Content-Type"
    = Some [str "a"].
Proof. by vm_compute. Qed.

(** C3 (amended).  For every header-block text, the flattened headers hold
    under each key its values in line order, joined with ", "; listing them
    as [key: value] lines, in whatever order Go ranges over the map, and
    parsing and flattening again gives the same keys, each joined value
    trimmed.  The pairs are the same ones whenever no joined value ends in
    white space, that is, unless the last of several values of a key is
    empty. *)
Theorem reparse_of_flattened_headers :
  ∀ text l,
    HeaderCodec.rangeOrder (HeaderSpec.flattened text) l →
    (∀ key,
       HeaderSpec.flattened text !! key
       = (λ vs, GoStrings.Join vs (str ", "))
           <$> HeaderSpec.lookupIn key
                 (HeaderSpec.canonicalEntry <$> HeaderSpec.entries text))
    ∧ HeaderSpec.flattened (HeaderCodec.headersText l)
      = GoStrings.TrimSpace <$> HeaderSpec.flattened text
    ∧ ((∀ k v, HeaderSpec.flattened text !! k = Some v →
               GoStrings.TrimSpace v = v) →
       HeaderSpec.flattened (HeaderCodec.headersText l)
       = HeaderSpec.flattened text).
Proof.
  intros text l Hl. split; [apply flattened_lookup|].
  pose proof (reparse_flattened text l Hl) as Hr. split; [done|].
  intros Ht. rewrite Hr. apply map_eq. intros k. rewrite lookup_fmap.
  destruct (HeaderSpec.flattened text !! k) as [v|] eqn:E; [|done].
  cbn. by rewrite (Ht _ _ E).
Qed.

Lemma reparse_of_flattened_headers_witness :
  HeaderCodec.rangeOrder (HeaderSpec.flattened (str "x-a: 1"))
    [(str "X-A", str "1")]
  ∧ (∀ k v, HeaderSpec.flattened (str "x-a: 1") !! k = Some v →
            GoStrings.TrimSpace v = v)
  ∧ HeaderSpec.flattened (HeaderCodec.headersText [(str "X-A", str "1")])
    = HeaderSpec.flattened (str "x-a: 1").
Proof.
  assert (HeaderCodec.rangeOrder (HeaderSpec.flattened (str "x-a: 1"))
            [(str "X-A", str "1")]) as Hl by (by vm_compute).
  assert (∀ k v, HeaderSpec.flattened (str "x-a: 1") !! k = Some v →
                 GoStrings.TrimSpace v = v) as Ht.
  { intros k v Hkv%elem_of_map_to_list. vm_compute in Hkv.
    apply list_elem_of_singleton in Hkv. by injection Hkv as -> ->. }
  split; [exact Hl|]. split; [exact Ht|].
  exact (proj2 (proj2 (reparse_of_flattened_headers _ _ Hl)) Ht).
Defined.

(** C3 as stated fails.  In the block "A: x", "A:" the key A has the joined
    value "x, "; listed and parsed again, the value is "x,". *)
Lemma reparse_trims_joined_value :
  HeaderCodec.rangeOrder
    (HeaderSpec.flattened HeaderSpec.blockWithEmptyLastValue)
    [(str "A", str "x, ")]
  ∧ HeaderSpec.flattened HeaderSpec.blockWithEmptyLastValue !! str "A"
    = Some (str "x, ")
  ∧ HeaderSpec.flattened (HeaderCodec.headersText [(str "A", str "x, ")])
    !! str "A" = Some (str "x,")
  ∧ HeaderSpec.flattened (HeaderCodec.headersText [(str "A", str "x, ")])
    ≠ HeaderSpec.flattened HeaderSpec.blockWithEmptyLastValue.
Proof.
  split; [by vm_compute|]. split; [by vm_compute|]. split; [by vm_compute|].
  intros H. apply (f_equal (λ m, m !! str "A")) in H. by vm_compute in H.
Qed.

(** C5.  The claim fails on [createNewCollection] and on
    [importPostmanJSON], whose loops over the workspaces have no [break]:
    with two workspaces named W, reached through the form of
    [createNewWorkspace], and W selected, the new collection and the
    imported one are appended to both workspaces.  [saveReqBtn], whose loop
    has the [break], stores the request in the first one only. *)
Theorem createNewCollection_reaches_every_namesake :
  Store.collectionNames Store.twoNamesakes = [(str "W", []); (str "W", [])]
  ∧ Store.workspaceSelect_Selected Store.twoNamesakes = str "W"
  ∧ Store.collectionNames
      (Store.createNewCollection true (str "c") Store.twoNamesakes)
    = [(str "W", [str "c"]); (str "W", [str "c"])]
  ∧ Store.collectionNames
      (Store.importPostmanJSON (Some (Store.mkPostman (str "p") []))
         Store.twoNamesakes)
    = [(str "W", [str "p"]); (str "W", [str "p"])]
  ∧ Store.requestNames (Store.saveRequest Store.namesakesWithForm)
    = [[[str "http://h"]]; [[]]].
Proof. by vm_compute. Qed.

(** C6 (amended).  For every state and every request index that is not less
    than the number of requests of the selected collection,
    [editRequestName] and [deleteRequest] return without a panic and leave
    the whole state, the request list with it, as it was. *)
Theorem request_index_beyond_end_is_noop :
  ∀ a reqIdx ok text confirmed,
    len (Store.selectedRequests a) ≤ reqIdx →
    Store.editRequestName reqIdx ok text a = Some a
    ∧ Store.deleteRequest reqIdx confirmed a = Some a.
Proof.
  intros a reqIdx ok text confirmed.
  unfold Store.selectedRequests, Store.editRequestName, Store.deleteRequest.
  destruct (Store.selectedCollection a) as [[w c]|]; [|done].
  intros H. by rewrite !decide_True.
Qed.

Lemma request_index_beyond_end_is_noop_witness :
  len (Store.selectedRequests Store.withOneRequest) ≤ 1
  ∧ Store.editRequestName 1 true (str "n") Store.withOneRequest
    = Some Store.withOneRequest
  ∧ Store.deleteRequest 1 true Store.withOneRequest
    = Some Store.withOneRequest.
Proof.
  assert (len (Store.selectedRequests Store.withOneRequest) ≤ 1) as H
    by by vm_compute.
  split; [exact H|].
  exact (request_index_beyond_end_is_noop Store.withOneRequest 1 true
           (str "n") true H).
Defined.

(** C6 as stated fails on a negative index: with a collection of one
    request selected, the index -1 passes the guard [reqIdx >= len(...)] and
    the next statement, [coll.Requests[reqIdx]], panics. *)
Lemma negative_request_index_panics :
  Store.requestNames Store.withOneRequest = [[[str "http://h"]]]
  ∧ Store.selectedCollection Store.withOneRequest = Some (0%nat, 0%nat)
  ∧ Store.editRequestName (-1) true (str "n") Store.withOneRequest = None
  ∧ Store.deleteRequest (-1) true Store.withOneRequest = None.
Proof. by vm_compute. Qed.

(** C10.  Whenever [saveReqBtn] stores a request (a workspace and a
    collection are selected), what it appends to the requests of that
    collection is the composed request, whose name and whose URL are both
    the text of the URL entry; without a selection it stores nothing. *)
Theorem saved_request_named_by_url :
  ∀ a,
    match Store.selectedCollection a with
    | Some (wsIdx, colIdx) =>
        ∃ r,
          Store.requestsAt wsIdx colIdx (Store.saveRequest a)
          = Store.requestsAt wsIdx colIdx a ++ [r]
          ∧ APIRequest.Name r = Store.urlEntry_Text a
          ∧ APIRequest.URL r = Store.urlEntry_Text a
          ∧ APIRequest.Name r = APIRequest.URL r
    | None => Store.saveRequest a = a
    end.
Proof.
  intros a. rewrite saveRequest_selected.
  destruct (Store.selectedCollection a) as [[w c]|] eqn:Hs; [|done].
  exists (Store.composedRequest a).
  destruct (selectedCollection_Some _ _ _ Hs) as (ws & Hw & Hc & _).
  rewrite requestsAt_save, requestsAt_update by eauto. done.
Qed.

(** C7.  For every method, URL and body, the request is built without a
    body and [reqSize] is 0 when the method is GET, DELETE, HEAD or OPTIONS,
    whatever the body entry holds; for every other method the body is
    passed, empty or not, and [reqSize] is its length in bytes. *)
Theorem body_omitted_for_bodyless_methods :
  ∀ method url body,
    let '(req, reqSize) := Executor.buildRequest method url body in
    Executor.method req = method ∧ Executor.url req = url
    ∧ if bool_decide (method ∈ [str "GET"; str "DELETE"; str "HEAD";
                                 str "OPTIONS"])
      then Executor.body req = None ∧ reqSize = 0
      else Executor.body req = Some body ∧ reqSize = len body.
Proof.
  intros method url body. unfold Executor.buildRequest, Executor.bodyless.
  destruct (bool_decide (method = str "GET" ∨ _)) eqn:E.
  - apply bool_decide_eq_true in E. rewrite bool_decide_true; [done|].
    set_solver.
  - apply bool_decide_eq_false in E. rewrite bool_decide_false; [done|].
    set_solver.
Qed.

(** C4 (amended).  For every list of workspaces whose strings (names,
    methods, URLs, header keys and values, bodies) are valid UTF-8, and
    every disk that lets the file be written and read, [saveWorkspaces]
    then [loadWorkspaces] returns the list that was saved, with no error:
    the same workspaces in the same order, each with its collections and
    requests in the same order and with equal fields, a nil list or map
    nil and an empty one empty. *)
Theorem save_then_load_round_trip :
  ∀ workspaces d,
    Codec.validStore workspaces →
    Store.writeFails d = false →
    Store.readFails d = false →
    Store.loadWorkspaces (Store.saveWorkspaces workspaces d).1
    = (workspaces, None).
Proof.
  intros workspaces d Hv Hw Hr. unfold Store.saveWorkspaces.
  rewrite Hw. unfold Store.loadWorkspaces. cbn [fst Store.file Store.readFails].
  rewrite Hr. by apply Unmarshal_MarshalIndent.
Qed.

Lemma save_then_load_round_trip_witness :
  Codec.validStore Store.sampleStore
  ∧ Store.loadWorkspaces (Store.saveWorkspaces Store.sampleStore Store.noFile).1
    = (Store.sampleStore, None).
Proof.
  assert (Codec.validStore Store.sampleStore) as Hv.
  { repeat first [ apply Forall_nil_2 | apply Forall_cons_2 | split ];
      try reflexivity;
      match goal with
      | H : _ !! _ = Some _ |- _ => apply lookup_singleton_Some in H as [<- <-]
      end; reflexivity. }
  split; [exact Hv|].
  exact (save_then_load_round_trip Store.sampleStore Store.noFile Hv
           eq_refl eq_refl).
Defined.

(** C4 as stated fails on a string that is not UTF-8: the writer puts
    U+FFFD for the byte FF, so the workspace named FF is loaded with the
    name EF BF BD. *)
Lemma invalid_utf8_name_not_restored :
  Store.loadWorkspaces (Store.saveWorkspaces Store.notUTF8 Store.noFile).1
  = (Some [Workspace.mk UTF8.replacement None], None)
  ∧ Store.loadWorkspaces (Store.saveWorkspaces Store.notUTF8 Store.noFile).1
    ≠ (Store.notUTF8, None).
Proof. split; [by vm_compute|]. vm_compute. discriminate. Qed.

(** C9 (amended).  [loadWorkspaces] returns the empty list and no error
    when the file does not exist.  It returns an error in three cases only,
    all with the file present: the file cannot be read (the error of the
    operating system); it is read and is not well-formed JSON (a syntax
    error); it is read and is well-formed JSON that does not fit the store,
    a value of another kind than the list, the object or the field it
    stands for (a type error).  Each of the three cases does return its
    error. *)
Theorem loadWorkspaces_failure_cases :
  ∀ d,
    (Store.file d = None → Store.loadWorkspaces d = (Some [], None))
    ∧ ∀ e,
        (Store.loadWorkspaces d).2 = Some e
        ↔ ∃ data,
            Store.file d = Some data
            ∧ (Store.readFails d = true ∧ e = Codec.IOError
               ∨ Store.readFails d = false ∧ JSON.Valid data = false
                 ∧ e = Codec.SyntaxError
               ∨ Store.readFails d = false ∧ e = Codec.UnmarshalTypeError
                 ∧ ∃ j, JSON.parse data = Some j
                        ∧ StoreShape.fitsStore j = false).
Proof.
  intros d. split.
  - unfold Store.loadWorkspaces. by intros ->.
  - intros e. unfold Store.loadWorkspaces, JSON.Valid. split.
    + destruct (Store.file d) as [data|]; [|done]. intros He.
      exists data. split; [done|].
      destruct (Store.readFails d); [left; by injection He as <-|right].
      rewrite Unmarshal_error in He.
      destruct (JSON.parse data) as [j|] eqn:Hp.
      * right. destruct (StoreShape.fitsStore j) eqn:Hj; [done|].
        injection He as <-. eauto.
      * left. rewrite bool_decide_false by (by intros [? ?]).
        by injection He as <-.
    + intros (data & -> & H).
      destruct H as [[-> ->]|[(-> & Hv & ->)|(-> & -> & j & Hp & Hj)]].
      * done.
      * rewrite Unmarshal_error. apply bool_decide_eq_false in Hv.
        destruct (JSON.parse data); [|done]. destruct Hv; eauto.
      * by rewrite Unmarshal_error, Hp, Hj.
Qed.

Lemma loadWorkspaces_failure_cases_witness :
  Store.file Store.noFile = None
  ∧ Store.loadWorkspaces Store.noFile = (Some [], None)
  ∧ (Store.loadWorkspaces (Store.mkDisk (Some (str "{}")) false false)).2
    = Some Codec.UnmarshalTypeError.
Proof.
  split; [reflexivity|]. split.
  - exact (proj1 (loadWorkspaces_failure_cases Store.noFile) eq_refl).
  - apply (proj2 (loadWorkspaces_failure_cases _)).
    exists (str "{}"). split; [reflexivity|]. right; right.
    repeat split. exists (JSON.JObject []). split; by vm_compute.
Defined.

(** C9 as stated fails on a file of well-formed JSON that is not a list of
    workspaces: the files [{}] and [[1]] are valid JSON and
    [loadWorkspaces] returns a decode error for both. *)
Lemma wellformed_file_fails_to_load :
  JSON.Valid (str "{}") = true
  ∧ Store.loadWorkspaces (Store.mkDisk (Some (str "{}")) false false)
    = (None, Some Codec.UnmarshalTypeError)
  ∧ JSON.Valid (str "[1]") = true
  ∧ Store.loadWorkspaces (Store.mkDisk (Some (str "[1]")) false false)
    = (Some [Workspace.zero], Some Codec.UnmarshalTypeError).
Proof. by vm_compute. Qed.

(** X1.  On ASCII text the search engine does not panic and does not lose
    the response: after every sequence of searches, Next, Previous, Clear,
    new responses and JSONata expressions that do not evaluate, started
    from the first state of the program, the capture is empty or the last
    response; with a query it is the last response and the stored offsets
    are those of the scan of the response, without a query nothing is
    stored; the current match is one of the stored ones; and the box shows
    the last response with every stored match between its markers. *)
Theorem search_run_keeps_the_response :
  ∀ l,
    Forall SearchMore.plainAction l →
    ∃ st,
      let body := SearchSpec.lastResponse l [] in
      Search.run l Search.initial = Some st
      ∧ (Search.originalText st = [] ∨ Search.originalText st = body)
      ∧ (Search.currentSearchQuery st ≠ [] →
         Search.originalText st = body
         ∧ SearchSpec.nonOverlappingScan body (Search.currentSearchQuery st)
             0 (Search.searchResults st))
      ∧ (Search.currentSearchQuery st = [] → Search.searchResults st = [])
      ∧ (Search.searchResults st = [] ∧ Search.currentMatchIndex st = -1
         ∨ 0 ≤ Search.currentMatchIndex st < len (Search.searchResults st))
      ∧ Search.jsonResponse_Text st
        = SearchMore.wrapped body (len (Search.currentSearchQuery st))
            (Search.currentMatchIndex st) (Search.searchResults st) 0 0.
Proof.
  intros l Hl.
  destruct (run_from_start l Hl)
    as (st & Hrun & [[H1 H2] H3 H4 Hcap Hidx _ _] & Hsh).
  exists st. cbn zeta. split; [done|]. split.
  { destruct (decide (Search.originalText st = [])); [by left|right; auto]. }
  split; [by auto|]. by repeat split.
Qed.

Lemma search_run_keeps_the_response_witness :
  Forall SearchMore.plainAction
    [Search.Response (str "abc Abc"); Search.Search (str " B ");
     Search.Next; Search.Previous; Search.JSONata false;
     Search.Search (str "bc")]
  ∧ ∃ st,
      Search.run
        [Search.Response (str "abc Abc"); Search.Search (str " B ");
         Search.Next; Search.Previous; Search.JSONata false;
         Search.Search (str "bc")] Search.initial
      = Some st.
Proof.
  assert (Forall SearchMore.plainAction
            [Search.Response (str "abc Abc"); Search.Search (str " B ");
             Search.Next; Search.Previous; Search.JSONata false;
             Search.Search (str "bc")]) as Hl
    by (repeat constructor).
  split; [exact Hl|].
  destruct (search_run_keeps_the_response _ Hl) as (st & Hrun & _).
  by exists st.
Defined.







(** X5.  What [highlightText] returns for ASCII text: for every non-empty
    query it returns the offsets of the scan and the text in which the
    bytes of every match, and nothing else, stand between markers, those
    of the current match around the match number [currentIdx] and those of
    the other matches around the others; the text before, between and
    after the matches is as it was.  Without a match the text is returned
    as it is. *)
Theorem highlightText_wraps_every_match :
  ∀ old text query currentIdx,
    SearchMore.plain text → SearchMore.plain query → query ≠ [] →
    ∃ offsets,
      Search.highlightText old text query currentIdx
      = Some (offsets,
              SearchMore.wrapped text (len query) currentIdx offsets 0 0)
      ∧ SearchSpec.nonOverlappingScan text query 0 offsets
      ∧ (offsets = [] →
         SearchMore.wrapped text (len query) currentIdx offsets 0 0 = text).
Proof.
  intros old text query currentIdx Ht Hp Hq.
  destruct (highlightText_wrapped old text query currentIdx Ht Hp Hq)
    as (offsets & Hrun & Hscan).
  exists offsets. split; [done|]. split; [done|]. by intros ->.
Qed.

Lemma highlightText_wraps_every_match_witness :
  ∃ offsets,
    Search.highlightText [] (str "xAbxab") (str "ab") 1
    = Some (offsets,
            SearchMore.wrapped (str "xAbxab") 2 1 offsets 0 0)
    ∧ offsets = [1; 4].
Proof.
  destruct (highlightText_wraps_every_match [] (str "xAbxab") (str "ab") 1)
    as (offsets & Hrun & Hscan & _); [reflexivity | reflexivity | done |].
  exists offsets. split; [exact Hrun|].
  vm_compute in Hrun. by injection Hrun as <- _.
Defined.

(** X6.  What is saved is what is in memory: from a state in which the
    file holds what is in memory (at start-up without a file, no workspace
    and no file), on a disk that takes the writes, every sequence of the
    callbacks that change the store (new workspace, new collection, save
    request, rename, delete, import) and of selections and form edits that
    does not panic ends in such a state again; so, when the strings in
    memory are valid UTF-8 and the file can be read, [loadWorkspaces] at
    the next start returns the workspaces that were in memory. *)
Theorem store_file_follows_memory :
  ∀ ops a a',
    StoreMore.synced a →
    Store.writeFails (Store.disk a) = false →
    StoreMore.applyAll ops a = Some a' →
    StoreMore.synced a'
    ∧ Store.writeFails (Store.disk a') = false
    ∧ (Store.readFails (Store.disk a') = false →
       Codec.validStore (Store.workspaces a') →
       Store.loadWorkspaces (Store.disk a') = (Store.workspaces a', None)).
Proof.
  intros ops a a' Hs Hw Hrun.
  destruct (applyAll_kept ops a a') as [Hs' Hw']; [done..|].
  split; [done|]. split; [done|]. intros Hr Hv. by apply synced_reloads.
Qed.

Lemma store_file_follows_memory_witness :
  ∃ a',
    StoreMore.applyAll
      [StoreMore.NewWorkspace true (str "W");
       StoreMore.NewCollection true (str "c");
       StoreMore.FillForm (str "POST") (str "http://h") [] (str "{}");
       StoreMore.SaveRequest;
       StoreMore.EditRequestName 0 true (str "first");
       StoreMore.DeleteRequest 5 true]
      (StoreMore.started Store.noFile) = Some a'
    ∧ Store.loadWorkspaces (Store.disk a') = (Store.workspaces a', None).
Proof.
  destruct (StoreMore.applyAll _ (StoreMore.started Store.noFile))
    as [a'|] eqn:Hrun; [|vm_compute in Hrun; discriminate].
  assert (StoreMore.synced (StoreMore.started Store.noFile)) as Hs
    by (right; split; reflexivity).
  destruct (store_file_follows_memory _ _ _ Hs eq_refl Hrun)
    as (_ & _ & Hload).
  exists a'. split; [reflexivity|].
  vm_compute in Hrun. injection Hrun as <-.
  apply Hload; [reflexivity|].
  repeat first [ apply Forall_nil_2 | apply Forall_cons_2
               | exact (map_Forall_empty _) | split ];
    reflexivity.
Defined.

(** X7.  [deleteRequest] removes the request at the index and nothing
    else: with a workspace and a collection selected and an index inside
    the list, the confirmed callback returns without a panic, the requests
    of that collection are those before the index followed by those after
    it, the requests of every other collection and all workspace and
    collection names are as they were; without the confirmation nothing
    changes. *)
Theorem deleteRequest_removes_the_indexed_request :
  ∀ a w c reqIdx,
    Store.selectedCollection a = Some (w, c) →
    0 ≤ reqIdx < len (Store.requestsAt w c a) →
    ∃ a',
      Store.deleteRequest reqIdx true a = Some a'
      ∧ Store.requestsAt w c a'
        = take (Z.to_nat reqIdx) (Store.requestsAt w c a)
          ++ drop (S (Z.to_nat reqIdx)) (Store.requestsAt w c a)
      ∧ len (Store.requestsAt w c a') = len (Store.requestsAt w c a) - 1
      ∧ (∀ w' c', (w', c') ≠ (w, c) →
                  Store.requestsAt w' c' a' = Store.requestsAt w' c' a)
      ∧ Store.collectionNames a' = Store.collectionNames a
      ∧ Store.deleteRequest reqIdx false a = Some a.
Proof.
  intros a w c reqIdx Hsel Hi.
  rewrite !(deleteRequest_inside a w c) by done.
  set (requests := Store.requestsAt w c a) in *.
  eexists. split; [done|].
  destruct (selectedCollection_Some _ _ _ Hsel) as (ws & Hw & Hc & _).
  assert (Store.requestsAt w c
            (Store.save (Store.updateRequests w c
               (λ _, take (Z.to_nat reqIdx) requests
                     ++ drop (S (Z.to_nat reqIdx)) requests) a)).1
          = take (Z.to_nat reqIdx) requests
            ++ drop (S (Z.to_nat reqIdx)) requests) as Hnew
    by (rewrite requestsAt_save, requestsAt_update by eauto; done).
  split; [done|]. split.
  { rewrite Hnew, len_app. unfold len in *.
    rewrite length_take, length_drop. lia. }
  split.
  { intros w' c' Hne.
    by rewrite requestsAt_save, requestsAt_update_ne. }
  split; [|done].
  by rewrite collectionNames_save, collectionNames_update.
Qed.

Lemma deleteRequest_removes_the_indexed_request_witness :
  ∃ a',
    Store.deleteRequest 0 true Store.withOneRequest = Some a'
    ∧ Store.requestsAt 0 0 a' = [].
Proof.
  assert (Store.selectedCollection Store.withOneRequest
          = Some (0%nat, 0%nat)) as Hsel by (vm_compute; reflexivity).
  assert (0 ≤ 0 < len (Store.requestsAt 0 0 Store.withOneRequest)) as Hi
    by (vm_compute; split; [discriminate | reflexivity]).
  destruct (deleteRequest_removes_the_indexed_request _ _ _ _ Hsel Hi)
    as (a' & Hdel & Hreq & _).
  exists a'. split; [exact Hdel|]. rewrite Hreq. by vm_compute.
Defined.

(** X8.  [editRequestName] renames the request at the index and nothing
    else: with a workspace and a collection selected, an index inside the
    list, the form confirmed and a name that is not empty, the callback
    returns without a panic, the request at the index has the new name
    and its method, URL, headers and body of before, the other requests of
    the collection, the requests of every other collection and all
    workspace and collection names are as they were; a cancelled form or
    an empty name changes nothing. *)
Theorem editRequestName_renames_the_indexed_request :
  ∀ a w c reqIdx text r,
    Store.selectedCollection a = Some (w, c) →
    0 ≤ reqIdx →
    Store.requestsAt w c a !! Z.to_nat reqIdx = Some r →
    text ≠ [] →
    ∃ a',
      Store.editRequestName reqIdx true text a = Some a'
      ∧ Store.requestsAt w c a'
        = <[Z.to_nat reqIdx :=
              APIRequest.mk text (APIRequest.Method r) (APIRequest.URL r)
                (APIRequest.Headers r) (APIRequest.Body r)]>
            (Store.requestsAt w c a)
      ∧ (∀ w' c', (w', c') ≠ (w, c) →
                  Store.requestsAt w' c' a' = Store.requestsAt w' c' a)
      ∧ Store.collectionNames a' = Store.collectionNames a
      ∧ Store.editRequestName reqIdx false text a = Some a
      ∧ Store.editRequestName reqIdx true [] a = Some a.
Proof.
  intros a w c reqIdx text r Hsel Hi Hr Ht.
  assert (0 ≤ reqIdx < len (Store.requestsAt w c a)) as Hin.
  { apply lookup_lt_Some in Hr. unfold len. lia. }
  rewrite !(editRequestName_inside a w c) by done.
  rewrite decide_False by (intros [|]; done).
  rewrite !decide_True by auto.
  set (requests := Store.requestsAt w c a) in *.
  eexists. split; [done|].
  destruct (selectedCollection_Some _ _ _ Hsel) as (ws & Hw & Hc & _).
  split.
  { rewrite requestsAt_save, requestsAt_update by eauto.
    fold requests. apply list_eq. intros i.
    destruct (decide (i = Z.to_nat reqIdx)) as [->|Hne].
    - rewrite list_lookup_alter_eq, list_lookup_insert_eq, Hr;
        [done | by apply lookup_lt_Some in Hr].
    - by rewrite list_lookup_alter_ne, list_lookup_insert_ne. }
  split.
  { intros w' c' Hne.
    by rewrite requestsAt_save, requestsAt_update_ne. }
  split; [|done].
  by rewrite collectionNames_save, collectionNames_update.
Qed.

Lemma editRequestName_renames_the_indexed_request_witness :
  ∃ a',
    Store.editRequestName 0 true (str "n") Store.withOneRequest = Some a'
    ∧ APIRequest.Name <$> Store.requestsAt 0 0 a' = [str "n"].
Proof.
  assert (Store.selectedCollection Store.withOneRequest
          = Some (0%nat, 0%nat)) as Hsel by (vm_compute; reflexivity).
  destruct (Store.requestsAt 0 0 Store.withOneRequest !! Z.to_nat 0)
    as [r|] eqn:Hr; [|vm_compute in Hr; discriminate].
  destruct (editRequestName_renames_the_indexed_request _ _ _ 0 (str "n") r
              Hsel ltac:(done) Hr ltac:(done))
    as (a' & Hedit & Hreq & _).
  exists a'. split; [exact Hedit|]. rewrite Hreq.
  vm_compute in Hr. injection Hr as <-. by vm_compute.
Defined.

(** X9.  [saveReqBtn] touches one collection: the requests of every
    collection other than the selected one of the first workspace with the
    selected name, all workspace and collection names, the selection and
    the form are after the callback as they were before, whether the file
    could be written or not; without a valid selection the whole state is
    as it was. *)
Theorem saveRequest_touches_one_collection :
  ∀ a,
    (∀ w c, Store.selectedCollection a ≠ Some (w, c) →
            Store.requestsAt w c (Store.saveRequest a)
            = Store.requestsAt w c a)
    ∧ Store.collectionNames (Store.saveRequest a) = Store.collectionNames a
    ∧ Store.workspaceSelect_Selected (Store.saveRequest a)
      = Store.workspaceSelect_Selected a
    ∧ Store.selectedCollectionIdx (Store.saveRequest a)
      = Store.selectedCollectionIdx a
    ∧ Store.urlEntry_Text (Store.saveRequest a) = Store.urlEntry_Text a
    ∧ (Store.selectedCollection a = None → Store.saveRequest a = a).
Proof.
  intros a. rewrite saveRequest_selected.
  destruct (Store.selectedCollection a) as [[w c]|] eqn:Hsel; [|done].
  split.
  { intros w' c' Hne. rewrite requestsAt_save, requestsAt_update_ne; [done|].
    congruence. }
  split; [by rewrite collectionNames_save, collectionNames_update|].
  by destruct (save_form (Store.updateRequests w c
                 (λ l, l ++ [Store.composedRequest a]) a)) as (-> & -> & ->).
Qed.

(** X10.  The buttons of every row that the request list shows find their
    request: the row count of [requestList] is computed without a panic,
    is not negative, is the number of requests of the selected collection
    whenever [editRequestName] and [deleteRequest] find one selected, and
    for every row below the count the two callbacks return without a
    panic, whatever the user answers. *)
Theorem request_list_rows_are_safe :
  ∀ a,
    ∃ n,
      StoreMore.requestListLength a = Some n
      ∧ 0 ≤ n
      ∧ (∀ w c, Store.selectedCollection a = Some (w, c) →
                n = len (Store.requestsAt w c a))
      ∧ ∀ id ok text confirmed,
          0 ≤ id < n →
          is_Some (Store.editRequestName id ok text a)
          ∧ is_Some (Store.deleteRequest id confirmed a).
Proof.
  intros a.
  assert (∃ n, StoreMore.requestListLength a = Some n ∧ 0 ≤ n
               ∧ ∀ w c, Store.selectedCollection a = Some (w, c) →
                        n = len (Store.requestsAt w c a))
    as (n & Hn & Hpos & Hsel).
  { unfold StoreMore.requestListLength.
    destruct (decide _) as [Hg|Hg].
    { exists 0. split; [done|]. split; [done|]. intros w c Hs.
      apply selectedCollection_idx in Hs as (? & _ & ? & ? & _).
      destruct Hg as [?|[?|?]]; [done | done | lia]. }
    destruct (rowsIn_total (Store.workspaceSelect_Selected a)
                (Store.selectedCollectionIdx a)
                (elems (Store.workspaces a))) as (n & Hn & Hpos); [lia|].
    exists n. split; [done|]. split; [done|]. intros w c Hs.
    destruct (selectedCollection_Some _ _ _ Hs) as (ws & Hw & [col Hc] & Hname & Hmin).
    destruct (selectedCollection_idx _ _ _ Hs) as (Hi & -> & _).
    assert (Store.selectedCollectionIdx a
            < len (elems (Workspace.Collections ws))) as Hlt.
    { apply lookup_lt_Some in Hc. unfold len. lia. }
    rewrite (rowsIn_first _ _ _ w ws) in Hn by done.
    unfold Store.index in Hn. rewrite decide_True, Hc in Hn by done.
    cbn in Hn. injection Hn as <-.
    unfold Store.requestsAt. by rewrite Hw, Hc. }
  exists n. split; [done|]. split; [done|]. split; [done|].
  intros id ok text confirmed Hid.
  destruct (Store.selectedCollection a) as [[w c]|] eqn:Hs.
  - rewrite (editRequestName_inside a w c), (deleteRequest_inside a w c);
      try done; try (rewrite <- (Hsel w c); done).
    split; [by destruct (decide _) | by destruct confirmed].
  - unfold Store.editRequestName, Store.deleteRequest. by rewrite Hs.
Qed.

(** X11.  Choosing a collection by name selects the first collection with
    that name in the first workspace with the selected name:
    [collectionSelect.OnChanged] changes the selected index only; when the
    callbacks that work on the selection then find a collection selected,
    that collection has the chosen name and no collection before it in
    its workspace has; and they do find one whenever that workspace has a
    collection with the name. *)
Theorem collectionChanged_selects_first_by_name :
  ∀ a selected,
    selected ≠ Store.newCollectionOption →
    let a' := Store.collectionChanged selected a in
    Store.workspaces a' = Store.workspaces a
    ∧ Store.disk a' = Store.disk a
    ∧ Store.workspaceSelect_Selected a' = Store.workspaceSelect_Selected a
    ∧ (∀ w c,
         Store.selectedCollection a' = Some (w, c) →
         ∃ ws col,
           elems (Store.workspaces a) !! w = Some ws
           ∧ elems (Workspace.Collections ws) !! c = Some col
           ∧ Collection.Name col = selected
           ∧ ∀ j col', (j < c)%nat →
                       elems (Workspace.Collections ws) !! j = Some col' →
                       Collection.Name col' ≠ selected)
    ∧ (∀ w ws col,
         Store.workspaceSelect_Selected a ≠ [] →
         Store.workspaceSelect_Selected a ≠ Store.newWorkspaceOption →
         elems (Store.workspaces a) !! w = Some ws →
         Workspace.Name ws = Store.workspaceSelect_Selected a →
         (∀ j ws', (j < w)%nat → elems (Store.workspaces a) !! j = Some ws' →
                   Workspace.Name ws' ≠ Store.workspaceSelect_Selected a) →
         col ∈ elems (Workspace.Collections ws) →
         Collection.Name col = selected →
         ∃ c, Store.selectedCollection a' = Some (w, c)).
Proof.
  intros a selected Hsel a'.
  assert (Store.workspaces a' = Store.workspaces a
          ∧ Store.disk a' = Store.disk a
          ∧ Store.workspaceSelect_Selected a'
            = Store.workspaceSelect_Selected a) as (Hws & Hd & Hs).
  { unfold a', Store.collectionChanged. rewrite decide_False by done.
    destruct (_ !! _); [|done]. by destruct (decide _). }
  do 3 (split; [done|]). split.
  - intros w c Hc.
    destruct (selectedCollection_Some _ _ _ Hc) as (ws & Hw & [col Hcol] & Hn & Hmin).
    destruct (selectedCollection_idx _ _ _ Hc) as (Hi & -> & H1 & H2 & Hf).
    rewrite Hws in Hw, Hmin, Hf. rewrite Hs in Hn, Hmin, Hf.
    exists ws, col. split; [done|]. split; [done|].
    unfold a', Store.collectionChanged in Hi, Hcol |- *.
    rewrite decide_False in Hi, Hcol |- * by done.
    rewrite Hf, Nat2Z.id, Hw in Hi, Hcol |- *.
    rewrite decide_False in Hi, Hcol |- * by lia.
    cbn [Store.selectedCollectionIdx Store.set_collectionIdx] in *.
    pose proof (findCollection_first selected
                  (elems (Workspace.Collections ws)) 0) as Hfc.
    cbn zeta in Hfc. destruct Hfc as [[Hk _]|(_ & (col' & Hl & Hname) & Hfirst)];
      [lia|].
    rewrite Z.sub_0_r in Hl, Hfirst. rewrite Hl in Hcol.
    injection Hcol as <-. by split.
  - intros w ws col H1 H2 Hw Hn Hmin Hcol Hname.
    pose proof (findCollection_first selected
                  (elems (Workspace.Collections ws)) 0) as Hfc.
    cbn zeta in Hfc.
    destruct Hfc as [[_ Hall]|(Hle & (col' & Hl & _) & _)].
    { rewrite Forall_forall in Hall. by destruct (Hall col Hcol). }
    rewrite Z.sub_0_r in Hl. apply lookup_lt_Some in Hl.
    eexists. apply selectedCollection_intro with (ws := ws);
      rewrite ?Hws, ?Hs; try done.
    unfold a', Store.collectionChanged. rewrite decide_False by done.
    rewrite (findWorkspace_is _ _ w ws 0) by done.
    rewrite Z.add_0_l, Nat2Z.id, Hw. rewrite decide_False by lia.
    cbn [Store.selectedCollectionIdx Store.set_collectionIdx].
    unfold len. lia.
Qed.

Lemma collectionChanged_selects_first_by_name_witness :
  Store.selectedCollection
    (Store.collectionChanged (str "c")
       (Store.set_collectionIdx (-1) Store.withOneRequest))
  = Some (0%nat, 0%nat).
Proof.
  destruct (proj2 (proj2 (proj2 (proj2
              (collectionChanged_selects_first_by_name
                 (Store.set_collectionIdx (-1) Store.withOneRequest)
                 (str "c") ltac:(discriminate)))))
              0%nat (Workspace.mk (str "W")
                       (Some [Collection.mk (str "c")
                                (Some [Store.composedRequest
                                         Store.withOneRequest])]))
              (Collection.mk (str "c")
                 (Some [Store.composedRequest Store.withOneRequest])))
    as [c Hc]; [discriminate | discriminate | by vm_compute | by vm_compute
               | intros j ws' Hj; lia | left | reflexivity |].
  rewrite Hc. f_equal. f_equal.
  vm_compute in Hc. by injection Hc as <-.
Defined.

(** X12.  A saved request loads back: with a workspace and a collection
    selected, the workspace name in use once and a method of the method
    dropdown in the form, after [saveReqBtn] a click on the new row of the
    request list ([requestList.OnSelected] with the index of the request
    just appended) returns without a panic and puts in the form the
    method, the URL and the body that were saved; the headers come back
    as lines that parse to the same keys, each with its joined value
    trimmed, in whatever order Go ranges over the stored map. *)
Theorem saved_request_loads_back :
  ∀ order a w c,
    (∀ m, HeaderCodec.rangeOrder m (order m)) →
    Store.selectedCollection a = Some (w, c) →
    (∀ j ws', elems (Store.workspaces a) !! j = Some ws' →
              Workspace.Name ws' = Store.workspaceSelect_Selected a →
              j = w) →
    Store.methodSelect_Selected a ∈ StoreMore.methods →
    ∃ a',
      StoreMore.requestSelected order (len (Store.requestsAt w c a))
        (Store.saveRequest a) = Some a'
      ∧ Store.methodSelect_Selected a' = Store.methodSelect_Selected a
      ∧ Store.urlEntry_Text a' = Store.urlEntry_Text a
      ∧ Store.bodyEntry_Text a' = Store.bodyEntry_Text a
      ∧ HeaderSpec.flattened (Store.headersEntry_Text a')
        = GoStrings.TrimSpace
            <$> HeaderSpec.flattened (Store.headersEntry_Text a)
      ∧ Store.workspaces a' = Store.workspaces (Store.saveRequest a).
Proof.
  intros order a w c Horder Hsel Huniq Hmethod.
  destruct (saveRequest_workspace a w c Hsel) as (ws & col & Hw & Hc & Hw1).
  destruct (selectedCollection_Some _ _ _ Hsel) as (_ & _ & _ & _ & _).
  destruct (selectedCollection_idx _ _ _ Hsel) as (Hi & -> & _).
  destruct (saveRequest_touches_one_collection_facts a)
    as (Hsel1 & Hidx1).
  pose proof (lookup_lt_Some _ _ _ Hc) as Hlt.
  assert (Store.requestsAt w (Z.to_nat (Store.selectedCollectionIdx a)) a
          = elems (Collection.Requests col)) as Hreqs
    by (unfold Store.requestsAt; by rewrite Hw, Hc).
  rewrite (requestSelected_unique order _ _ w _ Hw1).
  2:{ intros j ws' Hj Hn. rewrite Hsel1 in Hn.
      pose proof (saveRequest_names a j) as Hnames. rewrite Hj in Hnames.
      destruct (elems (Store.workspaces a) !! j) as [ws0|] eqn:Hj0; [|done].
      injection Hnames as Hnames. apply (Huniq j ws0); congruence. }
  unfold StoreMore.selectIn. cbn [Workspace.Name Workspace.Collections elems
                                    default from_option id].
  destruct (selectedCollection_Some _ _ _ Hsel) as (ws' & Hw' & _ & Hname & _).
  rewrite Hw in Hw'. injection Hw' as <-.
  rewrite Hsel1, Hidx1. rewrite decide_True by done.
  rewrite decide_True by (unfold len; rewrite length_insert; lia).
  match goal with
  | |- context [Store.index ?l ?i] =>
      destruct (index_Some l i) as (c0 & -> & Hc0);
        [unfold len; rewrite length_insert; lia|]
  end.
  rewrite list_lookup_insert_eq in Hc0 by done. injection Hc0 as <-.
  cbn [mbind option_bind Collection.Requests elems default from_option id].
  rewrite Hreqs. fold (elems (Collection.Requests col)).
  rewrite decide_True by (rewrite len_app; unfold len; cbn; lia).
  match goal with
  | |- context [Store.index ?l ?i] =>
      destruct (index_Some l i) as (r & -> & Hr);
        [rewrite len_app; unfold len; cbn; lia|]
  end.
  unfold len in Hr.
  rewrite Nat2Z.id, lookup_app_r, Nat.sub_diag in Hr by done.
  injection Hr as <-. cbn [mbind option_bind].
  eexists. split; [done|]. unfold StoreMore.loadInto, Store.composedRequest.
  cbn [Store.methodSelect_Selected Store.urlEntry_Text Store.bodyEntry_Text
       Store.headersEntry_Text Store.workspaces APIRequest.Method
       APIRequest.URL APIRequest.Body APIRequest.Headers].
  rewrite decide_True by done. repeat split.
  apply reparse_flattened, Horder.
Qed.

Lemma saved_request_loads_back_witness :
  ∃ a',
    StoreMore.requestSelected map_to_list
      (len (Store.requestsAt 0 0 Store.withOneRequest))
      (Store.saveRequest Store.withOneRequest) = Some a'
    ∧ Store.urlEntry_Text a' = Store.urlEntry_Text Store.withOneRequest
    ∧ Store.bodyEntry_Text a' = Store.bodyEntry_Text Store.withOneRequest.
Proof.
  assert (Store.selectedCollection Store.withOneRequest
          = Some (0%nat, 0%nat)) as Hsel by (vm_compute; reflexivity).
  assert (length (elems (Store.workspaces Store.withOneRequest)) = 1%nat)
    as Hone by (vm_compute; reflexivity).
  destruct (saved_request_loads_back map_to_list Store.withOneRequest
              0%nat 0%nat) as (a' & Hload & _ & Hurl & Hbody & _).
  - intros m. unfold HeaderCodec.rangeOrder. reflexivity.
  - exact Hsel.
  - intros j ws' Hj _. apply lookup_lt_Some in Hj. lia.
  - apply list_elem_of_In. right. left. reflexivity.
  - exists a'. split; [exact Hload|]. split; [exact Hurl | exact Hbody].
Defined.

(** X13.  The picker of [loadReqBtn] loads the last request with the
    chosen name: with a workspace and a collection selected, when the
    collection has several requests of the name chosen in the picker
    (requests are named by their URL), the form ends up with the URL, the
    headers and the body of the last of them, and with its method when
    that is a method of the dropdown; the store is not changed. *)
Theorem picked_request_is_the_last_of_its_name :
  ∀ order sel a w c l1 r l2,
    Store.selectedCollection a = Some (w, c) →
    Store.requestsAt w c a = l1 ++ r :: l2 →
    APIRequest.Name r = sel →
    Forall (λ r', APIRequest.Name r' ≠ sel) l2 →
    let a' := StoreMore.loadRequest order sel a in
    Store.urlEntry_Text a' = APIRequest.URL r
    ∧ Store.bodyEntry_Text a' = APIRequest.Body r
    ∧ Store.headersEntry_Text a'
      = HeaderCodec.headersText
          (match APIRequest.Headers r with
           | Some m => order m
           | None => []
           end)
    ∧ (APIRequest.Method r ∈ StoreMore.methods →
       Store.methodSelect_Selected a' = APIRequest.Method r)
    ∧ Store.workspaces a' = Store.workspaces a.
Proof.
  intros order sel a w c l1 r l2 Hsel Hreqs Hr Hl2 a'. unfold a'.
  rewrite (loadRequest_selected order sel a w c Hsel), Hreqs.
  rewrite decide_False.
  2:{ rewrite len_app. unfold len. cbn. lia. }
  rewrite pickRequest_last by done. unfold StoreMore.loadInto.
  cbn [Store.urlEntry_Text Store.bodyEntry_Text Store.headersEntry_Text
       Store.methodSelect_Selected Store.workspaces].
  do 3 (split; [done|]). split.
  - intros Hm. by rewrite decide_True.
  - apply pickRequest_workspaces.
Qed.

Lemma picked_request_is_the_last_of_its_name_witness :
  Store.urlEntry_Text
    (StoreMore.loadRequest map_to_list (str "http://h")
       (Store.saveRequest Store.withOneRequest))
  = str "http://h".
Proof.
  assert (Store.selectedCollection (Store.saveRequest Store.withOneRequest)
          = Some (0%nat, 0%nat)) as Hsel by (vm_compute; reflexivity).
  assert (Store.requestsAt 0 0 (Store.saveRequest Store.withOneRequest)
          = [Store.composedRequest Store.withOneRequest]
            ++ Store.composedRequest Store.withOneRequest :: []) as Hreqs
    by (vm_compute; reflexivity).
  exact (proj1 (picked_request_is_the_last_of_its_name map_to_list
                  (str "http://h") _ _ _ _ _ _ Hsel Hreqs eq_refl
                  (Forall_nil_2 _))).
Defined.

(** X14.  What the import makes of a Postman collection: the collection
    has the name of the payload and one request per item, in the order of
    the items (no request list at all without items); a request takes the
    name, the method and the raw body of its item; its URL is the item's
    URL when that is a string, the string under [raw] when it is an object
    with one, and empty otherwise; its header map has the keys of the
    item's header list, each with the value of the last entry of that
    key. *)
Theorem importCollection_converts_items :
  ∀ p,
    Collection.Name (Store.importCollection p) = Store.info_Name p
    ∧ elems (Collection.Requests (Store.importCollection p))
      = Store.importRequest <$> Store.items p
    ∧ (Collection.Requests (Store.importCollection p) = None
       ↔ Store.items p = [])
    ∧ ∀ item,
        let r := Store.importRequest item in
        APIRequest.Name r = Store.item_Name item
        ∧ APIRequest.Method r = Store.item_Method item
        ∧ APIRequest.Body r = Store.item_Raw item
        ∧ APIRequest.URL r
          = match Store.item_URL item with
            | Store.URLString v => v
            | Store.URLObject (Some raw) => raw
            | _ => []
            end
        ∧ ∃ m,
            APIRequest.Headers r = Some m
            ∧ ∀ k,
                m !! k
                = snd <$> last (filter (λ h, h.1 = k)
                                  (Store.item_Header item)).
Proof.
  intros p. split; [done|]. split.
  { unfold Store.importCollection. cbn [Collection.Requests].
    by rewrite importCollection_requests. }
  split.
  { unfold Store.importCollection. cbn [Collection.Requests].
    destruct (Store.items p) as [|item l] eqn:E; [done|]. split; [|done].
    intros Hnone. apply (f_equal elems) in Hnone.
    rewrite importCollection_requests in Hnone. by cbn in Hnone. }
  intros item. cbn zeta. do 4 (split; [done|]).
  eexists. split; [done|]. intros k.
  rewrite foldl_insert_lookup.
  by destruct (last _).
Qed.

(** X15.  No callback removes, renames or reorders a workspace: after
    every sequence of operations that does not panic, the workspace names
    are the names of before, in their order, followed by the names that
    the forms of [createNewWorkspace] were given and took (confirmed and
    not empty), in the order of the operations, whether or not the file
    could be written. *)
Theorem workspaces_only_grow :
  ∀ ops a a',
    StoreMore.applyAll ops a = Some a' →
    StoreMore.workspaceNames a'
    = StoreMore.workspaceNames a ++ StoreMore.acceptedNames ops.
Proof. intros ops a a'. apply applyAll_names. Qed.

Lemma workspaces_only_grow_witness :
  ∃ a',
    StoreMore.applyAll
      [StoreMore.NewWorkspace true (str "W");
       StoreMore.NewWorkspace false (str "X");
       StoreMore.NewWorkspace true [];
       StoreMore.NewCollection true (str "c");
       StoreMore.NewWorkspace true (str "W")]
      (StoreMore.started (Store.mkDisk None false true)) = Some a'
    ∧ StoreMore.workspaceNames a' = [str "W"; str "W"].
Proof.
  destruct (StoreMore.applyAll _ (StoreMore.started _)) as [a'|] eqn:Hrun;
    [|vm_compute in Hrun; discriminate].
  exists a'. split; [reflexivity|].
  exact (workspaces_only_grow _ _ _ Hrun).
Defined.

(** X16.  The store file never becomes unreadable, whatever bytes the names,
    URLs, headers and bodies hold (UTF-8 or not): what [saveWorkspaces]
    writes is JSON that [loadWorkspaces] reads without an error; and so,
    from a state in which the file holds what is in memory, on a disk that
    takes the writes, after every sequence of store callbacks, selections
    and form edits that does not panic, [loadWorkspaces] has no error on
    the file when it can be read. *)
Theorem store_file_always_loads :
  (∀ workspaces d,
     Store.writeFails d = false → Store.readFails d = false →
     JSON.Valid (Codec.MarshalIndent workspaces) = true
     ∧ Store.file (Store.saveWorkspaces workspaces d).1
       = Some (Codec.MarshalIndent workspaces)
     ∧ (Store.loadWorkspaces (Store.saveWorkspaces workspaces d).1).2 = None)
  ∧ (∀ ops a a',
       StoreMore.synced a →
       Store.writeFails (Store.disk a) = false →
       StoreMore.applyAll ops a = Some a' →
       Store.readFails (Store.disk a') = false →
       (Store.loadWorkspaces (Store.disk a')).2 = None).
Proof.
  split.
  - intros workspaces d Hw Hr.
    destruct (MarshalIndent_loads workspaces) as [Hp He].
    unfold Store.saveWorkspaces, Store.loadWorkspaces. rewrite Hw. cbn.
    rewrite Hr. split; [by apply bool_decide_eq_true|done].
  - intros ops a a' Hs Hw Hrun Hr.
    destruct (applyAll_kept ops a a') as [Hs' _]; [done..|].
    unfold Store.loadWorkspaces.
    destruct Hs' as [Hf|[Hf _]]; rewrite Hf; [|done].
    rewrite Hr. apply MarshalIndent_loads.
Qed.

Lemma store_file_always_loads_witness :
  JSON.Valid (Codec.MarshalIndent Store.notUTF8) = true
  ∧ (Store.loadWorkspaces
       (Store.saveWorkspaces Store.notUTF8 Store.noFile).1).2 = None
  ∧ ∃ a',
      StoreMore.applyAll
        [StoreMore.NewWorkspace true [UTF8.byte 255];
         StoreMore.NewCollection true [UTF8.byte 192; UTF8.byte 128]]
        (StoreMore.started Store.noFile) = Some a'
      ∧ (Store.loadWorkspaces (Store.disk a')).2 = None.
Proof.
  destruct store_file_always_loads as [Hsave Hrun].
  destruct (Hsave Store.notUTF8 Store.noFile eq_refl eq_refl)
    as (Hv & _ & Hl).
  split; [exact Hv|]. split; [exact Hl|].
  destruct (StoreMore.applyAll _ (StoreMore.started Store.noFile))
    as [a'|] eqn:Hops; [|vm_compute in Hops; discriminate].
  assert (StoreMore.synced (StoreMore.started Store.noFile)) as Hs
    by (right; split; reflexivity).
  exists a'. split; [reflexivity|].
  apply (Hrun _ _ _ Hs eq_refl Hops).
  vm_compute in Hops. injection Hops as <-. reflexivity.
Defined.

(** X17.  An exported collection imports back.  With a workspace and a
    collection selected, [exportCollectionJSON] hands data to the save
    dialog; when the strings of the collection are valid UTF-8,
    [json.Unmarshal] in [importPostmanJSON] reads that data without an
    error, whatever the order in which Go ranged over the header maps, and
    the collection that the import builds from it has the name of the
    exported collection and its requests in order, each with its name,
    method, URL, headers and body; a request without a header map comes
    back with an empty one, and a collection with an empty request list
    with none. *)
Theorem exported_collection_imports_back :
  ∀ rangeError order a w c ws coll,
    (∀ m, HeaderCodec.rangeOrder m (order m)) →
    Store.selectedCollection a = Some (w, c) →
    elems (Store.workspaces a) !! w = Some ws →
    elems (Workspace.Collections ws) !! c = Some coll →
    Codec.validCollection coll →
    ∃ data p,
      PostmanFile.exportCollectionJSON order a = Some data
      ∧ PostmanFile.readPostman rangeError data = Some p
      ∧ (∀ b, PostmanFile.importFile rangeError data b
              = Store.importPostmanJSON (Some p) b)
      ∧ Collection.Name (Store.importCollection p) = Collection.Name coll
      ∧ elems (Collection.Requests (Store.importCollection p))
        = PostmanFile.withHeaderMap <$> elems (Collection.Requests coll)
      ∧ (Collection.Requests (Store.importCollection p) = None
         ↔ elems (Collection.Requests coll) = []).
Proof.
  intros rangeError order a w c ws coll Ho Hsel Hw Hc Hv.
  destruct (exportCollectionJSON_selected order a w c Hsel)
    as (ws' & coll' & Hw' & Hc' & Hdata).
  rewrite Hw in Hw'. injection Hw' as <-.
  rewrite Hc in Hc'. injection Hc' as <-.
  pose proof (readPostman_exportData rangeError order coll Ho Hv) as Hread.
  eexists _, _. split; [exact Hdata|]. split; [exact Hread|].
  split; [by intros b; unfold PostmanFile.importFile; rewrite Hread|].
  split; [done|].
  assert (elems (Collection.Requests
                   (Store.importCollection
                      (Store.mkPostman (Collection.Name coll)
                         (PostmanFile.itemOf order
                            <$> elems (Collection.Requests coll)))))
          = PostmanFile.withHeaderMap <$> elems (Collection.Requests coll))
    as Hreqs.
  { unfold Store.importCollection.
    cbn [Collection.Requests Store.items Store.info_Name].
    rewrite importCollection_requests, <- list_fmap_compose.
    cbn [elems default from_option app]. apply list_fmap_ext.
    intros i r _. by apply importRequest_itemOf. }
  split; [exact Hreqs|].
  unfold Store.importCollection.
  cbn [Collection.Requests Store.items Store.info_Name].
  destruct (elems (Collection.Requests coll)) as [|r l]; [done|].
  split; [|done]. intros Hnone.
  assert (elems (foldl (λ reqs item, append reqs (Store.importRequest item))
                   None (PostmanFile.itemOf order <$> r :: l)) = []) as He
    by (by rewrite Hnone).
  by rewrite importCollection_requests in He.
Qed.

Lemma exported_collection_imports_back_witness :
  ∃ data p,
    PostmanFile.exportCollectionJSON map_to_list Store.withOneRequest
    = Some data
    ∧ PostmanFile.readPostman (λ _, false) data = Some p
    ∧ elems (Collection.Requests (Store.importCollection p))
      = [APIRequest.mk (str "http://h") (str "POST") (str "http://h")
           (Some {[ str "A" := str "b" ]}) (str "{}")].
Proof.
  assert (Store.selectedCollection Store.withOneRequest
          = Some (0%nat, 0%nat)) as Hsel by (vm_compute; reflexivity).
  destruct (elems (Store.workspaces Store.withOneRequest) !! 0%nat)
    as [ws|] eqn:Hw; [|vm_compute in Hw; discriminate].
  destruct (elems (Workspace.Collections ws) !! 0%nat)
    as [coll|] eqn:Hc;
    [|vm_compute in Hw; injection Hw as <-; vm_compute in Hc; discriminate].
  assert (Codec.validCollection coll ∧
          PostmanFile.withHeaderMap <$> elems (Collection.Requests coll)
          = [APIRequest.mk (str "http://h") (str "POST") (str "http://h")
               (Some {[ str "A" := str "b" ]}) (str "{}")]) as [Hv Hl].
  { vm_compute in Hw. injection Hw as <-. vm_compute in Hc.
    injection Hc as <-. split; [|vm_compute; reflexivity].
    split; [reflexivity|]. apply Forall_cons_2; [|apply Forall_nil_2].
    split; [reflexivity|]. split; [reflexivity|]. split; [reflexivity|].
    split; [|reflexivity].
    apply (bool_decide_unpack _). vm_compute. exact I. }
  destruct (exported_collection_imports_back (λ _, false) map_to_list
              Store.withOneRequest 0%nat 0%nat ws coll)
    as (data & p & Hd & Hp & _ & _ & Hr & _);
    [intros m; unfold HeaderCodec.rangeOrder; reflexivity
    | exact Hsel | exact Hw | exact Hc | exact Hv |].
  exists data, p. split; [exact Hd|]. split; [exact Hp|].
  rewrite Hr. exact Hl.
Defined.
